(** * Texas Hold'em rules engine: hand evaluation, pot accounting and the
    betting-round state machine.

    The development embeds the JavaScript sources in Gallina:
    - the card model, [Deck], [HandEvaluator] and [PotManager] (card / hand / pot
      file);
    - [Player] and [TexasHoldemGame] (game state and orchestration file);
    - the position labels of [BotDecisionEngine.getPosition] (bot file); the
      bots' decisions themselves enter the engine as inputs.

    Conventions of the embedding.
    - JavaScript numbers that hold chips, card values and rankings are
      integers of [Z]; array indices are [nat].
    - A JavaScript object used as a dictionary keyed by player id is a
      [gmap Z _]; reading a missing key gives [None] (JavaScript [undefined]).
    - A function that can throw returns an [option]: [None] is the throw.
      The same [None] is used where the JavaScript arithmetic would leave the
      integers ([undefined] entering an addition); each such place is marked.
    - Timers ([setTimeout]) are kept as data: the state records the one
      callback that is scheduled, and [TexasHoldemGame.fire] runs it. *)

From stdpp Require Import gmap list strings sorting.

Open Scope Z_scope.

(* ====================================================================== *)
(** * JavaScript helpers                                                   *)
(* ====================================================================== *)

(** [Array.prototype.sort(cmp)] is a stable sort; it is modelled by a stable
    insertion sort: an element is placed before the first element that the
    comparator does not put strictly before it. *)
Fixpoint insertBy {A} (cmp : A → A → Z) (x : A) (l : list A) : list A :=
  match l with
  | [] => [x]
  | y :: l' => if cmp x y <=? 0 then x :: y :: l' else y :: insertBy cmp x l'
  end.

Definition sortBy {A} (cmp : A → A → Z) (l : list A) : list A :=
  foldr (insertBy cmp) [] l.

(** [Object.values(obj)] of a dictionary: the order is irrelevant wherever it
    is used below (a set is built and sorted, or a sum is taken). *)
Definition objectValues {V} (m : gmap Z V) : list V := (map_to_list m).*2.

(** Sum of a list of integers, [reduce((a, b) => a + b, 0)]. *)
Definition sumZ (l : list Z) : Z := foldl Z.add 0 l.

(* ====================================================================== *)
(** * Cards                                                                *)
(* ====================================================================== *)

Inductive Suit := Spades | Hearts | Diamonds | Clubs.

Inductive Rank :=
| R2 | R3 | R4 | R5 | R6 | R7 | R8 | R9 | R10 | RJ | RQ | RK | RA.

#[global] Instance Suit_eq_dec : EqDecision Suit.
Proof. solve_decision. Defined.

#[global] Instance Rank_eq_dec : EqDecision Rank.
Proof. solve_decision. Defined.

Definition RANK_VALUES (r : Rank) : Z :=
  match r with
  | R2 => 2 | R3 => 3 | R4 => 4 | R5 => 5 | R6 => 6 | R7 => 7 | R8 => 8
  | R9 => 9 | R10 => 10 | RJ => 11 | RQ => 12 | RK => 13 | RA => 14
  end.

Module Card.
Record t := mk { suit : Suit; rank : Rank }.

(** [this.value = RANK_VALUES[rank]], fixed by the constructor. *)
Definition value (c : t) : Z := RANK_VALUES (rank c).
End Card.

#[global] Instance Card_eq_dec : EqDecision Card.t.
Proof. solve_decision. Defined.

(* ====================================================================== *)
(** * Deck                                                                 *)
(* ====================================================================== *)

Definition SUITS : list Suit := [Spades; Hearts; Diamonds; Clubs].

Definition RANKS : list Rank := [R2; R3; R4; R5; R6; R7; R8; R9; R10; RJ; RQ; RK; RA].

Module Deck.

(** The cards pushed by [reset] before it shuffles: for each suit, for each
    rank. *)
Definition build : list Card.t :=
  suit ← SUITS; rank ← RANKS; [Card.mk suit rank].

(** [[cards[i], cards[j]] = [cards[j], cards[i]]].  Both indices are in range
    in [shuffle]; the array is left alone otherwise. *)
Definition swap (cards : list Card.t) (i j : nat) : list Card.t :=
  match cards !! i, cards !! j with
  | Some ci, Some cj => <[j := ci]> (<[i := cj]> cards)
  | _, _ => cards
  end.

(** The loop of [shuffle], from index [i] down to 1.  [draw i] is the value
    of [Math.floor(Math.random() * (i + 1))] in the iteration for [i], an
    integer between 0 and [i]. *)
Fixpoint shuffleLoop (draw : nat → nat) (i : nat) (cards : list Card.t) : list Card.t :=
  match i with
  | O => cards
  | S i' => shuffleLoop draw i' (swap cards i (draw i))
  end.

Definition shuffle (draw : nat → nat) (cards : list Card.t) : list Card.t :=
  shuffleLoop draw (length cards - 1) cards.

Definition reset (draw : nat → nat) : list Card.t := shuffle draw build.

(** [deal(count)] is [cards.splice(0, count)]: the cards dealt and the cards
    left. *)
Definition deal (cards : list Card.t) (count : nat) : list Card.t * list Card.t :=
  (take count cards, drop count cards).

End Deck.

(* ====================================================================== *)
(** * Hand evaluation results                                              *)
(* ====================================================================== *)

Module HAND_RANKINGS.
Definition HIGH_CARD : Z := 1.
Definition PAIR : Z := 2.
Definition TWO_PAIR : Z := 3.
Definition THREE_OF_A_KIND : Z := 4.
Definition STRAIGHT : Z := 5.
Definition FLUSH : Z := 6.
Definition FULL_HOUSE : Z := 7.
Definition FOUR_OF_A_KIND : Z := 8.
Definition STRAIGHT_FLUSH : Z := 9.
Definition ROYAL_FLUSH : Z := 10.
End HAND_RANKINGS.

Module Hand.
Record t := mk {
  ranking : Z;
  name : string;
  values : list Z;
  cards : list Card.t
}.
End Hand.

(* ====================================================================== *)
(** * HandEvaluator                                                        *)
(* ====================================================================== *)

Module HandEvaluator.

(** [getCombinations(arr, size)]: the inner [combine(start, combo)] with the
    suffix [arr.slice(start)] as [rest].  The [for] loop over [i >= start]
    pushes [arr[start]], recurses, pops, and continues with [i = start + 1],
    which is [combine (start + 1) combo] again since the length test has
    already failed for [combo]. *)
Fixpoint combine {A} (size : nat) (rest : list A) (combo : list A) : list (list A) :=
  if (length combo =? size)%nat then [combo]
  else match rest with
       | [] => []
       | x :: rest' => combine size rest' (combo ++ [x]) ++ combine size rest' combo
       end.

Definition getCombinations {A} (arr : list A) (size : nat) : list (list A) :=
  combine size arr [].

(** [checkFlush]: [cards[0].suit] throws on the empty array. *)
Definition checkFlush (cards : list Card.t) : option bool :=
  match cards with
  | [] => None
  | c0 :: _ => Some (forallb (λ card, bool_decide (Card.suit card = Card.suit c0)) cards)
  end.

(** The loop of [checkStraight] over adjacent values. *)
Fixpoint isStraightLoop (values : list Z) : bool :=
  match values with
  | v0 :: (v1 :: _) as rest =>
      if bool_decide (v0 - v1 ≠ 1) then false else isStraightLoop rest
  | _ => true
  end.

(** [checkStraight] returns a number, [null] or (on an empty array)
    [undefined]; the last two are [None]. *)
Definition checkStraight (cards : list Card.t) : option Z :=
  let values := sortBy (λ a b, b - a) (Card.value <$> cards) in
  if isStraightLoop values then values !! 0%nat
  else if bool_decide (values !! 0%nat = Some 14 ∧ values !! 1%nat = Some 5 ∧
                       values !! 2%nat = Some 4 ∧ values !! 3%nat = Some 3 ∧
                       values !! 4%nat = Some 2)
       then Some 5
       else None.

(** [groups[card.value].push(card)] on an object with integer keys, whose
    [Object.values] come in ascending key order: the association list is kept
    in ascending key order. *)
Fixpoint pushGroup (card : Card.t) (groups : list (Z * list Card.t)) : list (Z * list Card.t) :=
  match groups with
  | [] => [(Card.value card, [card])]
  | (k, g) :: rest =>
      if bool_decide (Card.value card = k) then (k, g ++ [card]) :: rest
      else if bool_decide (Card.value card < k) then (Card.value card, [card]) :: (k, g) :: rest
      else (k, g) :: pushGroup card rest
  end.

(** [g[0].value] of a group (groups are never empty). *)
Definition firstValue (g : list Card.t) : Z := default 0 (Card.value <$> head g).

Definition groupByRank (cards : list Card.t) : list (list Card.t) :=
  let groups := foldl (λ groups card, pushGroup card groups) [] cards in
  sortBy (λ a b, if bool_decide (length b ≠ length a)
                 then Z.of_nat (length b) - Z.of_nat (length a)
                 else firstValue b - firstValue a)
         (groups.*2).

(** JavaScript truthiness of the result of [checkStraight]. *)
Definition truthy (v : option Z) : bool :=
  match v with
  | Some n => negb (n =? 0)
  | None => false
  end.

(** [groups[i].length === n] and [groups[i][0].value]. *)
Definition groupLength (groups : list (list Card.t)) (i : nat) : option nat :=
  length <$> groups !! i.

Definition groupValue (groups : list (list Card.t)) (i : nat) : Z :=
  firstValue (default [] (groups !! i)).

Definition evaluate5Cards (cards : list Card.t) : option Hand.t :=
  let sorted := sortBy (λ a b, Card.value b - Card.value a) cards in
  isFlush ← checkFlush sorted;
  let straightValue := checkStraight sorted in
  let groups := groupByRank sorted in
  Some (
    if isFlush && bool_decide (straightValue = Some 14) then
      Hand.mk HAND_RANKINGS.ROYAL_FLUSH "Royal Flush" [14] sorted
    else if isFlush && truthy straightValue then
      Hand.mk HAND_RANKINGS.STRAIGHT_FLUSH "Straight Flush" [default 0 straightValue] sorted
    else if bool_decide (length groups = 2%nat) && bool_decide (groupLength groups 0 = Some 4%nat) then
      Hand.mk HAND_RANKINGS.FOUR_OF_A_KIND "Four of a Kind"
              [groupValue groups 0; groupValue groups 1] sorted
    else if bool_decide (length groups = 2%nat) && bool_decide (groupLength groups 0 = Some 3%nat)
            && bool_decide (groupLength groups 1 = Some 2%nat) then
      Hand.mk HAND_RANKINGS.FULL_HOUSE "Full House"
              [groupValue groups 0; groupValue groups 1] sorted
    else if isFlush then
      Hand.mk HAND_RANKINGS.FLUSH "Flush" (Card.value <$> sorted) sorted
    else if truthy straightValue then
      Hand.mk HAND_RANKINGS.STRAIGHT "Straight" [default 0 straightValue] sorted
    else if bool_decide (length groups = 3%nat) && bool_decide (groupLength groups 0 = Some 3%nat) then
      Hand.mk HAND_RANKINGS.THREE_OF_A_KIND "Three of a Kind"
              [groupValue groups 0; groupValue groups 1; groupValue groups 2] sorted
    else if bool_decide (length groups = 3%nat) && bool_decide (groupLength groups 0 = Some 2%nat)
            && bool_decide (groupLength groups 1 = Some 2%nat) then
      Hand.mk HAND_RANKINGS.TWO_PAIR "Two Pair"
              [groupValue groups 0; groupValue groups 1; groupValue groups 2] sorted
    else if bool_decide (length groups = 4%nat) && bool_decide (groupLength groups 0 = Some 2%nat) then
      Hand.mk HAND_RANKINGS.PAIR "Pair"
              [groupValue groups 0; groupValue groups 1; groupValue groups 2; groupValue groups 3] sorted
    else
      Hand.mk HAND_RANKINGS.HIGH_CARD "High Card" (Card.value <$> sorted) sorted).

(** [hand.values[i] || 0]. *)
Definition valueAt (values : list Z) (i : nat) : Z := default 0 (values !! i).

(** The kicker loop of [compareHands], from index [i], with [n] iterations
    left. *)
Fixpoint compareValues (values1 values2 : list Z) (i n : nat) : Z :=
  match n with
  | O => 0
  | S n' =>
      let val1 := valueAt values1 i in
      let val2 := valueAt values2 i in
      if bool_decide (val1 ≠ val2) then val1 - val2
      else compareValues values1 values2 (S i) n'
  end.

Definition compareHands (hand1 hand2 : Hand.t) : Z :=
  if bool_decide (Hand.ranking hand1 ≠ Hand.ranking hand2)
  then Hand.ranking hand1 - Hand.ranking hand2
  else compareValues (Hand.values hand1) (Hand.values hand2) 0
         (Nat.max (length (Hand.values hand1)) (length (Hand.values hand2))).

(** The loop shared by [findBest5CardHand] and the six-card branch of
    [evaluateHand]; [bestHand] starts as [null] ([None]).  The outer option
    is a throw of [evaluate5Cards]. *)
Fixpoint bestHandLoop (combinations : list (list Card.t)) (bestHand : option Hand.t)
  : option (option Hand.t) :=
  match combinations with
  | [] => Some bestHand
  | combo :: rest =>
      hand ← evaluate5Cards combo;
      match bestHand with
      | None => bestHandLoop rest (Some hand)
      | Some best =>
          if compareHands hand best >? 0 then bestHandLoop rest (Some hand)
          else bestHandLoop rest bestHand
      end
  end.

Definition findBest5CardHand (cards : list Card.t) : option (option Hand.t) :=
  bestHandLoop (getCombinations cards 5) None.

(** [evaluateHand]: [None] is a throw; the inner option is a [null] result,
    which no call with at least five cards produces. *)
Definition evaluateHand (cards : list Card.t) : option (option Hand.t) :=
  if (length cards <? 5)%nat then None
  else if (length cards =? 7)%nat then findBest5CardHand cards
  else if (length cards =? 6)%nat then bestHandLoop (getCombinations cards 5) None
  else Some <$> evaluate5Cards cards.

(** The strings of [RANKS]. *)
Definition rankText (r : Rank) : string :=
  match r with
  | R2 => "2" | R3 => "3" | R4 => "4" | R5 => "5" | R6 => "6" | R7 => "7" | R8 => "8"
  | R9 => "9" | R10 => "10" | RJ => "J" | RQ => "Q" | RK => "K" | RA => "A"
  end.

(** [RANKS[hand.values[i] - 2]] as it is rendered in a template string:
    ["undefined"] when [hand.values[i]] is undefined (the index is [NaN]) or
    the index is outside the array. *)
Definition rankLabel (value : option Z) : string :=
  match value with
  | Some v =>
      if bool_decide (0 ≤ v - 2)
      then default "undefined" (rankText <$> RANKS !! Z.to_nat (v - 2))
      else "undefined"
  | None => "undefined"
  end.

Definition getHandDescription (hand : Hand.t) : string :=
  let label i := rankLabel (Hand.values hand !! i) in
  let highCard := label 0%nat in
  let ranking := Hand.ranking hand in
  if bool_decide (ranking = HAND_RANKINGS.ROYAL_FLUSH) then "Royal Flush"
  else if bool_decide (ranking = HAND_RANKINGS.STRAIGHT_FLUSH)
  then "Straight Flush, " +:+ highCard +:+ " high"
  else if bool_decide (ranking = HAND_RANKINGS.FOUR_OF_A_KIND)
  then "Four " +:+ label 0%nat +:+ "s"
  else if bool_decide (ranking = HAND_RANKINGS.FULL_HOUSE)
  then "Full House, " +:+ label 0%nat +:+ "s over " +:+ label 1%nat +:+ "s"
  else if bool_decide (ranking = HAND_RANKINGS.FLUSH)
  then "Flush, " +:+ highCard +:+ " high"
  else if bool_decide (ranking = HAND_RANKINGS.STRAIGHT)
  then "Straight, " +:+ highCard +:+ " high"
  else if bool_decide (ranking = HAND_RANKINGS.THREE_OF_A_KIND)
  then "Three " +:+ label 0%nat +:+ "s"
  else if bool_decide (ranking = HAND_RANKINGS.TWO_PAIR)
  then "Two Pair, " +:+ label 0%nat +:+ "s and " +:+ label 1%nat +:+ "s"
  else if bool_decide (ranking = HAND_RANKINGS.PAIR)
  then "Pair of " +:+ label 0%nat +:+ "s"
  else if bool_decide (ranking = HAND_RANKINGS.HIGH_CARD)
  then highCard +:+ " high"
  else "Unknown hand".

End HandEvaluator.

(* ====================================================================== *)
(** * Players                                                              *)
(* ====================================================================== *)

(** The display string [lastAction], kept structured. *)
Inductive LastAction :=
| LastFold
| LastCheck
| LastCall (actualCall : Z)
| LastBet (betAmount : Z)
| LastRaiseTo (currentBet : Z)
| LastAllIn.

Module Player.

(** The bot fields [personality] and [decisionEngine] are left out: the bots'
    decisions enter the engine as inputs. *)
Record t := mk {
  id : Z;
  name : string;
  stack : Z;
  isHuman : bool;
  holeCards : list Card.t;
  currentBet : Z;
  totalBet : Z;
  folded : bool;
  allIn : bool;
  isActive : bool;
  lastAction : option LastAction
}.

Definition new (id : Z) (name : string) (stack : Z) (isHuman : bool) : t :=
  mk id name stack isHuman [] 0 0 false false true None.

Definition reset (p : t) : t :=
  mk (id p) (name p) (stack p) (isHuman p) [] 0 0 false false (isActive p) None.

(** [bet(amount)] returns the updated player and [actualBet]. *)
Definition bet (p : t) (amount : Z) : t * Z :=
  let actualBet := Z.min amount (stack p) in
  let stack' := stack p - actualBet in
  (mk (id p) (name p) stack' (isHuman p) (holeCards p)
      (currentBet p + actualBet) (totalBet p + actualBet) (folded p)
      (if bool_decide (stack' = 0) then true else allIn p)
      (isActive p) (lastAction p),
   actualBet).

Definition win (p : t) (amount : Z) : t :=
  mk (id p) (name p) (stack p + amount) (isHuman p) (holeCards p)
     (currentBet p) (totalBet p) (folded p) (allIn p) (isActive p) (lastAction p).

Definition canAct (p : t) : bool :=
  negb (folded p) && negb (allIn p) && bool_decide (0 < stack p).

Definition setFolded (p : t) (b : bool) : t :=
  mk (id p) (name p) (stack p) (isHuman p) (holeCards p)
     (currentBet p) (totalBet p) b (allIn p) (isActive p) (lastAction p).

Definition setAllIn (p : t) (b : bool) : t :=
  mk (id p) (name p) (stack p) (isHuman p) (holeCards p)
     (currentBet p) (totalBet p) (folded p) b (isActive p) (lastAction p).

Definition setLastAction (p : t) (a : LastAction) : t :=
  mk (id p) (name p) (stack p) (isHuman p) (holeCards p)
     (currentBet p) (totalBet p) (folded p) (allIn p) (isActive p) (Some a).

Definition setHoleCards (p : t) (cs : list Card.t) : t :=
  mk (id p) (name p) (stack p) (isHuman p) cs
     (currentBet p) (totalBet p) (folded p) (allIn p) (isActive p) (lastAction p).

End Player.

(* ====================================================================== *)
(** * PotManager                                                           *)
(* ====================================================================== *)

Module Pot.
Record t := mk { amount : Z; eligiblePlayers : list Z }.
End Pot.

Inductive OperationType := Return | Win.

Module Operation.
Record t := mk {
  playerId : Z;
  amount : Z;
  type : OperationType;
  hand : option Hand.t
}.
End Operation.

Module PotManager.

(** [[...new Set(Object.values(currentBets))].sort((a, b) => a - b)]. *)
Definition betLevels (currentBets : gmap Z Z) : list Z :=
  sortBy (λ a b, a - b) (remove_dups (objectValues currentBets)).

(** One step of the inner loop of [createPots] for [player]. *)
Definition addPlayer (currentBets : gmap Z Z) (previousLevel level : Z)
    (pot : Pot.t) (player : Player.t) : Pot.t :=
  let playerBet := default 0 (currentBets !! Player.id player) in
  if playerBet >=? level then
    let contribution := Z.min level playerBet - previousLevel in
    let amount' := Pot.amount pot + contribution in
    if negb (Player.folded player) && (playerBet >=? level) then
      if bool_decide (Player.id player ∈ Pot.eligiblePlayers pot)
      then Pot.mk amount' (Pot.eligiblePlayers pot)
      else Pot.mk amount' (Pot.eligiblePlayers pot ++ [Player.id player])
    else Pot.mk amount' (Pot.eligiblePlayers pot)
  else pot.

Definition potAtLevel (players : list Player.t) (currentBets : gmap Z Z)
    (previousLevel level : Z) : Pot.t :=
  foldl (addPlayer currentBets previousLevel level) (Pot.mk 0 []) players.

(** The loop over [betLevels]; [pots] is [this.pots]. *)
Fixpoint potsFromLevels (players : list Player.t) (currentBets : gmap Z Z)
    (previousLevel : Z) (levels : list Z) (pots : list Pot.t) : list Pot.t :=
  match levels with
  | [] => pots
  | level :: rest =>
      let pot := potAtLevel players currentBets previousLevel level in
      potsFromLevels players currentBets level rest
        (if Pot.amount pot >? 0 then pots ++ [pot] else pots)
  end.

(** [createPots] replaces [this.pots]; the new list is returned. *)
Definition createPots (players : list Player.t) (currentBets : gmap Z Z) : list Pot.t :=
  let levels := betLevels currentBets in
  match levels with
  | [] => []
  | level0 :: _ =>
      if bool_decide (level0 = 0) then []
      else potsFromLevels players currentBets 0 levels []
  end.

Definition getTotalPot (pots : list Pot.t) : Z :=
  foldl (λ sum pot, sum + Pot.amount pot) 0 pots.

(** [players.filter(p => pot.eligiblePlayers.includes(p.id) && !p.folded)]. *)
Definition eligibleFor (players : list Player.t) (pot : Pot.t) : list Player.t :=
  filter (λ p, Player.id p ∈ Pot.eligiblePlayers pot ∧ Player.folded p = false) players.

(** The winner search of [distributePots].  [bestHand] and [winners] are the
    loop variables; [compared] counts the calls of [compareHands] (a ghost
    counter, not in the source).  [None]: [compareHands] is called on an
    [undefined] evaluation and throws. *)
Fixpoint findWinners (handEvaluations : gmap Z Hand.t) (eligiblePlayers : list Player.t)
    (bestHand : option Hand.t) (winners : list Player.t) (compared : nat)
  : option (list Player.t * nat) :=
  match eligiblePlayers with
  | [] => Some (winners, compared)
  | player :: rest =>
      let playerHand := handEvaluations !! Player.id player in
      match bestHand with
      | None => findWinners handEvaluations rest playerHand [player] compared
      | Some best =>
          hand ← playerHand;
          let comparison := HandEvaluator.compareHands hand best in
          if comparison >? 0 then
            findWinners handEvaluations rest (Some hand) [player] (S compared)
          else if comparison =? 0 then
            findWinners handEvaluations rest bestHand (winners ++ [player]) (S compared)
          else
            findWinners handEvaluations rest bestHand winners (S compared)
      end
  end.

(** The payout loop: [share] is [Math.floor(pot.amount / winners.length)],
    [remainder] is [pot.amount % winners.length] (the sign follows the
    dividend, [Z.rem]); index [i] starts at 0. *)
Fixpoint splitLoop (handEvaluations : gmap Z Hand.t) (share remainder : Z)
    (winners : list Player.t) (i : nat) : list Operation.t :=
  match winners with
  | [] => []
  | w :: rest =>
      let playerId := Player.id w in
      let amount := if bool_decide (i = 0%nat) then share + remainder else share in
      Operation.mk playerId amount Win (handEvaluations !! playerId)
        :: splitLoop handEvaluations share remainder rest (S i)
  end.

(** The body of the loop of [distributePots] for one pot: the operations it
    pushes and the number of hand comparisons it makes. *)
Definition potOperations (players : list Player.t) (handEvaluations : gmap Z Hand.t)
    (pot : Pot.t) : option (list Operation.t * nat) :=
  let eligiblePlayers := eligibleFor players pot in
  match eligiblePlayers with
  | [] => Some ([], 0%nat)
  | [only] => Some ([Operation.mk (Player.id only) (Pot.amount pot) Return None], 0%nat)
  | _ =>
      '(winners, compared) ← findWinners handEvaluations eligiblePlayers None [] 0;
      let n := Z.of_nat (length winners) in
      let share := Pot.amount pot `div` n in
      let remainder := Pot.amount pot `rem` n in
      Some (splitLoop handEvaluations share remainder winners 0, compared)
  end.

Fixpoint distributeLoop (players : list Player.t) (handEvaluations : gmap Z Hand.t)
    (pots : list Pot.t) (operations : list Operation.t) (compared : nat)
  : option (list Operation.t * nat) :=
  match pots with
  | [] => Some (operations, compared)
  | pot :: rest =>
      '(ops, c) ← potOperations players handEvaluations pot;
      distributeLoop players handEvaluations rest (operations ++ ops) (compared + c)
  end.

(** [distributePots] over [this.pots]; [None] is a throw. *)
Definition distributePots (pots : list Pot.t) (players : list Player.t)
    (handEvaluations : gmap Z Hand.t) : option (list Operation.t) :=
  fst <$> distributeLoop players handEvaluations pots [] 0.

End PotManager.

(* ====================================================================== *)
(** * TexasHoldemGame                                                      *)
(* ====================================================================== *)

Inductive GameState :=
| WAITING | PRE_FLOP | FLOP | TURN | RIVER | SHOWDOWN | HAND_COMPLETE.

Inductive PlayerAction := FOLD | CHECK | CALL | BET | RAISE | ALL_IN.

#[global] Instance GameState_eq_dec : EqDecision GameState.
Proof. solve_decision. Defined.

#[global] Instance PlayerAction_eq_dec : EqDecision PlayerAction.
Proof. solve_decision. Defined.

(** The callback scheduled with [setTimeout]; at most one is pending. *)
Inductive Timer :=
| ProcessNextAction
| ProcessBotAction (seat : nat)
| StartBettingRound
| CompleteHand
| StartNewHand.

(** The events of [emit] that carry rules information; display events
    ([playerTurn], [actionLogged], the deal events, ...) are left out, and so
    is the action history. *)
Inductive Event :=
| BettingRoundComplete (pot : Z)
| SinglePlayerWin (winner : Z) (pot : Z)
| IntegrityError (found : Z)
| GameOver.

(** What the environment supplies when a timer fires: a bot's decision
    ([makeDecision] draws random numbers) or the shuffled deck of
    [Deck.reset] ([Math.random]). *)
Inductive Input :=
| NoInput
| BotDecision (action : PlayerAction) (amount : Z)
| Shuffled (cards : list Card.t).

(** The position labels of [getPlayerPosition] and [getPosition]. *)
Inductive Position := early | middle | late.

(** The computation shared by [TexasHoldemGame.getPlayerPosition] and
    [BotDecisionEngine.getPosition]; [%] takes the sign of the dividend.  With
    no players the remainder is [NaN], every comparison fails and the result
    is ['late']. *)
Definition positionFromDealer (seatIndex dealerIndex numPlayers : Z) : Position :=
  if bool_decide (numPlayers = 0) then late
  else
    let positionFromDealer := (seatIndex - dealerIndex + numPlayers) `rem` numPlayers in
    if positionFromDealer <=? 2 then early
    else if positionFromDealer <=? 4 then middle
    else late.

Module TexasHoldemGame.

Record t := mk {
  players : list Player.t;
  deck : list Card.t;
  communityCards : list Card.t;
  pots : list Pot.t;
  state : GameState;
  dealerIndex : nat;
  currentPlayerIndex : nat;
  currentBet : Z;
  minRaise : Z;
  smallBlind : Z;
  bigBlind : Z;
  handNumber : Z;
  waitingForHumanAction : bool;
  currentBets : gmap Z Z;
  playersActedThisRound : gmap Z bool;
  lastRaiserIndex : Z;
  events : list Event;
  timer : option Timer
}.

(** Field updates ([this.field = v]). *)
Definition set_players (g : t) (v : list Player.t) : t :=
  mk v (deck g) (communityCards g) (pots g) (state g) (dealerIndex g) (currentPlayerIndex g) (currentBet g) (minRaise g) (smallBlind g) (bigBlind g) (handNumber g) (waitingForHumanAction g) (currentBets g) (playersActedThisRound g) (lastRaiserIndex g) (events g) (timer g).

Definition set_deck (g : t) (v : list Card.t) : t :=
  mk (players g) v (communityCards g) (pots g) (state g) (dealerIndex g) (currentPlayerIndex g) (currentBet g) (minRaise g) (smallBlind g) (bigBlind g) (handNumber g) (waitingForHumanAction g) (currentBets g) (playersActedThisRound g) (lastRaiserIndex g) (events g) (timer g).

Definition set_communityCards (g : t) (v : list Card.t) : t :=
  mk (players g) (deck g) v (pots g) (state g) (dealerIndex g) (currentPlayerIndex g) (currentBet g) (minRaise g) (smallBlind g) (bigBlind g) (handNumber g) (waitingForHumanAction g) (currentBets g) (playersActedThisRound g) (lastRaiserIndex g) (events g) (timer g).

Definition set_pots (g : t) (v : list Pot.t) : t :=
  mk (players g) (deck g) (communityCards g) v (state g) (dealerIndex g) (currentPlayerIndex g) (currentBet g) (minRaise g) (smallBlind g) (bigBlind g) (handNumber g) (waitingForHumanAction g) (currentBets g) (playersActedThisRound g) (lastRaiserIndex g) (events g) (timer g).

Definition set_state (g : t) (v : GameState) : t :=
  mk (players g) (deck g) (communityCards g) (pots g) v (dealerIndex g) (currentPlayerIndex g) (currentBet g) (minRaise g) (smallBlind g) (bigBlind g) (handNumber g) (waitingForHumanAction g) (currentBets g) (playersActedThisRound g) (lastRaiserIndex g) (events g) (timer g).

Definition set_dealerIndex (g : t) (v : nat) : t :=
  mk (players g) (deck g) (communityCards g) (pots g) (state g) v (currentPlayerIndex g) (currentBet g) (minRaise g) (smallBlind g) (bigBlind g) (handNumber g) (waitingForHumanAction g) (currentBets g) (playersActedThisRound g) (lastRaiserIndex g) (events g) (timer g).

Definition set_currentPlayerIndex (g : t) (v : nat) : t :=
  mk (players g) (deck g) (communityCards g) (pots g) (state g) (dealerIndex g) v (currentBet g) (minRaise g) (smallBlind g) (bigBlind g) (handNumber g) (waitingForHumanAction g) (currentBets g) (playersActedThisRound g) (lastRaiserIndex g) (events g) (timer g).

Definition set_currentBet (g : t) (v : Z) : t :=
  mk (players g) (deck g) (communityCards g) (pots g) (state g) (dealerIndex g) (currentPlayerIndex g) v (minRaise g) (smallBlind g) (bigBlind g) (handNumber g) (waitingForHumanAction g) (currentBets g) (playersActedThisRound g) (lastRaiserIndex g) (events g) (timer g).

Definition set_minRaise (g : t) (v : Z) : t :=
  mk (players g) (deck g) (communityCards g) (pots g) (state g) (dealerIndex g) (currentPlayerIndex g) (currentBet g) v (smallBlind g) (bigBlind g) (handNumber g) (waitingForHumanAction g) (currentBets g) (playersActedThisRound g) (lastRaiserIndex g) (events g) (timer g).

Definition set_handNumber (g : t) (v : Z) : t :=
  mk (players g) (deck g) (communityCards g) (pots g) (state g) (dealerIndex g) (currentPlayerIndex g) (currentBet g) (minRaise g) (smallBlind g) (bigBlind g) v (waitingForHumanAction g) (currentBets g) (playersActedThisRound g) (lastRaiserIndex g) (events g) (timer g).

Definition set_waitingForHumanAction (g : t) (v : bool) : t :=
  mk (players g) (deck g) (communityCards g) (pots g) (state g) (dealerIndex g) (currentPlayerIndex g) (currentBet g) (minRaise g) (smallBlind g) (bigBlind g) (handNumber g) v (currentBets g) (playersActedThisRound g) (lastRaiserIndex g) (events g) (timer g).

Definition set_currentBets (g : t) (v : gmap Z Z) : t :=
  mk (players g) (deck g) (communityCards g) (pots g) (state g) (dealerIndex g) (currentPlayerIndex g) (currentBet g) (minRaise g) (smallBlind g) (bigBlind g) (handNumber g) (waitingForHumanAction g) v (playersActedThisRound g) (lastRaiserIndex g) (events g) (timer g).

Definition set_playersActedThisRound (g : t) (v : gmap Z bool) : t :=
  mk (players g) (deck g) (communityCards g) (pots g) (state g) (dealerIndex g) (currentPlayerIndex g) (currentBet g) (minRaise g) (smallBlind g) (bigBlind g) (handNumber g) (waitingForHumanAction g) (currentBets g) v (lastRaiserIndex g) (events g) (timer g).

Definition set_lastRaiserIndex (g : t) (v : Z) : t :=
  mk (players g) (deck g) (communityCards g) (pots g) (state g) (dealerIndex g) (currentPlayerIndex g) (currentBet g) (minRaise g) (smallBlind g) (bigBlind g) (handNumber g) (waitingForHumanAction g) (currentBets g) (playersActedThisRound g) v (events g) (timer g).

Definition set_events (g : t) (v : list Event) : t :=
  mk (players g) (deck g) (communityCards g) (pots g) (state g) (dealerIndex g) (currentPlayerIndex g) (currentBet g) (minRaise g) (smallBlind g) (bigBlind g) (handNumber g) (waitingForHumanAction g) (currentBets g) (playersActedThisRound g) (lastRaiserIndex g) v (timer g).

Definition set_timer (g : t) (v : option Timer) : t :=
  mk (players g) (deck g) (communityCards g) (pots g) (state g) (dealerIndex g) (currentPlayerIndex g) (currentBet g) (minRaise g) (smallBlind g) (bigBlind g) (handNumber g) (waitingForHumanAction g) (currentBets g) (playersActedThisRound g) (lastRaiserIndex g) (events g) v.

Definition EXPECTED_TOTAL : Z := 6000.

Definition emit (g : t) (e : Event) : t := set_events g (events g ++ [e]).

(** [deck.deal(count)] is [cards.splice(0, count)]. *)
Definition deal (g : t) (count : nat) : list Card.t * t :=
  (take count (deck g), set_deck g (drop count (deck g))).

(** The total recomputed by [validateGameState]: stacks, current bets and
    pots. *)
Definition chipTotal (g : t) : Z :=
  sumZ (Player.stack <$> players g) + sumZ (objectValues (currentBets g))
  + PotManager.getTotalPot (pots g).

Definition validateGameState (g : t) : t :=
  let currentTotal := chipTotal g in
  let g := if bool_decide (currentTotal ≠ EXPECTED_TOTAL)
           then emit g (IntegrityError currentTotal) else g in
  set_players g
    ((λ player,
        if bool_decide (Player.stack player = 0) && negb (Player.allIn player)
           && negb (Player.folded player)
        then Player.setAllIn player true else player) <$> players g).

(** [x % this.players.length] on seat indices.  (With no players JavaScript
    gives [NaN]; the engine never computes it then.) *)
Definition seatMod (g : t) (x : nat) : nat := (x `mod` length (players g))%nat.

Definition moveToNextPlayer (g : t) : t :=
  let g := set_currentPlayerIndex g (seatMod g (currentPlayerIndex g + 1)) in
  set_timer g (Some ProcessNextAction).

(** [!this.playersActedThisRound[player.id]] is true for a missing key. *)
Definition hasActed (g : t) (player : Player.t) : bool :=
  default false (playersActedThisRound g !! Player.id player).

(** [this.currentBets[player.id] < this.currentBet] is false for a missing
    key. *)
Definition belowCurrentBet (g : t) (player : Player.t) : bool :=
  match currentBets g !! Player.id player with
  | Some b => b <? currentBet g
  | None => false
  end.

Definition isBettingRoundComplete (g : t) : bool :=
  let activePlayers := filter (λ p, Player.canAct p = true) (players g) in
  if bool_decide (length activePlayers = 0%nat) then true
  else if existsb (λ player, Player.canAct player && negb (hasActed g player)) (players g)
  then false
  else if existsb (λ player, Player.canAct player && belowCurrentBet g player) (players g)
  then false
  else true.

Definition completeHand (g : t) : t :=
  let g := set_state g HAND_COMPLETE in
  set_timer g (Some StartNewHand).

Definition dealFlop (g : t) : t :=
  let '(_, g) := deal g 1 in
  let '(cards, g) := deal g 3 in
  let g := set_communityCards g cards in
  let g := set_state g FLOP in
  set_timer g (Some StartBettingRound).

Definition dealTurn (g : t) : t :=
  let '(_, g) := deal g 1 in
  let '(cards, g) := deal g 1 in
  let g := set_communityCards g (communityCards g ++ cards) in
  let g := set_state g TURN in
  set_timer g (Some StartBettingRound).

Definition dealRiver (g : t) : t :=
  let '(_, g) := deal g 1 in
  let '(cards, g) := deal g 1 in
  let g := set_communityCards g (communityCards g ++ cards) in
  let g := set_state g RIVER in
  set_timer g (Some StartBettingRound).

(** [handEvaluations[player.id] = HandEvaluator.evaluateHand(allCards)] for
    the players that have not folded; [None] when [evaluateHand] throws. *)
Fixpoint evaluateAll (communityCards : list Card.t) (activePlayers : list Player.t)
    (handEvaluations : gmap Z Hand.t) : option (gmap Z Hand.t) :=
  match activePlayers with
  | [] => Some handEvaluations
  | player :: rest =>
      result ← HandEvaluator.evaluateHand (Player.holeCards player ++ communityCards);
      evaluateAll communityCards rest
        (match result with
         | Some hand => <[Player.id player := hand]> handEvaluations
         | None => delete (Player.id player) handEvaluations
         end)
  end.

(** [this.players.find(p => p.id === playerId)], as a seat index. *)
Fixpoint findSeat (players : list Player.t) (playerId : Z) : option nat :=
  match players with
  | [] => None
  | p :: rest =>
      if bool_decide (Player.id p = playerId) then Some 0%nat
      else S <$> findSeat rest playerId
  end.

(** The payout loop of [showdown]; [None] when [find] gives [undefined]. *)
Fixpoint applyResults (players : list Player.t) (results : list Operation.t)
  : option (list Player.t) :=
  match results with
  | [] => Some players
  | result :: rest =>
      seat ← findSeat players (Operation.playerId result);
      player ← players !! seat;
      applyResults (<[seat := Player.win player (Operation.amount result)]> players) rest
  end.

Definition showdown (g : t) : option t :=
  let g := set_state g SHOWDOWN in
  let g := set_pots g (PotManager.createPots (players g) (currentBets g)) in
  let activePlayers := filter (λ p, Player.folded p = false) (players g) in
  handEvaluations ← evaluateAll (communityCards g) activePlayers ∅;
  results ← PotManager.distributePots (pots g) (players g) handEvaluations;
  players' ← applyResults (players g) results;
  let g := set_players g players' in
  let g := validateGameState g in
  Some (set_timer g (Some CompleteHand)).

Definition progressGameState (g : t) : option t :=
  match state g with
  | PRE_FLOP => Some (dealFlop g)
  | FLOP => Some (dealTurn g)
  | TURN => Some (dealRiver g)
  | RIVER => showdown g
  | SHOWDOWN => Some (completeHand g)
  | _ => Some g
  end.

Definition completeBettingRound (g : t) : option t :=
  let g := set_pots g (PotManager.createPots (players g) (currentBets g)) in
  let g := emit g (BettingRoundComplete (PotManager.getTotalPot (pots g))) in
  let g := set_currentBets g
             (foldl (λ bets player, <[Player.id player := 0]> bets) (currentBets g) (players g)) in
  let g := set_currentBet g 0 in
  progressGameState g.

(** [this.players.find(p => !p.folded)] as a seat index. *)
Fixpoint findNotFolded (players : list Player.t) : option nat :=
  match players with
  | [] => None
  | p :: rest => if Player.folded p then S <$> findNotFolded rest else Some 0%nat
  end.

Definition handleSinglePlayerWin (g : t) : option t :=
  seat ← findNotFolded (players g);
  winner ← players g !! seat;
  let g := set_pots g (PotManager.createPots (players g) (currentBets g)) in
  let pot := PotManager.getTotalPot (pots g) in
  let g := set_players g (<[seat := Player.win winner pot]> (players g)) in
  let g := emit g (SinglePlayerWin (Player.id winner) pot) in
  Some (set_timer g (Some CompleteHand)).

Definition processNextAction (g : t) : option t :=
  let activePlayers := filter (λ p, Player.canAct p = true) (players g) in
  if bool_decide (length activePlayers = 0%nat) then completeBettingRound g
  else if bool_decide (length activePlayers = 1%nat)
          && bool_decide (length (filter (λ p, Player.folded p = false) (players g)) = 1%nat)
  then handleSinglePlayerWin g
  else if isBettingRoundComplete g then completeBettingRound g
  else
    currentPlayer ← players g !! currentPlayerIndex g;
    if negb (Player.canAct currentPlayer) then Some (moveToNextPlayer g)
    else
      let g := if Player.isHuman currentPlayer then set_waitingForHumanAction g true else g in
      if negb (Player.isHuman currentPlayer)
      then Some (set_timer g (Some (ProcessBotAction (currentPlayerIndex g))))
      else Some g.

(** The [while] loop of [startBettingRound] looking for a seat that can act.
    Seats are visited cyclically, so [length players] iterations decide it:
    [None] is either [players[i]] being [undefined] (a throw) or a loop that
    never ends because no seat can act. *)
Fixpoint firstToAct (players : list Player.t) (i fuel : nat) : option nat :=
  match fuel with
  | O => None
  | S fuel' =>
      p ← players !! i;
      if negb (Player.canAct p) then firstToAct players ((i + 1) `mod` length players)%nat fuel'
      else Some i
  end.

Definition startBettingRound (g : t) : option t :=
  let g := set_playersActedThisRound g
             (foldl (λ acted player, <[Player.id player := false]> acted) ∅ (players g)) in
  let g := if bool_decide (state g = PRE_FLOP)
           then set_currentPlayerIndex g (seatMod g (dealerIndex g + 3))
           else let g := set_currentPlayerIndex g (seatMod g (dealerIndex g + 1)) in
                set_currentBet g 0 in
  i ← firstToAct (players g) (currentPlayerIndex g) (length (players g));
  let g := set_currentPlayerIndex g i in
  let g := set_lastRaiserIndex g (-1) in
  processNextAction g.

(** [postBlinds]; [None] when a blind seat does not exist. *)
Definition postBlinds (g : t) : option t :=
  let sbIndex := seatMod g (dealerIndex g + 1) in
  let bbIndex := seatMod g (dealerIndex g + 2) in
  sbPlayer ← players g !! sbIndex;
  let '(sbPlayer, sbAmount) := Player.bet sbPlayer (smallBlind g) in
  let g := set_players g (<[sbIndex := sbPlayer]> (players g)) in
  bbPlayer ← players g !! bbIndex;
  let '(bbPlayer, bbAmount) := Player.bet bbPlayer (bigBlind g) in
  let g := set_players g (<[bbIndex := bbPlayer]> (players g)) in
  let g := set_currentBets g (<[Player.id sbPlayer := sbAmount]> (currentBets g)) in
  let g := set_currentBets g (<[Player.id bbPlayer := bbAmount]> (currentBets g)) in
  Some (set_currentBet g (bigBlind g)).

(** [dealHoleCards]: every player takes two cards off the deck, in seat
    order. *)
Fixpoint dealHoles (players : list Player.t) (deck : list Card.t)
  : list Player.t * list Card.t :=
  match players with
  | [] => ([], deck)
  | p :: rest =>
      let '(rest', deck') := dealHoles rest (drop 2 deck) in
      (Player.setHoleCards p (take 2 deck) :: rest', deck')
  end.

Definition dealHoleCards (g : t) : t :=
  let '(players', deck') := dealHoles (players g) (deck g) in
  set_deck (set_players g players') deck'.

(** [startNewHand]; [shuffled] is the deck left by [this.deck.reset()]. *)
Definition startNewHand (g : t) (shuffled : list Card.t) : option t :=
  let g := set_handNumber g (handNumber g + 1) in
  let g := set_deck g shuffled in
  let g := set_communityCards g [] in
  let g := set_pots g [] in
  let g := set_currentBet g 0 in
  let g := set_minRaise g (bigBlind g) in
  let g := set_currentBets g ∅ in
  let g := set_waitingForHumanAction g false in
  let g := set_players g (Player.reset <$> players g) in
  let g := set_currentBets g
             (foldl (λ bets player, <[Player.id player := 0]> bets) (currentBets g) (players g)) in
  let g := set_players g (filter (λ p, 0 < Player.stack p) (players g)) in
  if bool_decide (length (players g) < 2)%nat then Some (emit g GameOver)
  else
    let g := set_dealerIndex g (seatMod g (dealerIndex g + 1)) in
    g ← postBlinds g;
    let g := dealHoleCards g in
    let g := set_state g PRE_FLOP in
    startBettingRound g.

(** The loops that clear the has-acted flag of every other player. *)
Definition reopenRound (players : list Player.t) (playerId : Z) (acted : gmap Z bool)
  : gmap Z bool :=
  foldl (λ acted p, if bool_decide (Player.id p ≠ playerId)
                    then <[Player.id p := false]> acted else acted)
        acted players.

(** The [switch] of [processPlayerAction] for the player object at [seat].
    [contribution] is [this.currentBets[player.id]] read before the switch;
    where it is [undefined] and enters the arithmetic the result is [None]. *)
Definition applyAction (g : t) (seat : nat) (player : Player.t) (action : PlayerAction)
    (amount : Z) : option t :=
  let playerId := Player.id player in
  let contribution := currentBets g !! playerId in
  match action with
  | FOLD =>
      let player := Player.setLastAction (Player.setFolded player true) LastFold in
      Some (set_players g (<[seat := player]> (players g)))
  | CHECK =>
      let player := Player.setLastAction player LastCheck in
      Some (set_players g (<[seat := player]> (players g)))
  | CALL =>
      c ← contribution;
      let callAmount := currentBet g - c in
      let '(player, actualCall) := Player.bet player callAmount in
      let g := set_currentBets g (<[playerId := c + actualCall]> (currentBets g)) in
      let player := Player.setLastAction player (LastCall actualCall) in
      Some (set_players g (<[seat := player]> (players g)))
  | BET =>
      c ← contribution;
      let '(player, betAmount) := Player.bet player amount in
      let g := set_currentBets g (<[playerId := c + betAmount]> (currentBets g)) in
      let g := set_currentBet g (c + betAmount) in
      let g := set_minRaise g betAmount in
      let g := set_lastRaiserIndex g (Z.of_nat (currentPlayerIndex g)) in
      let player := Player.setLastAction player (LastBet betAmount) in
      let g := set_players g (<[seat := player]> (players g)) in
      Some (set_playersActedThisRound g
              (reopenRound (players g) playerId (playersActedThisRound g)))
  | RAISE =>
      c ← contribution;
      let callAmount := currentBet g - c in
      let '(player, raiseAmount) := Player.bet player amount in
      let g := set_currentBets g (<[playerId := c + raiseAmount]> (currentBets g)) in
      let g := set_currentBet g (c + raiseAmount) in
      let g := set_minRaise g (raiseAmount - callAmount) in
      let g := set_lastRaiserIndex g (Z.of_nat (currentPlayerIndex g)) in
      let player := Player.setLastAction player (LastRaiseTo (currentBet g)) in
      let g := set_players g (<[seat := player]> (players g)) in
      Some (set_playersActedThisRound g
              (reopenRound (players g) playerId (playersActedThisRound g)))
  | ALL_IN =>
      c ← contribution;
      let '(player, allInAmount) := Player.bet player (Player.stack player) in
      let g := set_currentBets g (<[playerId := c + allInAmount]> (currentBets g)) in
      let player := Player.setLastAction player LastAllIn in
      let g := set_players g (<[seat := player]> (players g)) in
      if c + allInAmount >? currentBet g then
        let g := set_currentBet g (c + allInAmount) in
        let g := set_lastRaiserIndex g (Z.of_nat (currentPlayerIndex g)) in
        Some (set_playersActedThisRound g
                (reopenRound (players g) playerId (playersActedThisRound g)))
      else Some g
  end.

(** [processPlayerAction(player, action, amount)] with [player] the object at
    [seat] of [this.players]; it ends by scheduling [processNextAction].
    The update of the adaptive bots' statistics touches no engine field. *)
Definition processPlayerAction (g : t) (seat : nat) (action : PlayerAction) (amount : Z)
  : option t :=
  player ← players g !! seat;
  let g := set_playersActedThisRound g
             (<[Player.id player := true]> (playersActedThisRound g)) in
  g ← applyAction g seat player action amount;
  let g := validateGameState g in
  Some (moveToNextPlayer g).

(** A timer fires.  [processBotAction] asks the bot's decision engine, whose
    answer is the input. *)
Definition fire (g : t) (input : Input) : option t :=
  match timer g with
  | None => Some g
  | Some cb =>
      let g := set_timer g None in
      match cb with
      | ProcessNextAction => processNextAction g
      | ProcessBotAction seat =>
          match input with
          | BotDecision action amount => processPlayerAction g seat action amount
          | _ => None
          end
      | StartBettingRound => startBettingRound g
      | CompleteHand => Some (completeHand g)
      | StartNewHand =>
          match input with
          | Shuffled cards => startNewHand g cards
          | _ => None
          end
      end
  end.

(** ** Human player actions ([this.players[0]] is the human seat) *)

Definition humanAllIn (g : t) : option t :=
  if negb (waitingForHumanAction g) then Some g
  else
    human ← players g !! 0%nat;
    let g := set_waitingForHumanAction g false in
    processPlayerAction g 0 ALL_IN (Player.stack human).

Definition humanFold (g : t) : option t :=
  if negb (waitingForHumanAction g) then Some g
  else
    human ← players g !! 0%nat;
    let g := set_waitingForHumanAction g false in
    processPlayerAction g 0 FOLD 0.

(** [callAmount > 0] is false when the contribution is [undefined]. *)
Definition humanCheck (g : t) : option t :=
  if negb (waitingForHumanAction g) then Some g
  else
    human ← players g !! 0%nat;
    let owes := match currentBets g !! Player.id human with
                | Some c => currentBet g - c >? 0
                | None => false
                end in
    if owes then Some g
    else
      let g := set_waitingForHumanAction g false in
      processPlayerAction g 0 CHECK 0.

(** [callAmount >= human.stack] is false when the contribution is
    [undefined]; the call that follows then leaves the integers. *)
Definition humanCall (g : t) : option t :=
  if negb (waitingForHumanAction g) then Some g
  else
    human ← players g !! 0%nat;
    c ← currentBets g !! Player.id human;
    let callAmount := currentBet g - c in
    if callAmount >=? Player.stack human then humanAllIn g
    else
      let g := set_waitingForHumanAction g false in
      processPlayerAction g 0 CALL callAmount.

Definition humanBet (g : t) (amount : Z) : option t :=
  if negb (waitingForHumanAction g) then Some g
  else
    human ← players g !! 0%nat;
    if amount >=? Player.stack human then humanAllIn g
    else
      let g := set_waitingForHumanAction g false in
      processPlayerAction g 0 BET amount.

Definition humanRaise (g : t) (amount : Z) : option t :=
  if negb (waitingForHumanAction g) then Some g
  else
    human ← players g !! 0%nat;
    if amount >=? Player.stack human then humanAllIn g
    else
      let g := set_waitingForHumanAction g false in
      processPlayerAction g 0 RAISE amount.

(** The constructor followed by [initializePlayers]: the human in seat 0 and
    five bots, 1000 chips each.  ([lastRaiserIndex] is unset until the first
    betting round and is never read; it starts at 0 here.  The deck that the
    constructor shuffles is replaced by [startNewHand] before a card is
    dealt; it starts empty here.) *)
Definition initial : t :=
  mk [Player.new 0 "You" 1000 true; Player.new 1 "Sarah" 1000 false;
      Player.new 2 "Mike" 1000 false; Player.new 3 "Emma" 1000 false;
      Player.new 4 "Jake" 1000 false; Player.new 5 "Alex" 1000 false]
     [] [] [] WAITING 0 0 0 0 5 10 0 false ∅ ∅ 0 [] None.

(** [getCurrentPotSize]: the pots plus the current bets. *)
Definition getCurrentPotSize (g : t) : Z :=
  foldl Z.add (PotManager.getTotalPot (pots g)) (objectValues (currentBets g)).

(** [getPlayerPosition(player)], with [playerIndex] the result of
    [this.players.indexOf(player)] (-1 when the object is not in the array). *)
Definition getPlayerPosition (g : t) (playerIndex : Z) : Position :=
  positionFromDealer playerIndex (Z.of_nat (dealerIndex g)) (Z.of_nat (length (players g))).

End TexasHoldemGame.

Module BotDecisionEngine.

Definition getPosition (seatIndex dealerIndex numPlayers : Z) : Position :=
  positionFromDealer seatIndex dealerIndex numPlayers.

End BotDecisionEngine.

(* ====================================================================== *)
(** * Definitions used to state the properties                             *)
(* ====================================================================== *)

(** The cards pushed by [Deck.reset] before the shuffle, suit by suit. *)
Definition freshDeck : list Card.t :=
  s ← [Spades; Hearts; Diamonds; Clubs];
  r ← [R2; R3; R4; R5; R6; R7; R8; R9; R10; RJ; RQ; RK; RA];
  [Card.mk s r].

(** The zero-padded values vector of a result, as a sequence. *)
Definition padded (h : Hand.t) (i : nat) : Z := HandEvaluator.valueAt (Hand.values h) i.

(** [k] is the first index at which two sequences differ. *)
Definition firstDiff (u v : nat → Z) (k : nat) : Prop :=
  (∀ j, (j < k)%nat → u j = v j) ∧ u k ≠ v k.

(** Ranking first, then the zero-padded values lexicographically: [a] is
    strictly greater than [b]. *)
Definition lexGreater (a b : Hand.t) : Prop :=
  Hand.ranking a > Hand.ranking b ∨
  (Hand.ranking a = Hand.ranking b ∧
   ∃ k, firstDiff (padded a) (padded b) k ∧ padded a k > padded b k).

(** Ranking and zero-padded values coincide. *)
Definition sameStrength (a b : Hand.t) : Prop :=
  Hand.ranking a = Hand.ranking b ∧ ∀ i, padded a i = padded b i.

(** Sum of the amounts of a list of operations. *)
Definition sumAmounts (ops : list Operation.t) : Z := sumZ (Operation.amount <$> ops).

(** Sum of the contributions held in a contributions map. *)
Definition sumContributions (currentBets : gmap Z Z) : Z := sumZ (objectValues currentBets).

(** Three results used to exercise the comparator. *)
Definition pairOfAcesKingKicker : Hand.t := Hand.mk HAND_RANKINGS.PAIR "Pair" [14; 13; 9; 4] [].
Definition pairOfAcesQueenKicker : Hand.t := Hand.mk HAND_RANKINGS.PAIR "Pair" [14; 12; 11; 10] [].
Definition aceHigh : Hand.t := Hand.mk HAND_RANKINGS.HIGH_CARD "High Card" [14; 13; 12; 11; 9] [].

(** The board and hole cards of the evaluator's tie example. *)
Definition sevenCards : list Card.t :=
  [Card.mk Clubs R2; Card.mk Clubs R3; Card.mk Spades RA; Card.mk Spades RK;
   Card.mk Spades RQ; Card.mk Spades RJ; Card.mk Diamonds R9].

(** [p]'s evaluation ties with [best]. *)
Definition tiesWith (handEvaluations : gmap Z Hand.t) (best : Hand.t) (p : Player.t) : bool :=
  match handEvaluations !! Player.id p with
  | Some h => HandEvaluator.compareHands h best =? 0
  | None => false
  end.

(** The players of [eligible] whose evaluation ties with [best], in
    iteration order. *)
Definition tiedWinners (handEvaluations : gmap Z Hand.t) (best : Hand.t)
    (eligible : list Player.t) : list Player.t :=
  filter (λ p, tiesWith handEvaluations best p = true) eligible.

(** [best] is the evaluation of one of [eligible] and no evaluation among
    them beats it. *)
Definition maximalAmong (handEvaluations : gmap Z Hand.t) (eligible : list Player.t)
    (best : Hand.t) : Prop :=
  (∃ p, p ∈ eligible ∧ handEvaluations !! Player.id p = Some best) ∧
  (∀ p h, p ∈ eligible → handEvaluations !! Player.id p = Some h →
          HandEvaluator.compareHands h best <= 0).

(** A pot split by integer division among [winners], the integer remainder
    going to the first of them. *)
Definition splitAmong (handEvaluations : gmap Z Hand.t) (amount : Z)
    (winners : list Player.t) : list Operation.t :=
  match winners with
  | [] => []
  | first :: others =>
      let n := Z.of_nat (length winners) in
      Operation.mk (Player.id first) (amount `div` n + amount `rem` n) Win
                   (handEvaluations !! Player.id first)
      :: ((λ w, Operation.mk (Player.id w) (amount `div` n) Win
                             (handEvaluations !! Player.id w)) <$> others)
  end.

(** Two seats for the pot examples: [seatP0] and [seatP1] have ids 0 and 1 and
    have not folded. *)
Definition seatP0 : Player.t := Player.new 0 "P0" 0 true.
Definition seatP1 : Player.t := Player.new 1 "P1" 0 false.

(** A big blind that folded after posting 10 against an all-in for 5. *)
Definition foldedBlind : Player.t := Player.setFolded (Player.new 0 "P0" 990 true) true.
Definition shortAllIn : Player.t := Player.setAllIn (Player.new 1 "P1" 0 false) true.

(** A third player who folded without contributing. *)
Definition foldedThird : Player.t := Player.setFolded (Player.new 2 "P2" 1000 false) true.

(** ** Driving the engine

    The outside world either lets the pending timer fire or calls one of the
    engine's entry points. *)
Inductive Step :=
| NewHand (shuffled : list Card.t)
| Fire (input : Input)
| HumanFold
| HumanCheck
| HumanCall
| HumanBet (amount : Z)
| HumanRaise (amount : Z)
| HumanAllIn.

Definition step (g : TexasHoldemGame.t) (s : Step) : option TexasHoldemGame.t :=
  match s with
  | NewHand shuffled => TexasHoldemGame.startNewHand g shuffled
  | Fire input => TexasHoldemGame.fire g input
  | HumanFold => TexasHoldemGame.humanFold g
  | HumanCheck => TexasHoldemGame.humanCheck g
  | HumanCall => TexasHoldemGame.humanCall g
  | HumanBet amount => TexasHoldemGame.humanBet g amount
  | HumanRaise amount => TexasHoldemGame.humanRaise g amount
  | HumanAllIn => TexasHoldemGame.humanAllIn g
  end.

Fixpoint run (g : TexasHoldemGame.t) (steps : list Step) : option TexasHoldemGame.t :=
  match steps with
  | [] => Some g
  | s :: rest => g' ← step g s; run g' rest
  end.

(** A bot acts: its timer fires with the decision, then the timer of
    [moveToNextPlayer] fires. *)
Definition bot (action : PlayerAction) (amount : Z) : list Step :=
  [Fire (BotDecision action amount); Fire NoInput].

(** The human acts, then the timer of [moveToNextPlayer] fires. *)
Definition human (s : Step) : list Step := [s; Fire NoInput].

(** First hand at a fresh table (dealer seat 1, blinds in seats 2 and 3):
    seat 4 folds, seats 5, 0, 1 and the small blind call, the big blind
    checks; the last timer closes the round and deals the flop. *)
Definition preflopWithOneFold : list Step :=
  [NewHand freshDeck] ++ bot FOLD 0 ++ bot CALL 0 ++ human HumanCall
  ++ bot CALL 0 ++ bot CALL 0 ++ bot CHECK 0.

(** One later street checked around by the five remaining players, from the
    timer that starts the round to the one that closes it (seat 4, folded,
    is passed over by a timer of its own). *)
Definition checkedAround : list Step :=
  [Fire NoInput] ++ bot CHECK 0 ++ bot CHECK 0 ++ [Fire NoInput] ++ bot CHECK 0
  ++ human HumanCheck ++ bot CHECK 0.

(** The same hand played to the showdown. *)
Definition handToShowdown : list Step :=
  preflopWithOneFold ++ checkedAround ++ checkedAround ++ checkedAround.

(** The state in which the human is first asked to act in that hand. *)
Definition humanToAct : option TexasHoldemGame.t :=
  run TexasHoldemGame.initial ([NewHand freshDeck] ++ bot FOLD 0 ++ bot CALL 0).

(** The state in which the big blind has just checked and the timer that
    will close the round is pending. *)
Definition beforeRoundCloses : option TexasHoldemGame.t :=
  run TexasHoldemGame.initial
      ([NewHand freshDeck] ++ bot FOLD 0 ++ bot CALL 0 ++ human HumanCall
       ++ bot CALL 0 ++ bot CALL 0 ++ [Fire (BotDecision CHECK 0)]).

(** [processNextAction] reports the round complete: its first new event is
    [bettingRoundComplete]. *)
Definition reportsComplete (g g' : TexasHoldemGame.t) : Prop :=
  ∃ pot later,
    TexasHoldemGame.events g' = TexasHoldemGame.events g ++ BettingRoundComplete pot :: later.




Definition humanToActState : TexasHoldemGame.t :=
  default TexasHoldemGame.initial humanToAct.

(** The player object in seat [i]. *)
Definition seatOf (g : TexasHoldemGame.t) (i : nat) : Player.t :=
  default seatP0 (TexasHoldemGame.players g !! i).

(** ** The pot ladder *)

(** [currentBets[player.id] || 0]. *)
Definition playerBet (bets : gmap Z Z) (p : Player.t) : Z :=
  default 0 (bets !! Player.id p).

(** What a player with contribution [b] adds to the pot at [level]. *)
Definition rung (previousLevel level b : Z) : Z :=
  if b >=? level then Z.min level b - previousLevel else 0.

(** What a player with contribution [b] adds along the ladder. *)
Fixpoint ladder (previousLevel : Z) (levels : list Z) (b : Z) : Z :=
  match levels with
  | [] => 0
  | level :: rest => rung previousLevel level b + ladder level rest b
  end.

(** ** Counting and card bookkeeping *)

(** The number of ways to choose [k] elements out of [n]. *)
Fixpoint binomial (n k : nat) {struct n} : nat :=
  match k, n with
  | O, _ => 1
  | S _, O => 0
  | S k', S n' => binomial n' k' + binomial n' k
  end.

(** The hole cards of all seats, in seat order. *)
Definition holeCardsOf (players : list Player.t) : list Card.t :=
  players ≫= Player.holeCards.

(** Every card the engine holds: hole cards, community cards and the rest
    of the deck. *)
Definition cardsHeld (g : TexasHoldemGame.t) : list Card.t :=
  holeCardsOf (TexasHoldemGame.players g) ++ TexasHoldemGame.communityCards g
  ++ TexasHoldemGame.deck g.


(** ** More states of the first hand *)

(** Everybody moves all-in before the flop; the last timer closes the round
    and deals the flop. *)
Definition everyoneAllIn : list Step :=
  [NewHand freshDeck] ++ bot ALL_IN 0 ++ bot ALL_IN 0 ++ human HumanAllIn
  ++ bot ALL_IN 0 ++ bot ALL_IN 0 ++ bot ALL_IN 0.

(** The state in which the timer that starts the flop round is pending and
    nobody has chips left. *)
Definition allInBeforeFlop : TexasHoldemGame.t :=
  default TexasHoldemGame.initial (run TexasHoldemGame.initial everyoneAllIn).

(** The state in which the flop has been dealt after the pre-flop round with
    one fold. *)
Definition flopDealt : TexasHoldemGame.t :=
  default TexasHoldemGame.initial (run TexasHoldemGame.initial preflopWithOneFold).

(** The state in which the last player has checked on the river and the
    timer that will close the round is pending. *)
Definition beforeRiverCloses : TexasHoldemGame.t :=
  default TexasHoldemGame.initial
    (run TexasHoldemGame.initial
         (preflopWithOneFold ++ checkedAround ++ checkedAround
          ++ [Fire NoInput] ++ bot CHECK 0 ++ bot CHECK 0 ++ [Fire NoInput] ++ bot CHECK 0
          ++ human HumanCheck ++ [Fire (BotDecision CHECK 0)])).

(** The state in which the big blind has just checked before the flop. *)
Definition beforeRoundClosesState : TexasHoldemGame.t :=
  default TexasHoldemGame.initial beforeRoundCloses.

(** Everybody folds to the big blind; the timer that will find a single
    player left is pending. *)
Definition foldedToBigBlind : TexasHoldemGame.t :=
  default TexasHoldemGame.initial
    (run TexasHoldemGame.initial
         ([NewHand freshDeck] ++ bot FOLD 0 ++ bot FOLD 0 ++ human HumanFold
          ++ bot FOLD 0 ++ [Fire (BotDecision FOLD 0)])).

(** The state handed to [processNextAction] by [startBettingRound] when the
    round opens with seat [i]: the has-acted flags cleared, the table-high bet
    cleared after the flop. *)
Definition roundOpenedAt (g : TexasHoldemGame.t) (i : nat) : TexasHoldemGame.t :=
  TexasHoldemGame.set_lastRaiserIndex
    (TexasHoldemGame.set_currentPlayerIndex
       (TexasHoldemGame.set_currentBet
          (TexasHoldemGame.set_playersActedThisRound g
             (foldl (λ acted player, <[Player.id player := false]> acted) ∅
                    (TexasHoldemGame.players g)))
          (if bool_decide (TexasHoldemGame.state g = PRE_FLOP)
           then TexasHoldemGame.currentBet g else 0))
       i)
    (-1).

(** The state handed to [processNextAction] when the timer fires after the
    first player of the hand has folded. *)
Definition afterFirstFold : TexasHoldemGame.t :=
  TexasHoldemGame.set_timer
    (default TexasHoldemGame.initial
       (run TexasHoldemGame.initial [NewHand freshDeck; Fire (BotDecision FOLD 0)]))
    None.


(** ** The odd chip *)

(** A six-seat table at the river, set up the way the repository's tests set
    one up: seats 0 and 4 have put in 50 each and are still in the hand, seat
    5 has put in 1 and folded, seats 1, 2 and 3 have folded without putting
    anything in.  With the board below the hands of seats 0 and 4 tie (ace
    high, king, queen, jack, nine). *)
Definition oddChipSeats : list Player.t :=
  [Player.mk 0 "You" 950 true [Card.mk Clubs R2; Card.mk Clubs R3] 50 50 false false true None;
   Player.mk 1 "Sarah" 1000 false [Card.mk Clubs R4; Card.mk Clubs R5] 0 0 true false true None;
   Player.mk 2 "Mike" 1000 false [Card.mk Clubs R6; Card.mk Clubs R7] 0 0 true false true None;
   Player.mk 3 "Emma" 1000 false [Card.mk Hearts R4; Card.mk Hearts R5] 0 0 true false true None;
   Player.mk 4 "Jake" 950 false [Card.mk Diamonds R2; Card.mk Diamonds R3] 50 50 false false true None;
   Player.mk 5 "Alex" 999 false [Card.mk Hearts R6; Card.mk Hearts R7] 1 1 true false true None].

Definition oddChipBets : gmap Z Z := {[ 0 := 50; 4 := 50; 5 := 1 ]}.

(** The table with the dealer button at seat [dealerIndex]. *)
Definition oddChipTable (dealerIndex : nat) : TexasHoldemGame.t :=
  TexasHoldemGame.mk oddChipSeats []
    [Card.mk Spades RA; Card.mk Spades RK; Card.mk Spades RQ; Card.mk Spades RJ;
     Card.mk Diamonds R9]
    [] RIVER dealerIndex 0 50 10 5 10 1 false oddChipBets ∅ 0 [] None.

(** Who is paid how much, in the order of the operations. *)
Definition payouts (operations : list Operation.t) : list (Z * Z) :=
  (λ op, (Operation.playerId op, Operation.amount op)) <$> operations.
(* ====================================================================== *)
(** * Facts about the helpers                                              *)
(* ====================================================================== *)

Section Helpers.

Lemma foldl_add_acc (l : list Z) (a : Z) : foldl Z.add a l = a + sumZ l.
Proof.
  unfold sumZ. revert a. induction l as [|x l IH]; intros a; simpl; [lia|].
  rewrite (IH (a + x)), (IH (0 + x)). lia.
Qed.

Lemma sumZ_nil : sumZ [] = 0.
Proof. reflexivity. Qed.

Lemma sumZ_cons (x : Z) (l : list Z) : sumZ (x :: l) = x + sumZ l.
Proof. unfold sumZ at 1. simpl. rewrite foldl_add_acc. lia. Qed.

Lemma sumZ_app (l1 l2 : list Z) : sumZ (l1 ++ l2) = sumZ l1 + sumZ l2.
Proof.
  induction l1 as [|x l1 IH]; simpl; [rewrite sumZ_nil; lia|].
  rewrite !sumZ_cons, IH. lia.
Qed.

Lemma insertBy_not_nil {A} (cmp : A → A → Z) (x : A) (l : list A) : insertBy cmp x l ≠ [].
Proof. destruct l as [|y l]; simpl; [done|]. destruct (cmp x y <=? 0); done. Qed.

Lemma sortBy_nil_inv {A} (cmp : A → A → Z) (l : list A) : sortBy cmp l = [] → l = [].
Proof.
  destruct l as [|x l]; [done|]. unfold sortBy. simpl. intros H.
  by apply insertBy_not_nil in H.
Qed.

End Helpers.

(* ====================================================================== *)
(** * The comparator                                                       *)
(* ====================================================================== *)

Section Comparator.

Import HandEvaluator.

Lemma valueAt_ge (values : list Z) (i : nat) :
  (length values ≤ i)%nat → valueAt values i = 0.
Proof. intros H. unfold valueAt. by rewrite lookup_ge_None_2. Qed.

(** What the kicker loop returns: 0 when the [n] compared positions agree,
    otherwise the difference at the first position that differs. *)
Lemma compareValues_cases (v1 v2 : list Z) (i n : nat) :
  (compareValues v1 v2 i n = 0 ∧
   ∀ j, (j < n)%nat → valueAt v1 (i + j) = valueAt v2 (i + j)) ∨
  (∃ k, (k < n)%nat ∧
        (∀ j, (j < k)%nat → valueAt v1 (i + j) = valueAt v2 (i + j)) ∧
        valueAt v1 (i + k) ≠ valueAt v2 (i + k) ∧
        compareValues v1 v2 i n = valueAt v1 (i + k) - valueAt v2 (i + k)).
Proof.
  revert i. induction n as [|n IH]; intros i; simpl.
  - left. split; [done|]. intros j Hj. lia.
  - case_bool_decide as Hd.
    + right. exists 0%nat. rewrite Nat.add_0_r. repeat split; [lia| |done].
      intros j Hj. lia.
    + destruct (IH (S i)) as [[H0 Heq]|(k & Hk & Heq & Hne & Hr)].
      * left. split; [done|]. intros [|j] Hj; [by rewrite Nat.add_0_r|].
        replace (i + S j)%nat with (S i + j)%nat by lia. apply Heq. lia.
      * right. exists (S k). replace (i + S k)%nat with (S i + k)%nat by lia.
        repeat split; [lia| |done|done].
        intros [|j] Hj; [by rewrite Nat.add_0_r|].
        replace (i + S j)%nat with (S i + j)%nat by lia. apply Heq. lia.
Qed.

Lemma firstDiff_unique (u v : nat → Z) (k1 k2 : nat) :
  firstDiff u v k1 → firstDiff u v k2 → k1 = k2.
Proof.
  intros [H1 N1] [H2 N2].
  destruct (lt_eq_lt_dec k1 k2) as [[Hlt|Heq]|Hgt]; [|done|].
  - by specialize (H2 _ Hlt).
  - by specialize (H1 _ Hgt).
Qed.

(** The three outcomes of [compareHands]. *)
Lemma compareHands_cases (a b : Hand.t) :
  (Hand.ranking a ≠ Hand.ranking b ∧ compareHands a b = Hand.ranking a - Hand.ranking b) ∨
  (sameStrength a b ∧ compareHands a b = 0) ∨
  (Hand.ranking a = Hand.ranking b ∧
   ∃ k, firstDiff (padded a) (padded b) k ∧ compareHands a b = padded a k - padded b k).
Proof.
  unfold compareHands. case_bool_decide as Hr; [by left|]. right.
  set (n := Nat.max _ _).
  destruct (compareValues_cases (Hand.values a) (Hand.values b) 0 n)
    as [[H0 Heq]|(k & Hk & Heq & Hne & Hres)].
  - left. split; [|done]. split; [done|]. intros i. unfold padded.
    destruct (decide (i < n)%nat) as [Hi|Hi]; [by apply (Heq i)|].
    rewrite !valueAt_ge; [done|unfold n in Hi; lia..].
  - right. split; [done|]. exists k. by repeat split.
Qed.

Lemma compareHands_zero_iff (a b : Hand.t) : compareHands a b = 0 ↔ sameStrength a b.
Proof.
  destruct (compareHands_cases a b) as [[Hr Hc]|[[Hs Hc]|(Hr & k & [Hk Hne] & Hc)]].
  - split; [lia|]. intros [? _]. done.
  - done.
  - split; [lia|]. intros [_ Heq]. by specialize (Heq k).
Qed.

Lemma compareHands_pos_iff (a b : Hand.t) : compareHands a b > 0 ↔ lexGreater a b.
Proof.
  unfold lexGreater.
  destruct (compareHands_cases a b) as [[Hr Hc]|[[[Hs Heq] Hc]|(Hr & k & Hk & Hc)]].
  - split; [intros; left; lia|]. intros [?|[? _]]; [lia|done].
  - split; [lia|]. intros [?|(_ & k & [_ Hne] & _)]; [lia|]. by specialize (Heq k).
  - split.
    + intros Hpos. right. split; [done|]. exists k. split; [done|lia].
    + intros [?|(_ & k' & Hk' & Hgt)]; [lia|].
      rewrite <- (firstDiff_unique _ _ _ _ Hk Hk') in Hgt. lia.
Qed.

Lemma firstDiff_sym (u v : nat → Z) (k : nat) : firstDiff u v k → firstDiff v u k.
Proof. intros [H N]. split; [|done]. intros j Hj. symmetry. by apply H. Qed.

Lemma sameStrength_sym (a b : Hand.t) : sameStrength a b → sameStrength b a.
Proof. intros [H1 H2]. split; [done|]. intros i. by rewrite H2. Qed.

Lemma compareHands_antisym (a b : Hand.t) : compareHands b a = - compareHands a b.
Proof.
  destruct (compareHands_cases a b) as [[Hr Hc]|[[Hs Hc]|(Hr & k & Hk & Hc)]];
  destruct (compareHands_cases b a) as [[Hr' Hc']|[[Hs' Hc']|(Hr' & k' & Hk' & Hc')]];
    try lia; try (destruct Hs; congruence); try (destruct Hs'; congruence).
  - destruct Hs as [_ Heq], Hk' as [_ Hne]. by specialize (Heq k').
  - destruct Hs' as [_ Heq], Hk as [_ Hne]. by specialize (Heq k).
  - rewrite (firstDiff_unique _ _ _ _ Hk (firstDiff_sym _ _ _ Hk')) in Hc. lia.
Qed.

Lemma lexGreater_trans (a b c : Hand.t) : lexGreater a b → lexGreater b c → lexGreater a c.
Proof.
  intros [H1|(R1 & k1 & [E1 N1] & G1)] [H2|(R2 & k2 & [E2 N2] & G2)];
    [left; lia..|].
  right. split; [congruence|]. unfold firstDiff.
  destruct (lt_eq_lt_dec k1 k2) as [[Hlt|Heq]|Hgt].
  - exists k1. rewrite <- (E2 k1 Hlt). repeat split; [|lia|lia].
    intros j Hj. rewrite (E1 j Hj). apply E2. lia.
  - subst k2. exists k1. repeat split; [|lia|lia].
    intros j Hj. rewrite (E1 j Hj). by apply E2.
  - exists k2. rewrite (E1 k2 Hgt). repeat split; [|lia|lia].
    intros j Hj. rewrite <- (E2 j Hj). apply E1. lia.
Qed.

(** Results of the same strength are interchangeable on either side. *)
Lemma compareHands_same_l (a b c : Hand.t) :
  sameStrength a b → compareHands a c = compareHands b c.
Proof.
  intros [Hr Heq].
  assert (Hfd : ∀ k, firstDiff (padded a) (padded c) k ↔ firstDiff (padded b) (padded c) k).
  { intros k. unfold firstDiff. rewrite Heq. split; intros [H N]; (split; [|done]);
      intros j Hj; [rewrite <- Heq|rewrite Heq]; by apply H. }
  destruct (compareHands_cases a c) as [[Hr1 Hc1]|[[[Hs1 He1] Hc1]|(Hr1 & k1 & Hk1 & Hc1)]];
  destruct (compareHands_cases b c) as [[Hr2 Hc2]|[[[Hs2 He2] Hc2]|(Hr2 & k2 & Hk2 & Hc2)]];
    try lia; try congruence.
  - destruct Hk2 as [_ N]. exfalso. apply N. by rewrite <- Heq, He1.
  - destruct Hk1 as [_ N]. exfalso. apply N. by rewrite Heq, He2.
  - apply Hfd in Hk1. rewrite (firstDiff_unique _ _ _ _ Hk1 Hk2), Heq in Hc1. lia.
Qed.

Lemma compareHands_same_r (a b c : Hand.t) :
  sameStrength a b → compareHands c a = compareHands c b.
Proof.
  intros H. rewrite (compareHands_antisym a c), (compareHands_antisym b c).
  by rewrite (compareHands_same_l a b c).
Qed.

Lemma compareHands_trans_gt (a b c : Hand.t) :
  compareHands a b > 0 → compareHands b c > 0 → compareHands a c > 0.
Proof. rewrite !compareHands_pos_iff. apply lexGreater_trans. Qed.

Lemma compareHands_trans_ge_gt (a b c : Hand.t) :
  compareHands a b >= 0 → compareHands b c > 0 → compareHands a c > 0.
Proof.
  intros H1 H2. destruct (decide (compareHands a b = 0)) as [H0|H0].
  - apply compareHands_zero_iff in H0. by rewrite (compareHands_same_l a b c).
  - apply (compareHands_trans_gt a b c); [lia|done].
Qed.

Lemma compareHands_trans_gt_ge (a b c : Hand.t) :
  compareHands a b > 0 → compareHands b c >= 0 → compareHands a c > 0.
Proof.
  intros H1 H2. destruct (decide (compareHands b c = 0)) as [H0|H0].
  - apply compareHands_zero_iff in H0. by rewrite <- (compareHands_same_r b c a).
  - apply (compareHands_trans_gt a b c); [done|lia].
Qed.

Lemma compareHands_trans_ge (a b c : Hand.t) :
  compareHands a b >= 0 → compareHands b c >= 0 → compareHands a c >= 0.
Proof.
  intros H1 H2. destruct (decide (compareHands a b = 0)) as [H0|H0].
  - apply compareHands_zero_iff in H0. by rewrite (compareHands_same_l a b c).
  - assert (compareHands a c > 0); [|lia].
    apply (compareHands_trans_gt_ge a b c); [lia|done].
Qed.

Lemma compareHands_trans_eq (a b c : Hand.t) :
  compareHands a b = 0 → compareHands b c = 0 → compareHands a c = 0.
Proof.
  intros H1 H2. apply compareHands_zero_iff in H1. by rewrite (compareHands_same_l a b c).
Qed.

End Comparator.

Section ComparatorOrder.

Import HandEvaluator.

(** C8.  [compareHands] orders hand-evaluation results by ranking first and
    then by the zero-padded values vectors, lexicographically:
    - swapping the arguments negates the result, so exactly one of greater,
      less and equal holds for any two results;
    - the result is positive exactly when the first argument is
      lexicographically greater, negative exactly when the second is, and 0
      exactly when ranking and zero-padded values coincide;
    - the strict order, the weak order and the tie are transitive. *)
Theorem compareHands_total_order :
  (∀ a b, compareHands b a = - compareHands a b) ∧
  (∀ a b, (compareHands a b > 0 ∧ compareHands b a < 0) ∨
          (compareHands a b < 0 ∧ compareHands b a > 0) ∨
          (compareHands a b = 0 ∧ compareHands b a = 0)) ∧
  (∀ a b, compareHands a b > 0 ↔ lexGreater a b) ∧
  (∀ a b, compareHands a b < 0 ↔ lexGreater b a) ∧
  (∀ a b, compareHands a b = 0 ↔ sameStrength a b) ∧
  (∀ a b c, compareHands a b > 0 → compareHands b c > 0 → compareHands a c > 0) ∧
  (∀ a b c, compareHands a b >= 0 → compareHands b c >= 0 → compareHands a c >= 0) ∧
  (∀ a b c, compareHands a b = 0 → compareHands b c = 0 → compareHands a c = 0).
Proof.
  split; [exact compareHands_antisym|].
  split; [intros a b; rewrite (compareHands_antisym a b); lia|].
  split; [exact compareHands_pos_iff|].
  split.
  { intros a b. rewrite <- compareHands_pos_iff, (compareHands_antisym a b). lia. }
  split; [exact compareHands_zero_iff|].
  split; [exact compareHands_trans_gt|].
  split; [exact compareHands_trans_ge|exact compareHands_trans_eq].
Qed.

Lemma compareHands_total_order_witness :
  compareHands pairOfAcesKingKicker pairOfAcesQueenKicker > 0 ∧
  compareHands pairOfAcesQueenKicker aceHigh > 0 ∧
  compareHands pairOfAcesKingKicker aceHigh > 0.
Proof.
  destruct compareHands_total_order as (_ & _ & _ & _ & _ & Htrans & _).
  assert (H1 : compareHands pairOfAcesKingKicker pairOfAcesQueenKicker > 0) by reflexivity.
  assert (H2 : compareHands pairOfAcesQueenKicker aceHigh > 0) by reflexivity.
  split; [exact H1|]. split; [exact H2|].
  exact (Htrans _ _ _ H1 H2).
Defined.

End ComparatorOrder.

(* ====================================================================== *)
(** * The worked examples of the evaluator and of the pot ladder          *)
(* ====================================================================== *)

Section Examples.

Import HandEvaluator PotManager.

Example wheel_straight_flush :
  let c := λ r, Card.mk Hearts r in
  (λ h, (Hand.ranking h, Hand.values h)) <$> evaluate5Cards [c RA; c R5; c R4; c R3; c R2]
  = Some (HAND_RANKINGS.STRAIGHT_FLUSH, [5]).
Proof. vm_compute. reflexivity. Qed.

Example board_plays_for_both :
  let board := [Card.mk Spades RA; Card.mk Spades RK; Card.mk Spades RQ;
                Card.mk Spades RJ; Card.mk Diamonds R9] in
  match evaluateHand ([Card.mk Clubs R2; Card.mk Clubs R3] ++ board),
        evaluateHand ([Card.mk Clubs R4; Card.mk Clubs R5] ++ board) with
  | Some (Some h1), Some (Some h2) =>
      Hand.ranking h1 = HAND_RANKINGS.HIGH_CARD ∧ Hand.values h1 = [14; 13; 12; 11; 9] ∧
      compareHands h1 h2 = 0
  | _, _ => False
  end.
Proof. vm_compute. repeat split; reflexivity. Qed.

Example three_level_ladder :
  createPots [seatP0; seatP1; Player.new 2 "P2" 0 false] {[ 0 := 200; 1 := 50; 2 := 100 ]}
  = [Pot.mk 150 [0; 1; 2]; Pot.mk 100 [0; 2]; Pot.mk 100 [0]].
Proof. vm_compute. reflexivity. Qed.

End Examples.

(* ====================================================================== *)
(** * Best five of six or seven cards                                      *)
(* ====================================================================== *)

Section BestHand.

Import HandEvaluator.

(** [combine] lists the extensions of [combo] to [size] elements by a
    subsequence of [rest]. *)
Lemma elem_of_combine {A} (size : nat) (rest combo c : list A) :
  (length combo ≤ size)%nat →
  c ∈ combine size rest combo ↔
  ∃ s, s `sublist_of` rest ∧ c = combo ++ s ∧ length c = size.
Proof.
  revert combo. induction rest as [|x rest IH]; intros combo Hle; simpl.
  - destruct (Nat.eqb_spec (length combo) size) as [Heq|Hne].
    + rewrite list_elem_of_singleton. split.
      * intros ->. exists []. by rewrite app_nil_r.
      * intros (s & ->%sublist_nil_r & -> & _). by rewrite app_nil_r.
    + split; [by intros ?%elem_of_nil|].
      intros (s & ->%sublist_nil_r & -> & Hlen). rewrite app_nil_r in Hlen. done.
  - destruct (Nat.eqb_spec (length combo) size) as [Heq|Hne].
    + rewrite list_elem_of_singleton. split.
      * intros ->. exists []. rewrite app_nil_r. split; [apply sublist_nil_l|done].
      * intros (s & _ & -> & Hlen). rewrite length_app in Hlen.
        assert (length s = 0)%nat as ->%nil_length_inv by lia. by rewrite app_nil_r.
    + rewrite elem_of_app, !IH; [|lia|rewrite length_app; simpl; lia]. split.
      * intros [(s & Hs & -> & Hlen)|(s & Hs & -> & Hlen)].
        -- exists (x :: s). rewrite <- app_assoc in *. split; [by apply sublist_skip|done].
        -- exists s. split; [by apply sublist_cons|done].
      * intros (s & [Hs|(s' & -> & Hs)]%sublist_cons_r & -> & Hlen).
        -- right. by exists s.
        -- left. exists s'. by rewrite <- app_assoc.
Qed.

(** [getCombinations arr size] is the list of the subsequences of [arr] of
    length [size]. *)
Lemma elem_of_getCombinations {A} (arr c : list A) (size : nat) :
  c ∈ getCombinations arr size ↔ c `sublist_of` arr ∧ length c = size.
Proof.
  unfold getCombinations. rewrite elem_of_combine; [|simpl; lia]. split.
  - intros (s & Hs & -> & Hlen). done.
  - intros [Hs Hlen]. by exists c.
Qed.

(** [evaluate5Cards] throws on the empty array only. *)
Lemma evaluate5Cards_is_Some (cards : list Card.t) :
  cards ≠ [] → is_Some (evaluate5Cards cards).
Proof.
  intros Hne. unfold evaluate5Cards.
  destruct (sortBy _ cards) as [|c0 sorted] eqn:Hs.
  - by apply sortBy_nil_inv in Hs.
  - simpl. eauto.
Qed.

(** The loop keeps a result that is at least as strong as the initial
    [bestHand] and as every evaluation it has seen, and that is one of them. *)
Lemma bestHandLoop_spec (combinations : list (list Card.t)) (bestHand : option Hand.t) :
  Forall (λ combo, combo ≠ []) combinations →
  ∃ result, bestHandLoop combinations bestHand = Some result ∧
    (combinations = [] → result = bestHand) ∧
    (∀ best, result = Some best →
       (bestHand = Some best ∨
        ∃ combo, combo ∈ combinations ∧ evaluate5Cards combo = Some best) ∧
       (∀ b0, bestHand = Some b0 → compareHands best b0 >= 0) ∧
       (∀ combo, combo ∈ combinations →
          ∃ h, evaluate5Cards combo = Some h ∧ compareHands best h >= 0)) ∧
    (result = None → bestHand = None ∧ combinations = []).
Proof.
  intros Hall. revert bestHand.
  induction Hall as [|combo rest Hne Hall IH]; intros bestHand; simpl.
  - exists bestHand. split; [done|]. split; [done|]. split; [|done].
    intros best ->. split; [by left|]. split.
    + intros b0 [= ->].
      assert (H0 : compareHands b0 b0 = 0) by (apply compareHands_zero_iff; by split).
      lia.
    + by intros combo ?%elem_of_nil.
  - destruct (evaluate5Cards_is_Some combo Hne) as [hand Hhand]. rewrite Hhand. simpl.
    assert (Hrefl : compareHands hand hand >= 0).
    { assert (H0 : compareHands hand hand = 0) by (apply compareHands_zero_iff; by split).
      lia. }
    destruct bestHand as [b0|].
    + destruct (Z.gtb_spec (compareHands hand b0) 0) as [Hgt|Hle].
      * destruct (IH (Some hand)) as (result & Hres & _ & Hsome & Hnone).
        exists result. split; [done|]. split; [done|]. split.
        -- intros best Hbest. destruct (Hsome best Hbest) as (Hfrom & Hge & Hmax).
           specialize (Hge hand eq_refl). split; [|split].
           ++ right. destruct Hfrom as [[= ->]|(c & Hc & Hev)].
              ** exists combo. split; [apply list_elem_of_here|done].
              ** exists c. split; [by apply list_elem_of_further|done].
           ++ intros ? [= <-]. apply (compareHands_trans_ge best hand b0); lia.
           ++ intros c [->|Hc]%elem_of_cons; [by exists hand|by apply Hmax].
        -- intros Hn. by destruct (Hnone Hn).
      * destruct (IH (Some b0)) as (result & Hres & _ & Hsome & Hnone).
        exists result. split; [done|]. split; [done|]. split.
        -- intros best Hbest. destruct (Hsome best Hbest) as (Hfrom & Hge & Hmax).
           specialize (Hge b0 eq_refl). split; [|split].
           ++ destruct Hfrom as [?|(c & Hc & Hev)]; [by left|].
              right. exists c. split; [by apply list_elem_of_further|done].
           ++ by intros ? [= <-].
           ++ intros c [->|Hc]%elem_of_cons; [|by apply Hmax].
              exists hand. split; [done|].
              apply (compareHands_trans_ge best b0 hand); [done|].
              rewrite (compareHands_antisym hand b0). lia.
        -- intros Hn. by destruct (Hnone Hn).
    + destruct (IH (Some hand)) as (result & Hres & _ & Hsome & Hnone).
      exists result. split; [done|]. split; [done|]. split.
      * intros best Hbest. destruct (Hsome best Hbest) as (Hfrom & Hge & Hmax).
        specialize (Hge hand eq_refl). split; [|split].
        -- right. destruct Hfrom as [[= ->]|(c & Hc & Hev)].
           ++ exists combo. split; [apply list_elem_of_here|done].
           ++ exists c. split; [by apply list_elem_of_further|done].
        -- done.
        -- intros c [->|Hc]%elem_of_cons; [by exists hand|by apply Hmax].
      * intros Hn. by destruct (Hnone Hn).
Qed.

(** C7.  For exactly six or exactly seven cards, [evaluateHand] returns the
    evaluation of some five-card subset of the input, and that result compares
    greater than or equal to the evaluation of every five-card subset. *)
Theorem evaluateHand_best_of_subsets (cards : list Card.t) :
  length cards = 6%nat ∨ length cards = 7%nat →
  ∃ best, evaluateHand cards = Some (Some best) ∧
    (∃ combo, combo `sublist_of` cards ∧ length combo = 5%nat ∧
              evaluate5Cards combo = Some best) ∧
    (∀ combo, combo `sublist_of` cards → length combo = 5%nat →
       ∃ h, evaluate5Cards combo = Some h ∧ compareHands best h >= 0).
Proof.
  intros Hlen.
  assert (Heval : evaluateHand cards = bestHandLoop (getCombinations cards 5) None).
  { unfold evaluateHand, findBest5CardHand. by destruct Hlen as [-> | ->]. }
  assert (Hall : Forall (λ combo : list Card.t, combo ≠ []) (getCombinations cards 5)).
  { apply Forall_forall. intros c [_ Hc]%elem_of_getCombinations. by destruct c. }
  destruct (bestHandLoop_spec _ None Hall) as (result & Hres & _ & Hsome & Hnone).
  destruct result as [best|].
  - exists best. rewrite Heval. split; [done|].
    destruct (Hsome best eq_refl) as ([?|(c & Hc & Hev)] & _ & Hmax); [done|].
    apply elem_of_getCombinations in Hc as [Hsub Hc5]. split.
    + by exists c.
    + intros combo Hsub' Hlen'. apply Hmax. by apply elem_of_getCombinations.
  - destruct (Hnone eq_refl) as [_ Hempty].
    assert (Hin : take 5 cards ∈ getCombinations cards 5).
    { apply elem_of_getCombinations. split; [apply sublist_take|].
      rewrite length_take. lia. }
    rewrite Hempty in Hin. by apply elem_of_nil in Hin.
Qed.

Lemma evaluateHand_best_of_subsets_witness :
  length sevenCards = 7%nat ∧
  ∃ best, evaluateHand sevenCards = Some (Some best) ∧
    (∃ combo, combo `sublist_of` sevenCards ∧ length combo = 5%nat ∧
              evaluate5Cards combo = Some best) ∧
    (∀ combo, combo `sublist_of` sevenCards → length combo = 5%nat →
       ∃ h, evaluate5Cards combo = Some h ∧ compareHands best h >= 0).
Proof.
  split; [reflexivity|].
  apply (evaluateHand_best_of_subsets sevenCards). right. reflexivity.
Defined.

End BestHand.

(* ====================================================================== *)
(** * Distribution of pots                                                 *)
(* ====================================================================== *)

Section Distribution.

Import HandEvaluator PotManager.

Lemma compareHands_refl (h : Hand.t) : compareHands h h = 0.
Proof. apply compareHands_zero_iff. by split. Qed.

Lemma tiesWith_true (hands : gmap Z Hand.t) (best h : Hand.t) (p : Player.t) :
  hands !! Player.id p = Some h → tiesWith hands best p = true ↔ compareHands h best = 0.
Proof. intros Hh. unfold tiesWith. rewrite Hh. apply Z.eqb_eq. Qed.

Lemma tiedWinners_cons (hands : gmap Z Hand.t) (best h : Hand.t) (p : Player.t)
    (rest : list Player.t) :
  hands !! Player.id p = Some h →
  tiedWinners hands best (p :: rest) =
  if bool_decide (compareHands h best = 0)
  then p :: tiedWinners hands best rest else tiedWinners hands best rest.
Proof.
  intros Hh. unfold tiedWinners. rewrite filter_cons.
  pose proof (tiesWith_true hands best h p Hh) as Hiff.
  case_decide as Ht; case_bool_decide as Hc; [done|by apply Hiff in Ht|by apply Hiff in Hc|done].
Qed.

(** The invariant of the winner search once a best hand is held: either the
    best hand is unchanged and the ties met on the way were appended, or a
    strictly better hand took over and the winners are exactly its ties. *)
Lemma findWinners_from_best (hands : gmap Z Hand.t) (rest : list Player.t) :
  (∀ p, p ∈ rest → is_Some (hands !! Player.id p)) →
  ∀ (best : Hand.t) (winners : list Player.t) (compared : nat),
  ∃ best' winners',
    findWinners hands rest (Some best) winners compared
      = Some (winners', (compared + length rest)%nat) ∧
    (∀ p h, p ∈ rest → hands !! Player.id p = Some h → compareHands h best' <= 0) ∧
    ((best' = best ∧ winners' = winners ++ tiedWinners hands best rest) ∨
     (compareHands best' best > 0 ∧
      (∃ p, p ∈ rest ∧ hands !! Player.id p = Some best') ∧
      winners' = tiedWinners hands best' rest)).
Proof.
  induction rest as [|p rest IH]; intros Hhands best winners compared.
  - exists best, winners. simpl. rewrite Nat.add_0_r, app_nil_r.
    split; [done|]. split; [by intros ? ? ?%elem_of_nil|]. by left.
  - destruct (Hhands p) as [h Hh]; [apply list_elem_of_here|].
    assert (Hrest : ∀ q, q ∈ rest → is_Some (hands !! Player.id q)).
    { intros q Hq. apply Hhands. by apply list_elem_of_further. }
    simpl. rewrite Hh. simpl.
    replace (compared + S (length rest))%nat with (S compared + length rest)%nat by lia.
    destruct (Z.gtb_spec (compareHands h best) 0) as [Hgt|Hle].
    + destruct (IH Hrest h [p] (S compared)) as (best' & winners' & Hrun & Hmax & Hcase).
      exists best', winners'. split; [done|].
      assert (Hge : compareHands best' h >= 0).
      { destruct Hcase as [[-> _]|[? _]]; [rewrite compareHands_refl|]; lia. }
      split.
      * intros q hq [->|Hq]%elem_of_cons Hhq; [|by eapply Hmax].
        rewrite Hh in Hhq. injection Hhq as <-.
        rewrite (compareHands_antisym best' h). lia.
      * right. split; [apply (compareHands_trans_ge_gt best' h best); lia|].
        destruct Hcase as [[-> ->]|(Hgt' & (q & Hq & Hhq) & ->)].
        -- split; [exists p; split; [apply list_elem_of_here|done]|].
           rewrite (tiedWinners_cons _ _ h) by done.
           rewrite bool_decide_eq_true_2 by apply compareHands_refl. done.
        -- split; [exists q; split; [by apply list_elem_of_further|done]|].
           rewrite (tiedWinners_cons _ _ h) by done.
           rewrite bool_decide_eq_false_2; [done|].
           rewrite (compareHands_antisym best' h). lia.
    + destruct (Z.eqb_spec (compareHands h best) 0) as [Heq|Hne].
      * destruct (IH Hrest best (winners ++ [p]) (S compared))
          as (best' & winners' & Hrun & Hmax & Hcase).
        exists best', winners'. split; [done|].
        assert (Hsame : sameStrength h best) by by apply compareHands_zero_iff.
        split.
        -- intros q hq [->|Hq]%elem_of_cons Hhq; [|by eapply Hmax].
           rewrite Hh in Hhq. injection Hhq as <-.
           rewrite (compareHands_same_l h best best') by done.
           destruct Hcase as [[-> _]|[? _]]; [rewrite compareHands_refl; lia|].
           rewrite (compareHands_antisym best' best). lia.
        -- destruct Hcase as [[-> ->]|(Hgt' & (q & Hq & Hhq) & ->)].
           ++ left. split; [done|]. rewrite (tiedWinners_cons _ _ h) by done.
              rewrite bool_decide_eq_true_2 by done. by rewrite <- app_assoc.
           ++ right. split; [done|].
              split; [exists q; split; [by apply list_elem_of_further|done]|].
              rewrite (tiedWinners_cons _ _ h) by done.
              rewrite bool_decide_eq_false_2; [done|].
              rewrite (compareHands_same_l h best best') by done.
              rewrite (compareHands_antisym best' best). lia.
      * destruct (IH Hrest best winners (S compared))
          as (best' & winners' & Hrun & Hmax & Hcase).
        exists best', winners'. split; [done|].
        assert (Hlt : compareHands best h > 0).
        { rewrite (compareHands_antisym h best). lia. }
        assert (Hlt' : compareHands best' h > 0).
        { destruct Hcase as [[-> _]|[? _]]; [done|].
          by apply (compareHands_trans_gt best' best h). }
        split.
        -- intros q hq [->|Hq]%elem_of_cons Hhq; [|by eapply Hmax].
           rewrite Hh in Hhq. injection Hhq as <-.
           rewrite (compareHands_antisym best' h). lia.
        -- destruct Hcase as [[-> ->]|(Hgt' & (q & Hq & Hhq) & ->)].
           ++ left. split; [done|]. rewrite (tiedWinners_cons _ _ h) by done.
              by rewrite bool_decide_eq_false_2.
           ++ right. split; [done|].
              split; [exists q; split; [by apply list_elem_of_further|done]|].
              rewrite (tiedWinners_cons _ _ h) by done.
              rewrite bool_decide_eq_false_2; [done|].
              rewrite (compareHands_antisym best' h). lia.
Qed.

(** The winner search over a non-empty list of evaluated players returns the
    ties of a maximal evaluation, in iteration order, after one comparison
    per player but the first. *)
Lemma findWinners_spec (hands : gmap Z Hand.t) (eligible : list Player.t) :
  eligible ≠ [] →
  (∀ p, p ∈ eligible → is_Some (hands !! Player.id p)) →
  ∃ best,
    maximalAmong hands eligible best ∧
    tiedWinners hands best eligible ≠ [] ∧
    findWinners hands eligible None [] 0
      = Some (tiedWinners hands best eligible, (length eligible - 1)%nat).
Proof.
  destruct eligible as [|p0 rest]; [done|]. intros _ Hhands.
  destruct (Hhands p0) as [h0 Hh0]; [apply list_elem_of_here|].
  assert (Hrest : ∀ q, q ∈ rest → is_Some (hands !! Player.id q)).
  { intros q Hq. apply Hhands. by apply list_elem_of_further. }
  destruct (findWinners_from_best hands rest Hrest h0 [p0] 0)
    as (best & winners & Hrun & Hmax & Hcase).
  exists best. simpl. rewrite Hh0, Nat.sub_0_r.
  assert (Hge : compareHands best h0 >= 0).
  { destruct Hcase as [[-> _]|[? _]]; [rewrite compareHands_refl|]; lia. }
  assert (Hwin : winners = tiedWinners hands best (p0 :: rest)).
  { rewrite (tiedWinners_cons _ _ h0) by done.
    destruct Hcase as [[-> ->]|(Hgt & _ & ->)].
    - by rewrite bool_decide_eq_true_2 by apply compareHands_refl.
    - rewrite bool_decide_eq_false_2; [done|].
      rewrite (compareHands_antisym best h0). lia. }
  assert (Hbest : ∃ p, p ∈ p0 :: rest ∧ hands !! Player.id p = Some best).
  { destruct Hcase as [[-> _]|(_ & (q & Hq & Hhq) & _)].
    - exists p0. split; [apply list_elem_of_here|done].
    - exists q. split; [by apply list_elem_of_further|done]. }
  split; [|split].
  - split; [done|]. intros q hq [->|Hq]%elem_of_cons Hhq; [|by eapply Hmax].
    rewrite Hh0 in Hhq. injection Hhq as <-.
    rewrite (compareHands_antisym best h0). lia.
  - destruct Hbest as (q & Hq & Hhq). intros Hnil.
    assert (Hin : q ∈ tiedWinners hands best (p0 :: rest)).
    { apply list_elem_of_filter. split; [|done].
      apply (tiesWith_true _ _ best); [done|apply compareHands_refl]. }
    rewrite Hnil in Hin. by apply elem_of_nil in Hin.
  - by rewrite <- Hwin.
Qed.

(** The payout loop from a later index pays [share] to everyone. *)
Lemma splitLoop_later (hands : gmap Z Hand.t) (share remainder : Z)
    (winners : list Player.t) (i : nat) :
  splitLoop hands share remainder winners (S i)
  = (λ w, Operation.mk (Player.id w) share Win (hands !! Player.id w)) <$> winners.
Proof.
  revert i. induction winners as [|w ws IH]; intros i; simpl; [done|].
  by rewrite IH.
Qed.

Lemma splitLoop_splitAmong (hands : gmap Z Hand.t) (amount : Z) (winners : list Player.t) :
  splitLoop hands (amount `div` Z.of_nat (length winners))
            (amount `rem` Z.of_nat (length winners)) winners 0
  = splitAmong hands amount winners.
Proof. destruct winners as [|w ws]; [done|]. simpl splitLoop. by rewrite splitLoop_later. Qed.

Lemma sumAmounts_nil : sumAmounts [] = 0.
Proof. reflexivity. Qed.

Lemma sumAmounts_cons (op : Operation.t) (ops : list Operation.t) :
  sumAmounts (op :: ops) = Operation.amount op + sumAmounts ops.
Proof. unfold sumAmounts. rewrite fmap_cons. apply sumZ_cons. Qed.

Lemma sumAmounts_app (ops1 ops2 : list Operation.t) :
  sumAmounts (ops1 ++ ops2) = sumAmounts ops1 + sumAmounts ops2.
Proof. unfold sumAmounts. rewrite fmap_app. apply sumZ_app. Qed.

(** A split of a non-negative amount hands out the whole amount in
    non-negative parts. *)
Lemma splitAmong_sum (hands : gmap Z Hand.t) (amount : Z) (winners : list Player.t) :
  0 ≤ amount → winners ≠ [] →
  sumAmounts (splitAmong hands amount winners) = amount ∧
  Forall (λ op, 0 ≤ Operation.amount op) (splitAmong hands amount winners).
Proof.
  intros Hamount Hne. destruct winners as [|w ws]; [done|]. unfold splitAmong.
  set (n := Z.of_nat (length (w :: ws))).
  assert (Hn : 0 < n) by (unfold n; simpl; lia).
  assert (Hrem : amount `rem` n = amount `mod` n) by (apply Z.rem_mod_nonneg; lia).
  pose proof (Z.div_mod amount n ltac:(lia)) as Hdm.
  pose proof (Z.mod_pos_bound amount n Hn) as Hmod.
  assert (Hdiv : 0 ≤ amount `div` n) by (apply Z.div_pos; lia).
  assert (Hsum : ∀ l : list Player.t,
            sumAmounts ((λ w0, Operation.mk (Player.id w0) (amount `div` n) Win
                                 (hands !! Player.id w0)) <$> l)
            = amount `div` n * Z.of_nat (length l)).
  { induction l as [|x l IHl]; [rewrite fmap_nil, sumAmounts_nil; simpl; lia|].
    rewrite fmap_cons, sumAmounts_cons, IHl. simpl Operation.amount.
    rewrite length_cons. lia. }
  split.
  - rewrite sumAmounts_cons, Hsum. simpl Operation.amount.
    unfold n in *. rewrite length_cons in *. lia.
  - constructor; [simpl; lia|]. apply Forall_fmap, Forall_forall. intros x _. simpl. lia.
Qed.

End Distribution.

Section DistributionClaims.

Import HandEvaluator PotManager.

Lemma getTotalPot_acc (pots : list Pot.t) (a : Z) :
  foldl (λ sum pot, sum + Pot.amount pot) a pots = a + getTotalPot pots.
Proof.
  unfold getTotalPot. revert a. induction pots as [|pot pots IH]; intros a; simpl; [lia|].
  rewrite (IH (a + Pot.amount pot)), (IH (0 + Pot.amount pot)). lia.
Qed.

Lemma getTotalPot_cons (pot : Pot.t) (pots : list Pot.t) :
  getTotalPot (pot :: pots) = Pot.amount pot + getTotalPot pots.
Proof. unfold getTotalPot at 1. simpl. rewrite getTotalPot_acc. lia. Qed.

(** A pot with a single remaining eligible player. *)
Lemma potOperations_single (players : list Player.t) (hands : gmap Z Hand.t)
    (pot : Pot.t) (only : Player.t) :
  eligibleFor players pot = [only] →
  potOperations players hands pot
  = Some ([Operation.mk (Player.id only) (Pot.amount pot) Return None], 0%nat).
Proof. intros Heq. unfold potOperations. by rewrite Heq. Qed.

(** A contested pot: at least two remaining eligible players, all of them
    evaluated. *)
Lemma potOperations_contested (players : list Player.t) (hands : gmap Z Hand.t)
    (pot : Pot.t) :
  (2 ≤ length (eligibleFor players pot))%nat →
  (∀ p, p ∈ eligibleFor players pot → is_Some (hands !! Player.id p)) →
  ∃ best,
    maximalAmong hands (eligibleFor players pot) best ∧
    tiedWinners hands best (eligibleFor players pot) ≠ [] ∧
    potOperations players hands pot
    = Some (splitAmong hands (Pot.amount pot)
              (tiedWinners hands best (eligibleFor players pot)),
            (length (eligibleFor players pot) - 1)%nat).
Proof.
  intros Hlen Hhands. unfold potOperations.
  destruct (eligibleFor players pot) as [|p1 [|p2 rest]] eqn:Heq; simpl in Hlen; [lia..|].
  destruct (findWinners_spec hands (p1 :: p2 :: rest)) as (best & Hmax & Hne & Hrun);
    [done|done|].
  exists best. split; [done|]. split; [done|].
  cbv beta iota zeta. rewrite Hrun. simpl mbind.
  by rewrite splitLoop_splitAmong.
Qed.

(** The operations pushed for one pot that somebody can still claim. *)
Lemma potOperations_conserves (players : list Player.t) (hands : gmap Z Hand.t)
    (pot : Pot.t) :
  0 ≤ Pot.amount pot →
  eligibleFor players pot ≠ [] →
  (∀ p, p ∈ eligibleFor players pot → is_Some (hands !! Player.id p)) →
  ∃ ops c, potOperations players hands pot = Some (ops, c) ∧
    sumAmounts ops = Pot.amount pot ∧
    Forall (λ op, 0 ≤ Operation.amount op) ops.
Proof.
  intros Hamount Hne Hhands.
  destruct (eligibleFor players pot) as [|p1 [|p2 rest]] eqn:Heq; [done| |].
  - eexists _, _. split; [by apply potOperations_single|].
    split; [rewrite sumAmounts_cons, sumAmounts_nil; simpl; lia|].
    by repeat constructor.
  - destruct (potOperations_contested players hands pot) as (best & _ & Hw & Hrun).
    { rewrite Heq. simpl. lia. }
    { by rewrite Heq. }
    eexists _, _. split; [exact Hrun|]. by apply splitAmong_sum.
Qed.

Lemma distributeLoop_conserves (players : list Player.t) (hands : gmap Z Hand.t)
    (pots : list Pot.t) :
  Forall (λ pot, 0 ≤ Pot.amount pot ∧ eligibleFor players pot ≠ [] ∧
                 ∀ p, p ∈ eligibleFor players pot → is_Some (hands !! Player.id p)) pots →
  ∀ (operations : list Operation.t) (compared : nat),
  ∃ ops c, distributeLoop players hands pots operations compared
             = Some (operations ++ ops, c) ∧
    sumAmounts ops = getTotalPot pots ∧
    Forall (λ op, 0 ≤ Operation.amount op) ops.
Proof.
  induction 1 as [|pot pots (Hamount & Hne & Hhands) Hall IH]; intros operations compared.
  - exists [], compared. simpl. by rewrite app_nil_r.
  - destruct (potOperations_conserves players hands pot) as (ops & c & Hrun & Hsum & Hpos);
      [done..|].
    destruct (IH (operations ++ ops) (compared + c)%nat) as (ops' & c' & Hrun' & Hsum' & Hpos').
    exists (ops ++ ops'), c'. simpl. rewrite Hrun. simpl. rewrite Hrun', <- app_assoc.
    split; [done|]. split.
    + rewrite sumAmounts_app, getTotalPot_cons. lia.
    + by apply Forall_app.
Qed.

(** Where every pot has a non-negative amount and somebody left to claim it,
    and the hand results cover the players compared, [distributePots] returns
    and hands out exactly what the pots hold. *)
Lemma distributePots_returns_when_evaluated (pots : list Pot.t)
    (players : list Player.t) (hands : gmap Z Hand.t) :
  Forall (λ pot, 0 ≤ Pot.amount pot ∧ eligibleFor players pot ≠ [] ∧
                 ∀ p, p ∈ eligibleFor players pot → is_Some (hands !! Player.id p)) pots →
  ∃ ops, distributePots pots players hands = Some ops ∧
    sumAmounts ops = getTotalPot pots ∧
    Forall (λ op, 0 ≤ Operation.amount op) ops.
Proof.
  intros Hall. destruct (distributeLoop_conserves players hands pots Hall [] 0%nat)
    as (ops & c & Hrun & Hsum & Hpos).
  exists ops. unfold distributePots. rewrite Hrun. done.
Qed.

(** The winner search never ends with nobody: it starts from a non-empty list
    with no best hand, and from then on somebody is held as a winner. *)
Lemma findWinners_nonempty (hands : gmap Z Hand.t) (eligible : list Player.t) :
  ∀ (best : option Hand.t) (winners : list Player.t) (compared : nat)
    (result : list Player.t) (count : nat),
  winners ≠ [] ∨ (best = None ∧ eligible ≠ []) →
  findWinners hands eligible best winners compared = Some (result, count) →
  result ≠ [].
Proof.
  induction eligible as [|p rest IH]; intros best winners compared result count Hinv; simpl.
  - intros [= <- _]. by destruct Hinv as [?|[_ ?]].
  - destruct best as [b|].
    + destruct Hinv as [Hne|[? _]]; [|done].
      destruct (hands !! Player.id p) as [h|]; [|done]. simpl.
      destruct (compareHands h b >? 0); [apply IH; by left|].
      destruct (compareHands h b =? 0); apply IH; left; [|done].
      by destruct winners.
    + apply IH. by left.
Qed.

(** Whatever the hand results are, the operations pushed for a pot that
    somebody can still claim sum to its amount. *)
Lemma potOperations_conserves_when_claimed (players : list Player.t)
    (hands : gmap Z Hand.t) (pot : Pot.t) (ops : list Operation.t) (compared : nat) :
  0 ≤ Pot.amount pot →
  eligibleFor players pot ≠ [] →
  potOperations players hands pot = Some (ops, compared) →
  sumAmounts ops = Pot.amount pot ∧ Forall (λ op, 0 ≤ Operation.amount op) ops.
Proof.
  intros Hamount Hne. unfold potOperations.
  destruct (eligibleFor players pot) as [|p1 [|p2 rest]] eqn:Heq; [done| |].
  - intros [= <- _]. split; [rewrite sumAmounts_cons, sumAmounts_nil; simpl; lia|].
    by repeat constructor.
  - destruct (findWinners hands (p1 :: p2 :: rest) None [] 0) as [[winners c]|] eqn:Hrun;
      [|done].
    cbn [mbind option_bind]. rewrite splitLoop_splitAmong. intros [= <- _].
    apply splitAmong_sum; [done|].
    eapply findWinners_nonempty; [|exact Hrun]. by right.
Qed.

Lemma distributeLoop_conserves_when_claimed (players : list Player.t)
    (hands : gmap Z Hand.t) (pots : list Pot.t) :
  Forall (λ pot, 0 ≤ Pot.amount pot ∧ eligibleFor players pot ≠ []) pots →
  ∀ (operations : list Operation.t) (compared : nat) (result : list Operation.t) (count : nat),
  distributeLoop players hands pots operations compared = Some (result, count) →
  ∃ ops, result = operations ++ ops ∧
    sumAmounts ops = getTotalPot pots ∧
    Forall (λ op, 0 ≤ Operation.amount op) ops.
Proof.
  induction 1 as [|pot pots [Hamount Hne] Hall IH];
    intros operations compared result count; simpl.
  - intros [= <- _]. exists []. by rewrite app_nil_r.
  - destruct (potOperations players hands pot) as [[ops c]|] eqn:Hrun; [|done].
    cbn [mbind option_bind]. intros Hrest.
    destruct (potOperations_conserves_when_claimed _ _ _ _ _ Hamount Hne Hrun) as [Hsum Hpos].
    destruct (IH _ _ _ _ Hrest) as (ops' & -> & Hsum' & Hpos').
    exists (ops ++ ops'). rewrite <- app_assoc. split; [done|]. split.
    + rewrite sumAmounts_app, getTotalPot_cons. lia.
    + by apply Forall_app.
Qed.

(** The skipped pot is the only way in which chips are lost: where every pot
    has a non-negative amount and at least one eligible player who has not
    folded, the operations of every call of [distributePots] that returns sum
    to the sum of the pot amounts and are non-negative, whatever the hand
    results are. *)
Lemma distributePots_conserves_when_claimed (pots : list Pot.t)
    (players : list Player.t) (hands : gmap Z Hand.t) (ops : list Operation.t) :
  Forall (λ pot, 0 ≤ Pot.amount pot ∧ eligibleFor players pot ≠ []) pots →
  distributePots pots players hands = Some ops →
  sumAmounts ops = getTotalPot pots ∧ Forall (λ op, 0 ≤ Operation.amount op) ops.
Proof.
  intros Hall. unfold distributePots.
  destruct (distributeLoop players hands pots [] 0) as [[result count]|] eqn:Hrun; [|done].
  intros [= <-].
  by destruct (distributeLoop_conserves_when_claimed _ _ _ Hall _ _ _ _ Hrun)
    as (? & -> & ? & ?).
Qed.

(** C3 (the code departs from it).  The pots that [createPots] builds when the
    big blind folds after posting 10 against an all-in for 5 hold 15 chips:
    10 that only the all-in player can claim and 5 that nobody can.  For the
    second pot the filter of [distributePots] leaves no player and the pot is
    skipped: whatever the hand results are, the only operation is the return
    of 10, so 10 chips are handed out of the 15 held. *)
Theorem distributePots_drops_unclaimed_pot :
  let players := [foldedBlind; shortAllIn] in
  let pots := createPots players {[ 0 := 10; 1 := 5 ]} in
  pots = [Pot.mk 10 [1]; Pot.mk 5 []] ∧
  getTotalPot pots = 15 ∧
  eligibleFor players (Pot.mk 5 []) = [] ∧
  ∀ hands : gmap Z Hand.t,
    distributePots pots players hands = Some [Operation.mk 1 10 Return None] ∧
    sumAmounts [Operation.mk 1 10 Return None] = 10.
Proof.
  assert (H1 : createPots [foldedBlind; shortAllIn] {[ 0 := 10; 1 := 5 ]}
               = [Pot.mk 10 [1]; Pot.mk 5 []]) by (vm_compute; reflexivity).
  cbv zeta. rewrite H1. split; [done|]. split; [vm_compute; reflexivity|].
  split; [vm_compute; reflexivity|].
  intros hands. split; [|vm_compute; reflexivity].
  assert (He1 : eligibleFor [foldedBlind; shortAllIn] (Pot.mk 10 [1]) = [shortAllIn])
    by (vm_compute; reflexivity).
  assert (He2 : eligibleFor [foldedBlind; shortAllIn] (Pot.mk 5 []) = [])
    by (vm_compute; reflexivity).
  unfold distributePots. cbn [distributeLoop]. unfold potOperations.
  rewrite He1, He2. reflexivity.
Qed.

(** C4.  A pot whose eligible players, restricted to those not folded, number
    exactly one yields the single operation that returns the full pot amount
    to that player, whatever the hand results are, and no hand comparison is
    made for it: the loop of [distributePots] appends that operation and
    leaves the comparison count unchanged. *)
Theorem distributePots_single_eligible_return (players : list Player.t)
    (hands : gmap Z Hand.t) (pot : Pot.t) (only : Player.t) :
  eligibleFor players pot = [only] →
  let refund := Operation.mk (Player.id only) (Pot.amount pot) Return None in
  potOperations players hands pot = Some ([refund], 0%nat) ∧
  (∀ rest operations compared,
     distributeLoop players hands (pot :: rest) operations compared
     = distributeLoop players hands rest (operations ++ [refund]) compared) ∧
  distributePots [pot] players hands = Some [refund].
Proof.
  intros Heq refund. pose proof (potOperations_single players hands pot only Heq) as Hrun.
  split; [done|]. split.
  - intros rest operations compared. simpl. rewrite Hrun. simpl. by rewrite Nat.add_0_r.
  - unfold distributePots. simpl. by rewrite Hrun.
Qed.

Lemma distributePots_single_eligible_return_witness :
  let refund := Operation.mk 0 50 Return None in
  potOperations [seatP0; seatP1] ∅ (Pot.mk 50 [0]) = Some ([refund], 0%nat) ∧
  (∀ rest operations compared,
     distributeLoop [seatP0; seatP1] ∅ (Pot.mk 50 [0] :: rest) operations compared
     = distributeLoop [seatP0; seatP1] ∅ rest (operations ++ [refund]) compared) ∧
  distributePots [Pot.mk 50 [0]] [seatP0; seatP1] ∅ = Some [refund].
Proof.
  apply (distributePots_single_eligible_return [seatP0; seatP1] ∅ (Pot.mk 50 [0]) seatP0).
  vm_compute. reflexivity.
Defined.

(** The arithmetic of the split.  A contested pot (at least two eligible
    players left, all evaluated) is split among the players whose hands tie
    with a maximal hand, taken in the order of the [players] argument: each
    gets the integer quotient of the amount by their number and the first of
    them also gets the integer remainder; these win operations are what the
    loop of [distributePots] appends for the pot.  In particular a pot of 101
    with exactly two tied winners pays 51 and 50, in that order. *)
Theorem distributePots_split_among_tied_winners (players : list Player.t)
    (hands : gmap Z Hand.t) (pot : Pot.t) :
  (2 ≤ length (eligibleFor players pot))%nat →
  (∀ p, p ∈ eligibleFor players pot → is_Some (hands !! Player.id p)) →
  ∃ best ops compared,
    maximalAmong hands (eligibleFor players pot) best ∧
    tiedWinners hands best (eligibleFor players pot) ≠ [] ∧
    potOperations players hands pot = Some (ops, compared) ∧
    ops = splitAmong hands (Pot.amount pot) (tiedWinners hands best (eligibleFor players pot)) ∧
    (∀ rest operations count,
       distributeLoop players hands (pot :: rest) operations count
       = distributeLoop players hands rest (operations ++ ops) (count + compared)) ∧
    (Pot.amount pot = 101 →
     length (tiedWinners hands best (eligibleFor players pot)) = 2%nat →
     Operation.amount <$> ops = [51; 50] ∧ sumAmounts ops = 101).
Proof.
  intros Hlen Hhands.
  destruct (potOperations_contested players hands pot Hlen Hhands) as (best & Hmax & Hne & Hrun).
  exists best. eexists _, _. split; [done|]. split; [done|]. split; [exact Hrun|].
  split; [done|]. split.
  { intros rest operations count. simpl. by rewrite Hrun. }
  intros -> Htwo.
  destruct (tiedWinners hands best (eligibleFor players pot)) as [|w1 [|w2 [|w3 ws]]];
    simpl in Htwo; try lia.
  split; reflexivity.
Qed.

Lemma distributePots_split_among_tied_winners_witness :
  let players := [seatP0; seatP1] in
  let hands : gmap Z Hand.t := {[ 0 := aceHigh; 1 := aceHigh ]} in
  let pot := Pot.mk 101 [0; 1] in
  ∃ best ops compared,
    maximalAmong hands (eligibleFor players pot) best ∧
    tiedWinners hands best (eligibleFor players pot) ≠ [] ∧
    potOperations players hands pot = Some (ops, compared) ∧
    ops = splitAmong hands (Pot.amount pot) (tiedWinners hands best (eligibleFor players pot)) ∧
    (∀ rest operations count,
       distributeLoop players hands (pot :: rest) operations count
       = distributeLoop players hands rest (operations ++ ops) (count + compared)) ∧
    (Pot.amount pot = 101 →
     length (tiedWinners hands best (eligibleFor players pot)) = 2%nat →
     Operation.amount <$> ops = [51; 50] ∧ sumAmounts ops = 101).
Proof.
  apply (distributePots_split_among_tied_winners [seatP0; seatP1]
           {[ 0 := aceHigh; 1 := aceHigh ]} (Pot.mk 101 [0; 1])).
  - vm_compute. lia.
  - intros p Hp. vm_compute in Hp.
    repeat (apply elem_of_cons in Hp as [->|Hp]; [by eexists|]).
    by apply elem_of_nil in Hp.
Defined.

(** C6 (the code departs from it).  The remainder goes to the tied winner in
    the lowest seat, not to the one closest to the dealer button.  At the
    odd-chip table seats 0 and 4 tie; with the button at seat 3, seat 4 is the
    first seat after the button and seat 0 the third.  A pot of 101 for the
    two pays 51 to seat 0 and 50 to seat 4; and wherever the button is,
    [showdown] builds pots of 3 and 98 from the 101 chips put in and leaves
    seat 0 with 1001 and seat 4 with 1000. *)
Theorem odd_chip_goes_to_the_lowest_seat :
  createPots oddChipSeats oddChipBets = [Pot.mk 3 [0; 4]; Pot.mk 98 [0; 4]] ∧
  payouts <$> distributePots [Pot.mk 101 [0; 4]] oddChipSeats {[ 0 := aceHigh; 4 := aceHigh ]}
    = Some [(0, 51); (4, 50)] ∧
  TexasHoldemGame.seatMod (oddChipTable 3)
    (TexasHoldemGame.dealerIndex (oddChipTable 3) + 1) = 4%nat ∧
  TexasHoldemGame.seatMod (oddChipTable 3)
    (TexasHoldemGame.dealerIndex (oddChipTable 3) + 3) = 0%nat ∧
  ∀ dealer : nat,
    (λ g, Player.stack <$> TexasHoldemGame.players g)
      <$> TexasHoldemGame.showdown (oddChipTable dealer)
    = Some [1001; 1000; 1000; 1000; 1000; 999].
Proof.
  split; [vm_compute; reflexivity|].
  split; [vm_compute; reflexivity|].
  split; [vm_compute; reflexivity|].
  split; [vm_compute; reflexivity|].
  intros dealer. vm_compute. reflexivity.
Qed.

End DistributionClaims.

Section TwoLevelExample.

Import HandEvaluator PotManager.

(** The 101-chip split of the spec, evaluated. *)
Example split_101_between_two :
  distributePots [Pot.mk 101 [0; 1]] [seatP0; seatP1] {[ 0 := aceHigh; 1 := aceHigh ]}
  = Some [Operation.mk 0 51 Win (Some aceHigh); Operation.mk 1 50 Win (Some aceHigh)].
Proof. vm_compute. reflexivity. Qed.

(** Players without an entry in the contributions map add nothing to a pot
    at a positive level. *)
Lemma addPlayer_absent (bets : gmap Z Z) (previousLevel level : Z) (others : list Player.t)
    (pot : Pot.t) :
  0 < level →
  Forall (λ p, bets !! Player.id p = None) others →
  foldl (addPlayer bets previousLevel level) pot others = pot.
Proof.
  intros Hlevel Hall. revert pot. induction Hall as [|p others Hp Hall IH]; intros pot; [done|].
  simpl. rewrite <- (IH pot) at 2. f_equal. unfold addPlayer. rewrite Hp. simpl.
  destruct (Z.geb_spec 0 level); [lia|done].
Qed.

(** Players whose id is not in the pot's eligible list are filtered out. *)
Lemma eligibleFor_absent (others : list Player.t) (pot : Pot.t) :
  Forall (λ p, Player.id p ∉ Pot.eligiblePlayers pot) others →
  eligibleFor others pot = [].
Proof.
  intros Hall. unfold eligibleFor. induction Hall as [|p others Hp Hall IH]; [done|].
  rewrite filter_cons. case_decide as Hd; [by destruct Hd|done].
Qed.

(** C5 (amended).  With contributions 100 from P0 and 50 from P1 and no entry
    for anybody else, [createPots] produces exactly two pots: 100 chips for
    which P0 and P1 are eligible and 50 chips for which P0 alone is; when
    P0's hand strictly beats P1's, distributing them gives one win of 100 to
    P0 followed by one return of 50 to P0. *)
Theorem createPots_uncalled_bet_example (p0 p1 : Player.t) (others : list Player.t)
    (hands : gmap Z Hand.t) (h0 h1 : Hand.t) :
  Player.id p0 = 0 → Player.folded p0 = false →
  Player.id p1 = 1 → Player.folded p1 = false →
  Forall (λ p, Player.id p ≠ 0 ∧ Player.id p ≠ 1) others →
  hands !! 0 = Some h0 → hands !! 1 = Some h1 →
  compareHands h0 h1 > 0 →
  let players := p0 :: p1 :: others in
  let bets : gmap Z Z := {[ 0 := 100; 1 := 50 ]} in
  createPots players bets = [Pot.mk 100 [0; 1]; Pot.mk 50 [0]] ∧
  distributePots (createPots players bets) players hands
  = Some [Operation.mk 0 100 Win (Some h0); Operation.mk 0 50 Return None].
Proof.
  intros Hid0 Hf0 Hid1 Hf1 Hothers Hh0 Hh1 Hgt players bets.
  assert (Hlevels : betLevels bets = [50; 100]) by (vm_compute; reflexivity).
  assert (Habsent : Forall (λ p, bets !! Player.id p = None) others).
  { eapply Forall_impl; [exact Hothers|]. intros p [H0 H1]. unfold bets.
    rewrite lookup_insert_ne by done. by rewrite lookup_singleton_ne. }
  assert (Hb0 : bets !! Player.id p0 = Some 100) by (rewrite Hid0; reflexivity).
  assert (Hb1 : bets !! Player.id p1 = Some 50) by (rewrite Hid1; reflexivity).
  assert (Hpots : createPots players bets = [Pot.mk 100 [0; 1]; Pot.mk 50 [0]]).
  { unfold createPots. rewrite Hlevels. simpl. unfold potAtLevel, players. simpl.
    rewrite !addPlayer_absent by (done || lia).
    unfold addPlayer. rewrite Hb0, Hb1, Hf0, Hf1, Hid0, Hid1. reflexivity. }
  split; [done|]. rewrite Hpots.
  assert (He1 : eligibleFor players (Pot.mk 100 [0; 1]) = [p0; p1]).
  { unfold players, eligibleFor. rewrite !filter_cons. simpl.
    rewrite Hid0, Hid1, Hf0, Hf1.
    rewrite decide_True by (split; [repeat constructor|done]).
    rewrite decide_True by (split; [repeat constructor|done]).
    do 2 f_equal. apply (eligibleFor_absent others (Pot.mk 100 [0; 1])).
    eapply Forall_impl; [exact Hothers|]. simpl. intros p [H0 H1] Hin.
    repeat (apply elem_of_cons in Hin as [?|Hin]; [done|]). by apply elem_of_nil in Hin. }
  assert (He2 : eligibleFor players (Pot.mk 50 [0]) = [p0]).
  { unfold players, eligibleFor. rewrite !filter_cons. simpl.
    rewrite Hid0, Hid1, Hf0.
    rewrite decide_True by (split; [repeat constructor|done]).
    rewrite decide_False by (by intros [?%list_elem_of_singleton _]).
    f_equal. apply (eligibleFor_absent others (Pot.mk 50 [0])).
    eapply Forall_impl; [exact Hothers|]. simpl. intros p [H0 H1] Hin.
    by apply list_elem_of_singleton in Hin. }
  assert (Hlt : compareHands h1 h0 < 0) by (rewrite (compareHands_antisym h0 h1); lia).
  unfold distributePots. simpl. unfold potOperations. rewrite He1, He2. simpl.
  rewrite Hid0, Hid1, Hh0, Hh1. simpl.
  destruct (Z.gtb_spec (compareHands h1 h0) 0); [lia|].
  destruct (Z.eqb_spec (compareHands h1 h0) 0); [lia|].
  simpl. rewrite Hid0, Hh0. reflexivity.
Qed.

Lemma createPots_uncalled_bet_example_witness :
  let players := [seatP0; seatP1; foldedThird] in
  let bets : gmap Z Z := {[ 0 := 100; 1 := 50 ]} in
  let hands : gmap Z Hand.t := {[ 0 := pairOfAcesKingKicker; 1 := aceHigh ]} in
  createPots players bets = [Pot.mk 100 [0; 1]; Pot.mk 50 [0]] ∧
  distributePots (createPots players bets) players hands
  = Some [Operation.mk 0 100 Win (Some pairOfAcesKingKicker); Operation.mk 0 50 Return None].
Proof.
  apply (createPots_uncalled_bet_example seatP0 seatP1 [foldedThird]
           {[ 0 := pairOfAcesKingKicker; 1 := aceHigh ]} pairOfAcesKingKicker aceHigh);
    try reflexivity.
  repeat constructor; simpl; lia.
Defined.

(** C5 (as stated) fails: the first pot holds 100 chips, not 50, and the win
    operation is for 100, not 50. *)
Lemma createPots_main_pot_is_not_50 :
  let players := [seatP0; seatP1; foldedThird] in
  let bets : gmap Z Z := {[ 0 := 100; 1 := 50 ]} in
  let hands : gmap Z Hand.t := {[ 0 := pairOfAcesKingKicker; 1 := aceHigh ]} in
  compareHands pairOfAcesKingKicker aceHigh > 0 ∧
  createPots players bets ≠ [Pot.mk 50 [0; 1]; Pot.mk 50 [0]] ∧
  distributePots (createPots players bets) players hands
  ≠ Some [Operation.mk 0 50 Win (Some pairOfAcesKingKicker); Operation.mk 0 50 Return None].
Proof.
  cbv zeta. split; [reflexivity|]. split.
  - vm_compute. discriminate.
  - vm_compute. discriminate.
Qed.

End TwoLevelExample.

(* ====================================================================== *)
(** * The pot ladder                                                       *)
(* ====================================================================== *)

Section Ladder.

Import PotManager.

Lemma sumZ_perm (l1 l2 : list Z) : l1 ≡ₚ l2 → sumZ l1 = sumZ l2.
Proof.
  induction 1 as [|x l1 l2 _ IH|x y l|l1 l2 l3 _ IH1 _ IH2];
    rewrite ?sumZ_cons; lia.
Qed.

Lemma insertBy_perm {A} (cmp : A → A → Z) (x : A) (l : list A) : insertBy cmp x l ≡ₚ x :: l.
Proof.
  induction l as [|y l IH]; simpl; [done|].
  destruct (cmp x y <=? 0); [done|]. rewrite IH. apply Permutation_swap.
Qed.

Lemma sortBy_perm {A} (cmp : A → A → Z) (l : list A) : sortBy cmp l ≡ₚ l.
Proof.
  unfold sortBy. induction l as [|x l IH]; simpl; [done|].
  by rewrite insertBy_perm, IH.
Qed.

Lemma insertBy_ascending (x : Z) (l : list Z) :
  StronglySorted Z.le l → StronglySorted Z.le (insertBy (λ a b, a - b) x l).
Proof.
  induction 1 as [|y l Hs IH Hall]; simpl; [repeat constructor|].
  destruct (Z.leb_spec (x - y) 0) as [Hle|Hgt].
  - constructor; [by constructor|]. constructor; [lia|].
    eapply Forall_impl; [exact Hall|]. simpl. lia.
  - constructor; [done|]. rewrite insertBy_perm. constructor; [lia|done].
Qed.

Lemma sortBy_ascending (l : list Z) : StronglySorted Z.le (sortBy (λ a b, a - b) l).
Proof.
  unfold sortBy. induction l as [|x l IH]; simpl; [constructor|].
  by apply insertBy_ascending.
Qed.

Lemma ascending_NoDup_strict (l : list Z) :
  StronglySorted Z.le l → NoDup l → StronglySorted Z.lt l.
Proof.
  induction 1 as [|x l Hs IH Hall]; intros Hnd; [constructor|].
  apply NoDup_cons in Hnd as [Hx Hnd]. constructor; [by apply IH|].
  apply Forall_forall. intros y Hy.
  assert (x ≤ y) by by eapply Forall_forall in Hall.
  assert (x ≠ y) by by intros ->. lia.
Qed.

(** The levels of [createPots]: the distinct contributions, ascending. *)
Lemma betLevels_spec (bets : gmap Z Z) :
  StronglySorted Z.lt (betLevels bets) ∧
  ∀ v, v ∈ betLevels bets ↔ ∃ k, bets !! k = Some v.
Proof.
  unfold betLevels. split.
  - apply ascending_NoDup_strict; [apply sortBy_ascending|].
    rewrite sortBy_perm. apply NoDup_remove_dups.
  - intros v. rewrite sortBy_perm, elem_of_remove_dups. unfold objectValues.
    rewrite list_elem_of_fmap. split.
    + intros ([k v'] & -> & Hin%elem_of_map_to_list). by exists k.
    + intros [k Hk]. exists (k, v). split; [done|]. by apply elem_of_map_to_list.
Qed.

Lemma addPlayer_amount (bets : gmap Z Z) (previousLevel level : Z) (pot : Pot.t)
    (p : Player.t) :
  Pot.amount (addPlayer bets previousLevel level pot p)
  = Pot.amount pot + rung previousLevel level (playerBet bets p).
Proof.
  unfold addPlayer, rung, playerBet.
  destruct (default 0 (bets !! Player.id p) >=? level); simpl. 2: lia.
  destruct (negb (Player.folded p)); simpl; [case_bool_decide|]; reflexivity.
Qed.

Lemma potAtLevel_amount (players : list Player.t) (bets : gmap Z Z)
    (previousLevel level : Z) :
  Pot.amount (potAtLevel players bets previousLevel level)
  = sumZ ((λ p, rung previousLevel level (playerBet bets p)) <$> players).
Proof.
  unfold potAtLevel.
  assert (Hgen : ∀ pot,
            Pot.amount (foldl (addPlayer bets previousLevel level) pot players)
            = Pot.amount pot
              + sumZ ((λ p, rung previousLevel level (playerBet bets p)) <$> players)).
  { induction players as [|p ps IH]; intros pot; [simpl; rewrite sumZ_nil; lia|].
    rewrite fmap_cons, sumZ_cons. cbn [foldl]. rewrite IH, addPlayer_amount. lia. }
  rewrite Hgen. simpl. lia.
Qed.

Lemma getTotalPot_snoc (pots : list Pot.t) (pot : Pot.t) :
  getTotalPot (pots ++ [pot]) = getTotalPot pots + Pot.amount pot.
Proof.
  induction pots as [|x pots IH]; simpl.
  - rewrite getTotalPot_cons. unfold getTotalPot. simpl. lia.
  - rewrite !getTotalPot_cons, IH. lia.
Qed.

Lemma rung_nonneg (previousLevel level b : Z) :
  previousLevel ≤ level → 0 ≤ rung previousLevel level b.
Proof. intros H. unfold rung. destruct (Z.geb_spec b level); lia. Qed.

Lemma sumZ_nonneg (l : list Z) : Forall (λ x, 0 ≤ x) l → 0 ≤ sumZ l.
Proof. induction 1; [done|]. rewrite sumZ_cons. lia. Qed.

Lemma sumZ_fmap_add {A} (f g : A → Z) (l : list A) :
  sumZ ((λ x, f x + g x) <$> l) = sumZ (f <$> l) + sumZ (g <$> l).
Proof.
  induction l as [|x l IH]; [done|]. rewrite !fmap_cons, !sumZ_cons, IH. lia.
Qed.

(** The pots built along an ascending ladder hold what the players add along
    it. *)
Lemma potsFromLevels_total (players : list Player.t) (bets : gmap Z Z) (levels : list Z) :
  ∀ previousLevel pots,
  StronglySorted Z.lt (previousLevel :: levels) →
  getTotalPot (potsFromLevels players bets previousLevel levels pots)
  = getTotalPot pots + sumZ ((λ p, ladder previousLevel levels (playerBet bets p)) <$> players).
Proof.
  induction levels as [|level rest IH]; intros previousLevel pots Hsorted; simpl.
  - assert (sumZ ((λ _ : Player.t, 0) <$> players) = 0) as ->; [|lia].
    induction players as [|p ps IHp]; [done|]. rewrite fmap_cons, sumZ_cons. lia.
  - apply StronglySorted_inv in Hsorted as [Hrest Hall].
    assert (Hlt : previousLevel < level) by by apply Forall_cons in Hall as [? _].
    rewrite IH by done. rewrite sumZ_fmap_add.
    pose proof (potAtLevel_amount players bets previousLevel level) as Hamount.
    assert (Hpos : 0 ≤ Pot.amount (potAtLevel players bets previousLevel level)).
    { rewrite Hamount. apply sumZ_nonneg, Forall_fmap, Forall_forall.
      intros p _. simpl. apply rung_nonneg. lia. }
    destruct (Z.gtb_spec (Pot.amount (potAtLevel players bets previousLevel level)) 0).
    + rewrite getTotalPot_snoc, Hamount. lia.
    + rewrite <- Hamount. lia.
Qed.

Lemma ladder_below (previousLevel : Z) (levels : list Z) (b : Z) :
  StronglySorted Z.lt (previousLevel :: levels) → b ≤ previousLevel →
  ladder previousLevel levels b = 0.
Proof.
  revert previousLevel. induction levels as [|level rest IH]; intros previousLevel Hs Hb;
    simpl; [done|].
  apply StronglySorted_inv in Hs as [Hrest Hall].
  assert (Hlt : previousLevel < level) by by apply Forall_cons in Hall as [? _].
  rewrite IH by (done || lia). unfold rung. destruct (Z.geb_spec b level); lia.
Qed.

Lemma ladder_at_level (previousLevel : Z) (levels : list Z) (b : Z) :
  StronglySorted Z.lt (previousLevel :: levels) → b ∈ levels →
  ladder previousLevel levels b = b - previousLevel.
Proof.
  revert previousLevel. induction levels as [|level rest IH]; intros previousLevel Hs Hb;
    simpl; [by apply elem_of_nil in Hb|].
  apply StronglySorted_inv in Hs as [Hrest Hall].
  assert (Hlt : previousLevel < level) by by apply Forall_cons in Hall as [? _].
  apply elem_of_cons in Hb as [->|Hb].
  - rewrite ladder_below by (done || lia). unfold rung.
    destruct (Z.geb_spec level level); lia.
  - rewrite IH by done.
    assert (level < b).
    { apply StronglySorted_inv in Hrest as [_ Hall']. by eapply Forall_forall in Hall'. }
    unfold rung. destruct (Z.geb_spec b level); lia.
Qed.

(** The players' contributions add up to the contributions held in the map
    when the players have distinct ids and every entry belongs to one of
    them. *)
Lemma playerBet_sum (players : list Player.t) :
  NoDup (Player.id <$> players) →
  ∀ bets : gmap Z Z,
  (∀ k, is_Some (bets !! k) → k ∈ Player.id <$> players) →
  sumZ (playerBet bets <$> players) = sumContributions bets.
Proof.
  induction players as [|p ps IH]; intros Hnd bets Hdom.
  - assert (bets = ∅) as ->; [|done].
    apply map_empty. intros k. apply eq_None_not_Some. intros Hk.
    by apply Hdom, elem_of_nil in Hk.
  - rewrite fmap_cons in Hnd. apply NoDup_cons in Hnd as [Hp Hnd].
    rewrite fmap_cons, sumZ_cons.
    assert (Hrest : sumZ (playerBet bets <$> ps)
                    = sumContributions (delete (Player.id p) bets)).
    { rewrite <- (IH Hnd (delete (Player.id p) bets)).
      - f_equal. apply list_fmap_ext. intros i q Hq. unfold playerBet.
        rewrite lookup_delete_ne; [done|]. intros Heq. apply Hp. rewrite Heq.
        apply list_elem_of_fmap. exists q. split; [done|]. by eapply list_elem_of_lookup_2.
      - intros k [v Hk]. apply lookup_delete_Some in Hk as [Hne Hk].
        assert (Hin : k ∈ Player.id <$> p :: ps) by (apply Hdom; by eexists).
        rewrite fmap_cons in Hin. by apply elem_of_cons in Hin as [?|?]. }
    rewrite Hrest. unfold playerBet, sumContributions, objectValues.
    destruct (bets !! Player.id p) as [v|] eqn:Hv; simpl.
    + rewrite <- (insert_delete_id bets (Player.id p) v Hv) at 2.
      rewrite (sumZ_perm _ _ (fmap_Permutation snd _ _
                 (map_to_list_insert _ _ _ (lookup_delete_eq _ _)))).
      by rewrite fmap_cons, sumZ_cons.
    + by rewrite delete_id.
Qed.

(** Where no contribution is zero, the players have distinct ids and every
    entry of the map belongs to one of them, the pots hold exactly the
    contributions. *)
Lemma createPots_conserves_positive (players : list Player.t) (bets : gmap Z Z) :
  NoDup (Player.id <$> players) →
  (∀ k, is_Some (bets !! k) → k ∈ Player.id <$> players) →
  (∀ k v, bets !! k = Some v → 0 < v) →
  getTotalPot (createPots players bets) = sumContributions bets.
Proof.
  intros Hnd Hdom Hpos. destruct (betLevels_spec bets) as [Hsorted Hlevels].
  rewrite <- (playerBet_sum players Hnd bets Hdom).
  assert (Hall : Forall (λ l, 0 < l) (betLevels bets)).
  { apply Forall_forall. intros l [k Hk]%Hlevels. by eapply Hpos. }
  assert (Hladder : ∀ p, ladder 0 (betLevels bets) (playerBet bets p) = playerBet bets p).
  { intros p. unfold playerBet. destruct (bets !! Player.id p) as [v|] eqn:Hv; simpl.
    - rewrite ladder_at_level; [lia|by constructor|]. apply Hlevels. by exists (Player.id p).
    - apply ladder_below; [by constructor|done]. }
  assert (Hsum : sumZ (playerBet bets <$> players)
                 = sumZ ((λ p, ladder 0 (betLevels bets) (playerBet bets p)) <$> players)).
  { f_equal. apply list_fmap_ext. intros i p _. symmetry. apply Hladder. }
  rewrite Hsum. clear Hsum Hladder Hlevels.
  unfold createPots. destruct (betLevels bets) as [|level0 rest].
  - simpl. clear. induction players as [|p ps IH]; [done|].
    rewrite fmap_cons, sumZ_cons, <- IH. reflexivity.
  - case_bool_decide as H0.
    + apply Forall_cons in Hall as [? _]. lia.
    + rewrite potsFromLevels_total by (by constructor).
      unfold getTotalPot. simpl. lia.
Qed.

End Ladder.

(* ====================================================================== *)
(** * The betting round                                                    *)
(* ====================================================================== *)

Section BettingRound.

Import TexasHoldemGame.

#[local] Arguments validateGameState : simpl never.

(** ** The loop that reopens the round *)

Lemma reopenRound_other (players : list Player.t) (playerId : Z) (acted : gmap Z bool)
    (q : Player.t) :
  q ∈ players → Player.id q ≠ playerId →
  reopenRound players playerId acted !! Player.id q = Some false.
Proof.
  intros Hq Hne.
  assert (Hgen : ∀ acted', acted' !! Player.id q = Some false ∨ q ∈ players →
                           reopenRound players playerId acted' !! Player.id q = Some false).
  { clear Hq. unfold reopenRound. induction players as [|p ps IH]; intros acted' Hor; simpl.
    - destruct Hor as [?|?%elem_of_nil]; done.
    - apply IH. case_bool_decide as Hp.
      + destruct (decide (Player.id p = Player.id q)) as [Heq|Hneq].
        * left. rewrite Heq. apply lookup_insert_eq.
        * destruct Hor as [Hl|[->|Hin]%elem_of_cons]; [|done|by right].
          left. by rewrite lookup_insert_ne.
      + destruct Hor as [Hl|[->|Hin]%elem_of_cons]; [by left| |by right].
        by destruct Hne. }
  apply Hgen. by right.
Qed.

Lemma reopenRound_self (players : list Player.t) (playerId : Z) (acted : gmap Z bool) :
  reopenRound players playerId acted !! playerId = acted !! playerId.
Proof.
  unfold reopenRound. revert acted. induction players as [|p ps IH]; intros acted; simpl; [done|].
  rewrite IH. case_bool_decide as Hp; [|done]. by rewrite lookup_insert_ne.
Qed.

(** ** Players other than the one who acts *)

Lemma other_player_stays (players : list Player.t) (seat : nat) (player player' q : Player.t) :
  players !! seat = Some player → q ∈ players → Player.id q ≠ Player.id player →
  q ∈ <[seat := player']> players.
Proof.
  intros Hseat [j Hj]%list_elem_of_lookup Hne.
  apply list_elem_of_lookup. exists j. rewrite list_lookup_insert_ne; [done|].
  intros ->. rewrite Hseat in Hj. injection Hj as ->. done.
Qed.

(** The all-in correction of [validateGameState] leaves a player who can
    act as it is. *)
Lemma validate_keeps_actor (g : t) (q : Player.t) :
  q ∈ players g → Player.canAct q = true → q ∈ players (validateGameState g).
Proof.
  intros Hq Hact. unfold validateGameState.
  assert (Hstack : Player.stack q ≠ 0).
  { unfold Player.canAct in Hact. apply andb_true_iff in Hact as [_ Hs].
    apply bool_decide_eq_true in Hs. lia. }
  assert (Hmap : q ∈ (λ player : Player.t,
                        if bool_decide (Player.stack player = 0) && negb (Player.allIn player)
                           && negb (Player.folded player)
                        then Player.setAllIn player true else player) <$> players g).
  { apply list_elem_of_fmap. exists q. split; [|done].
    by rewrite bool_decide_eq_false_2. }
  by destruct (bool_decide (chipTotal g ≠ EXPECTED_TOTAL)).
Qed.

Lemma validate_fields (g : t) :
  currentBets (validateGameState g) = currentBets g ∧
  currentBet (validateGameState g) = currentBet g ∧
  playersActedThisRound (validateGameState g) = playersActedThisRound g ∧
  length (players (validateGameState g)) = length (players g).
Proof.
  unfold validateGameState.
  destruct (bool_decide (chipTotal g ≠ EXPECTED_TOTAL)); simpl; by rewrite length_fmap.
Qed.

(** ** When the round is complete *)

Lemma isBettingRoundComplete_sound (g : t) (p : Player.t) :
  isBettingRoundComplete g = true → p ∈ players g → Player.canAct p = true →
  hasActed g p = true ∧ belowCurrentBet g p = false.
Proof.
  unfold isBettingRoundComplete. intros Hcomplete Hp Hact.
  case_bool_decide as Hnone.
  - apply nil_length_inv in Hnone.
    assert (Hin : p ∈ filter (λ p, Player.canAct p = true) (players g))
      by by apply list_elem_of_filter.
    rewrite Hnone in Hin. by apply elem_of_nil in Hin.
  - destruct (existsb _ (players g)) eqn:He1; [done|].
    destruct (existsb (λ player, Player.canAct player && belowCurrentBet g player) (players g))
      eqn:He2; [done|].
    split.
    + destruct (hasActed g p) eqn:Hacted; [done|].
      assert (existsb (λ player, Player.canAct player && negb (hasActed g player)) (players g)
              = true); [|congruence].
      apply existsb_exists. exists p. rewrite <- list_elem_of_In, Hact, Hacted. done.
    + destruct (belowCurrentBet g p) eqn:Hbelow; [|done].
      assert (existsb (λ player, Player.canAct player && belowCurrentBet g player) (players g)
              = true); [|congruence].
      apply existsb_exists. exists p. rewrite <- list_elem_of_In, Hact, Hbelow. done.
Qed.


(** What [completeBettingRound] and [handleSinglePlayerWin] emit first. *)
Lemma showdown_events (g g' : t) :
  showdown g = Some g' → ∃ later, events g' = events g ++ later.
Proof.
  unfold showdown. intros H.
  destruct (evaluateAll _ _ _) as [hands|]; cbn [mbind option_bind] in H; [|done].
  destruct (PotManager.distributePots _ _ _) as [results|]; cbn [mbind option_bind] in H; [|done].
  destruct (applyResults _ _) as [players'|]; cbn [mbind option_bind] in H; [|done].
  injection H as <-. unfold validateGameState.
  case_bool_decide; cbn [events set_timer set_players emit set_events set_pots set_state];
    [eauto|].
  exists []. by rewrite app_nil_r.
Qed.

Lemma completeBettingRound_reports (g g' : t) :
  completeBettingRound g = Some g' → reportsComplete g g'.
Proof.
  unfold completeBettingRound, progressGameState, reportsComplete. simpl.
  destruct (state g); intros H; simplify_eq; simpl; try by eexists _, [].
  apply showdown_events in H as [later H]. simpl in H.
  eexists _, later. rewrite H. by rewrite <- app_assoc.
Qed.




(** ** Effect of the actions on the has-acted flags *)

(** ** Effect of the actions *)

Lemma finish_fields (g : t) :
  currentBets (moveToNextPlayer (validateGameState g)) = currentBets g ∧
  currentBet (moveToNextPlayer (validateGameState g)) = currentBet g ∧
  playersActedThisRound (moveToNextPlayer (validateGameState g)) = playersActedThisRound g ∧
  players (moveToNextPlayer (validateGameState g)) = players (validateGameState g) ∧
  waitingForHumanAction (moveToNextPlayer (validateGameState g)) = waitingForHumanAction g.
Proof.
  destruct (validate_fields g) as (H1 & H2 & H3 & _). unfold moveToNextPlayer. simpl.
  repeat split; try done. unfold validateGameState.
  by destruct (bool_decide (chipTotal g ≠ EXPECTED_TOTAL)).
Qed.

Lemma validate_players (g : t) :
  players (validateGameState g)
  = (λ player, if bool_decide (Player.stack player = 0) && negb (Player.allIn player)
                  && negb (Player.folded player)
               then Player.setAllIn player true else player) <$> players g.
Proof. unfold validateGameState. by destruct (bool_decide (chipTotal g ≠ EXPECTED_TOTAL)). Qed.


(** The all-in case of the switch. *)
Lemma applyAction_allIn (g : t) (seat : nat) (player : Player.t) (c amount : Z) :
  currentBets g !! Player.id player = Some c →
  ∃ g1 player',
    applyAction g seat player ALL_IN amount = Some g1 ∧
    players g1 = <[seat := player']> (players g) ∧
    Player.id player' = Player.id player ∧
    Player.stack player' = 0 ∧
    Player.allIn player' = true ∧
    Player.lastAction player' = Some LastAllIn ∧
    Player.totalBet player' = Player.totalBet player + Player.stack player ∧
    currentBets g1 = <[Player.id player := c + Player.stack player]> (currentBets g) ∧
    waitingForHumanAction g1 = waitingForHumanAction g ∧
    (c + Player.stack player > currentBet g →
       currentBet g1 = c + Player.stack player ∧
       playersActedThisRound g1
       = reopenRound (players g1) (Player.id player) (playersActedThisRound g)) ∧
    (c + Player.stack player <= currentBet g →
       currentBet g1 = currentBet g ∧
       playersActedThisRound g1 = playersActedThisRound g).
Proof.
  intros Hc. unfold applyAction. rewrite Hc. simpl. rewrite Z.min_id.
  destruct (Z.gtb_spec (c + Player.stack player) (currentBet g)) as [Hgt|Hle];
    (eexists _, _; split; [reflexivity|]); simpl; rewrite Z.sub_diag; simpl.
  - repeat split; try done; lia.
  - repeat split; try done; lia.
Qed.

(** An all-in pays the whole stack; it reopens the round exactly when it
    raises the table-high bet. *)
Lemma processPlayerAction_allIn (g : t) (seat : nat) (player : Player.t) (c amount : Z) :
  players g !! seat = Some player →
  currentBets g !! Player.id player = Some c →
  ∃ g', processPlayerAction g seat ALL_IN amount = Some g' ∧
    currentBets g' = <[Player.id player := c + Player.stack player]> (currentBets g) ∧
    waitingForHumanAction g' = waitingForHumanAction g ∧
    (∃ player', players g' !! seat = Some player' ∧ Player.id player' = Player.id player ∧
                Player.stack player' = 0 ∧
                Player.lastAction player' = Some LastAllIn ∧
                Player.totalBet player' = Player.totalBet player + Player.stack player) ∧
    (∀ q, q ∈ players g → Player.id q ≠ Player.id player → Player.canAct q = true →
          q ∈ players g') ∧
    (c + Player.stack player > currentBet g →
       currentBet g' = c + Player.stack player ∧
       ∀ q, q ∈ players g → Player.id q ≠ Player.id player →
            playersActedThisRound g' !! Player.id q = Some false) ∧
    (c + Player.stack player <= currentBet g →
       currentBet g' = currentBet g ∧
       playersActedThisRound g' = <[Player.id player := true]> (playersActedThisRound g)).
Proof.
  intros Hseat Hc. unfold processPlayerAction. rewrite Hseat. cbn [mbind option_bind].
  pose proof (lookup_lt_Some _ _ _ Hseat) as Hlt.
  destruct (applyAction_allIn
              (set_playersActedThisRound g (<[Player.id player:=true]> (playersActedThisRound g)))
              seat player c amount Hc)
    as (g1 & player' & Hrun & Hp & Hid & Hstack & HallIn & Hlast & Htotal & Hb & Hw
        & Hraise & Hless).
  rewrite Hrun. cbn [mbind option_bind]. eexists. split; [reflexivity|].
  destruct (finish_fields g1) as (Hbets & Hbet & Hflags & Hplayers & Hwait).
  rewrite Hbets, Hbet, Hflags, Hplayers, Hwait. simpl in Hp, Hb, Hw, Hraise, Hless.
  split; [done|]. split; [done|]. split; [|split; [|split]].
  - exists player'. split; [|done].
    rewrite validate_players, list_lookup_fmap, Hp, list_lookup_insert_eq by done.
    simpl. by rewrite HallIn, andb_false_r.
  - intros q Hq Hne Hact. apply validate_keeps_actor; [|done].
    rewrite Hp. by eapply other_player_stays.
  - intros Hgt. destruct (Hraise Hgt) as [Hcb Hacted]. split; [done|].
    intros q Hq Hne. rewrite Hacted. apply reopenRound_other; [|done].
    rewrite Hp. by eapply other_player_stays.
  - intros Hle. destruct (Hless Hle) as [Hcb Hacted]. done.
Qed.

End BettingRound.

Section BettingRoundClaims.

Import TexasHoldemGame.



End BettingRoundClaims.

(* ====================================================================== *)
(** * Human wagers that cover the stack                                    *)
(* ====================================================================== *)

Section HumanActions.

Import TexasHoldemGame.

(** C10.  While a human decision is pending, [humanBet] and [humanRaise] with
    an amount of at least the human's stack, and [humanCall] when the amount
    owed is at least the stack, process exactly an all-in action for the
    stack, and otherwise process the named action with the given amount.
    The all-in action is processed, clears the pending flag, leaves the human
    with no chips and marked all-in as last action, and adds the whole stack
    to the human's contribution. *)
Theorem human_wager_covering_stack_is_all_in (g : t) (you : Player.t) :
  waitingForHumanAction g = true →
  players g !! 0%nat = Some you →
  let asked := set_waitingForHumanAction g false in
  let allIn := processPlayerAction asked 0 ALL_IN (Player.stack you) in
  (∀ amount, humanBet g amount
             = if amount >=? Player.stack you then allIn
               else processPlayerAction asked 0 BET amount) ∧
  (∀ amount, humanRaise g amount
             = if amount >=? Player.stack you then allIn
               else processPlayerAction asked 0 RAISE amount) ∧
  (∀ c, currentBets g !! Player.id you = Some c →
        humanCall g
        = (if currentBet g - c >=? Player.stack you then allIn
           else processPlayerAction asked 0 CALL (currentBet g - c)) ∧
        ∃ g', allIn = Some g' ∧
          waitingForHumanAction g' = false ∧
          currentBets g' = <[Player.id you := c + Player.stack you]> (currentBets g) ∧
          ∃ you', players g' !! 0%nat = Some you' ∧
                  Player.id you' = Player.id you ∧
                  Player.stack you' = 0 ∧
                  Player.lastAction you' = Some LastAllIn ∧
                  Player.totalBet you' = Player.totalBet you + Player.stack you).
Proof.
  intros Hwait Hyou asked allIn.
  assert (HallIn : humanAllIn g = allIn).
  { unfold humanAllIn. by rewrite Hwait, Hyou. }
  split; [|split].
  - intros amount. unfold humanBet. rewrite Hwait, Hyou. simpl.
    by destruct (amount >=? Player.stack you).
  - intros amount. unfold humanRaise. rewrite Hwait, Hyou. simpl.
    by destruct (amount >=? Player.stack you).
  - intros c Hc. split.
    + unfold humanCall. rewrite Hwait, Hyou. simpl. rewrite Hc. simpl.
      by destruct (currentBet g - c >=? Player.stack you).
    + destruct (processPlayerAction_allIn asked 0 you c (Player.stack you) Hyou Hc)
        as (g' & Hrun & Hbets & Hw & Hplayer & _).
      exists g'. done.
Qed.

Lemma human_wager_covering_stack_is_all_in_witness :
  let g := humanToActState in
  let you := seatOf g 0 in
  let asked := set_waitingForHumanAction g false in
  let allIn := processPlayerAction asked 0 ALL_IN (Player.stack you) in
  humanBet g 2000 = allIn ∧ humanRaise g 1000 = allIn ∧
  humanBet g 40 = processPlayerAction asked 0 BET 40 ∧
  humanCall g = processPlayerAction asked 0 CALL 10 ∧
  ∃ g', allIn = Some g' ∧ waitingForHumanAction g' = false ∧
        Player.stack (seatOf g' 0) = 0 ∧ currentBets g' !! 0 = Some 1000.
Proof.
  intros g you asked allIn.
  assert (Hstack : Player.stack you = 1000) by (vm_compute; reflexivity).
  assert (Hid : Player.id you = 0) by (vm_compute; reflexivity).
  assert (Hcb : currentBet g = 10) by (vm_compute; reflexivity).
  destruct (human_wager_covering_stack_is_all_in g you) as (Hbet & Hraise & Hcall).
  - vm_compute. reflexivity.
  - vm_compute. reflexivity.
  - destruct (Hcall 0) as (Hc & g' & Hrun & Hw & Hbets & you' & Hyou' & _ & Hzero & _).
    { vm_compute. reflexivity. }
    split.
    { rewrite (Hbet 2000), Hstack.
      replace (2000 >=? 1000) with true by reflexivity. reflexivity. }
    split.
    { rewrite (Hraise 1000), Hstack.
      replace (1000 >=? 1000) with true by reflexivity. reflexivity. }
    split.
    { rewrite (Hbet 40), Hstack.
      replace (40 >=? 1000) with false by reflexivity. reflexivity. }
    split.
    { rewrite Hc, Hcb, Hstack.
      replace (10 - 0 >=? 1000) with false by reflexivity. reflexivity. }
    exists g'. split; [exact Hrun|]. split; [exact Hw|]. split.
    + unfold seatOf. rewrite Hyou'. exact Hzero.
    + rewrite Hbets, Hid, Hstack. apply lookup_insert_eq.
Defined.

End HumanActions.

(* ====================================================================== *)
(** * Chip conservation                                                    *)
(* ====================================================================== *)

Section ChipConservation.

Import TexasHoldemGame.

#[local] Arguments validateGameState : simpl never.

Lemma sumZ_fmap_insert {A} (f : A → Z) (l : list A) (i : nat) (x y : A) :
  l !! i = Some x → sumZ (f <$> <[i := y]> l) = sumZ (f <$> l) - f x + f y.
Proof.
  intros Hi. rewrite insert_take_drop by by eapply lookup_lt_Some.
  rewrite <- (take_drop_middle l i x Hi) at 3.
  rewrite !fmap_app, !fmap_cons, !sumZ_app, !sumZ_cons. lia.
Qed.

Lemma sumContributions_insert (bets : gmap Z Z) (k c v : Z) :
  bets !! k = Some c →
  sumContributions (<[k := v]> bets) = sumContributions bets - c + v.
Proof.
  intros Hk. unfold sumContributions, objectValues.
  rewrite <- (insert_delete_id bets k c Hk) at 2.
  rewrite <- (insert_delete_eq bets k v).
  rewrite (sumZ_perm _ _ (fmap_Permutation snd _ _
             (map_to_list_insert (delete k bets) k v (lookup_delete_eq _ _)))).
  rewrite (sumZ_perm _ _ (fmap_Permutation snd _ _
             (map_to_list_insert (delete k bets) k c (lookup_delete_eq _ _)))).
  rewrite !fmap_cons, !sumZ_cons. simpl. lia.
Qed.

Lemma chipTotal_validate (g : t) : chipTotal (validateGameState g) = chipTotal g.
Proof.
  unfold chipTotal. destruct (validate_fields g) as (-> & _ & _ & _).
  rewrite validate_players.
  assert (Hpots : pots (validateGameState g) = pots g).
  { unfold validateGameState. by destruct (bool_decide (chipTotal g ≠ EXPECTED_TOTAL)). }
  rewrite Hpots. do 2 f_equal. rewrite <- list_fmap_compose. f_equal.
  apply list_fmap_ext. intros i p _. simpl.
  by destruct (bool_decide (Player.stack p = 0) && negb (Player.allIn p)
               && negb (Player.folded p)).
Qed.

Lemma chipTotal_eq (g : t) :
  chipTotal g = sumZ (Player.stack <$> players g) + sumContributions (currentBets g)
                + PotManager.getTotalPot (pots g).
Proof. reflexivity. Qed.

Lemma chipTotal_moveToNextPlayer (g : t) : chipTotal (moveToNextPlayer g) = chipTotal g.
Proof. reflexivity. Qed.

(** A wager moves chips from the stack to the contribution. *)
Lemma bet_moves_chips (p : Player.t) (amount : Z) :
  Player.stack (Player.bet p amount).1 + (Player.bet p amount).2 = Player.stack p.
Proof. simpl. lia. Qed.

(** Every action leaves the chip total as it is: the total can only change
    when pots are rebuilt. *)
Lemma processPlayerAction_chipTotal (g g' : t) (seat : nat) (action : PlayerAction)
    (amount : Z) :
  processPlayerAction g seat action amount = Some g' → chipTotal g' = chipTotal g.
Proof.
  unfold processPlayerAction. intros Hrun.
  destruct (players g !! seat) as [player|] eqn:Hseat; cbn [mbind option_bind] in Hrun;
    [|done].
  destruct (applyAction _ seat player action amount) as [g1|] eqn:Happly;
    cbn [mbind option_bind] in Hrun; [|done].
  injection Hrun as <-. rewrite chipTotal_moveToNextPlayer, chipTotal_validate.
  unfold applyAction in Happly. cbn [currentBets set_playersActedThisRound] in Happly.
  destruct action.
  1, 2: injection Happly as <-; rewrite !chipTotal_eq; simpl;
        rewrite (sumZ_fmap_insert _ _ _ player) by done; simpl; lia.
  all: destruct (currentBets g !! Player.id player) as [c|] eqn:Hc;
       cbn [mbind option_bind] in Happly; [|done].
  all: simpl in Happly.
  4: destruct (_ >? _).
  all: injection Happly as <-; rewrite !chipTotal_eq; simpl;
       rewrite (sumZ_fmap_insert _ _ _ player) by done;
       rewrite (sumContributions_insert _ _ c) by done;
       simpl; lia.
Qed.


(** C2 (the code departs from it).  A contributions map with a zero entry
    next to non-zero ones makes [createPots] return before any pot is built:
    with 10, 10 and 0 contributed no pot exists although 20 chips were
    contributed, and so for the contributions of the first betting round of
    the hand in which seat 4 folds, which hold 50 chips. *)
Theorem createPots_zero_entry_drops_contributions :
  let bets : gmap Z Z := {[ 0 := 10; 1 := 10; 2 := 0 ]} in
  PotManager.createPots [seatP0; seatP1; foldedThird] bets = [] ∧
  PotManager.getTotalPot (PotManager.createPots [seatP0; seatP1; foldedThird] bets) = 0 ∧
  sumContributions bets = 20 ∧
  (λ g, (sumContributions (currentBets g),
         PotManager.createPots (players g) (currentBets g))) <$> beforeRoundCloses
  = Some (50, []).
Proof.
  cbv zeta. do 3 (split; [vm_compute; reflexivity|]). vm_compute. reflexivity.
Qed.

(** C1 (the code departs from it).  In the first hand at a fresh table the
    chips total 6000 once the blinds are posted and still do when the big
    blind has checked and the timer of [processNextAction] is pending; the
    [completeBettingRound] that this timer runs leaves no pot and a total of
    5950.  Played on to the showdown with every street checked around, the
    hand ends with a total of 5950, nothing paid out, and the integrity error
    raised; the next hand starts from 5950. *)
Theorem chips_vanish_when_round_closes :
  chipTotal <$> run initial [NewHand freshDeck] = Some EXPECTED_TOTAL ∧
  (λ g, (chipTotal g, timer g)) <$> beforeRoundCloses
  = Some (EXPECTED_TOTAL, Some ProcessNextAction) ∧
  beforeRoundCloses ≫= (λ g, completeBettingRound (set_timer g None))
  = run initial preflopWithOneFold ∧
  (λ g, (state g, pots g, events g, chipTotal g)) <$> run initial preflopWithOneFold
  = Some (FLOP, [], [BettingRoundComplete 0], EXPECTED_TOTAL - 50) ∧
  (λ g, (state g, Player.stack <$> players g, last (events g), chipTotal g))
    <$> run initial handToShowdown
  = Some (SHOWDOWN, [990; 990; 990; 990; 1000; 990], Some (IntegrityError 5950),
          EXPECTED_TOTAL - 50) ∧
  (λ g, (state g, handNumber g, chipTotal g))
    <$> run initial (handToShowdown ++ [Fire NoInput; Fire (Shuffled freshDeck)])
  = Some (PRE_FLOP, 2, EXPECTED_TOTAL - 50).
Proof. do 5 (split; [vm_compute; reflexivity|]). vm_compute. reflexivity. Qed.

End ChipConservation.

(* ====================================================================== *)
(** * The deck                                                             *)
(* ====================================================================== *)

Section DeckFacts.

Lemma swap_head_perm (cards : list Card.t) (j : nat) (a b : Card.t) :
  cards !! j = Some b → b :: <[j := a]> cards ≡ₚ a :: cards.
Proof.
  revert j. induction cards as [|c cards IH]; intros j Hj; [done|].
  destruct j as [|j]; simpl in *.
  - injection Hj as ->. apply Permutation_swap.
  - rewrite (Permutation_swap c b), (IH j Hj). apply Permutation_swap.
Qed.

Lemma swap_perm (cards : list Card.t) (i j : nat) : Deck.swap cards i j ≡ₚ cards.
Proof.
  unfold Deck.swap.
  destruct (cards !! i) as [ci|] eqn:Hi; [|done].
  destruct (cards !! j) as [cj|] eqn:Hj; [|done].
  revert i j Hi Hj. induction cards as [|c cards IH]; intros i j Hi Hj; [done|].
  destruct i as [|i], j as [|j]; simpl in *.
  - by simplify_eq.
  - simplify_eq. by apply swap_head_perm.
  - simplify_eq. by apply swap_head_perm.
  - by rewrite (IH i j).
Qed.

Lemma shuffleLoop_perm (draw : nat → nat) (i : nat) (cards : list Card.t) :
  Deck.shuffleLoop draw i cards ≡ₚ cards.
Proof.
  revert cards. induction i as [|i IH]; intros cards; simpl; [done|].
  by rewrite IH, swap_perm.
Qed.

Lemma build_complete (c : Card.t) : c ∈ Deck.build.
Proof. destruct c as [[] []]; vm_compute; repeat constructor. Qed.

Lemma build_NoDup : NoDup Deck.build.
Proof. apply (bool_decide_unpack (NoDup Deck.build)). vm_compute. exact I. Qed.

(** X1.  Whatever numbers are drawn, [shuffle] returns a permutation of the
    cards it is given; so after [reset] the deck holds 52 cards, no card
    twice, and every card of the four suits and thirteen ranks. *)
Theorem shuffle_keeps_every_card (draw : nat → nat) :
  (∀ cards, Deck.shuffle draw cards ≡ₚ cards) ∧
  length (Deck.reset draw) = 52%nat ∧
  NoDup (Deck.reset draw) ∧
  ∀ c, c ∈ Deck.reset draw.
Proof.
  assert (Hperm : ∀ cards, Deck.shuffle draw cards ≡ₚ cards).
  { intros cards. apply shuffleLoop_perm. }
  split; [done|]. unfold Deck.reset. split; [|split].
  - by rewrite Hperm.
  - rewrite Hperm. apply build_NoDup.
  - intros c. rewrite Hperm. apply build_complete.
Qed.

(** X2.  [deal] takes the cards off the front of the deck: the cards dealt
    followed by the cards left are the deck as it was, asking for more cards
    than there are deals what is left, two deals in a row are one deal of
    the two counts together, and with no duplicate in the deck no card dealt
    stays in it. *)
Theorem deal_takes_from_the_front (cards : list Card.t) (n m : nat) :
  (Deck.deal cards n).1 ++ (Deck.deal cards n).2 = cards ∧
  length (Deck.deal cards n).1 = Nat.min n (length cards) ∧
  Deck.deal cards (n + m)
  = ((Deck.deal cards n).1 ++ (Deck.deal (Deck.deal cards n).2 m).1,
     (Deck.deal (Deck.deal cards n).2 m).2) ∧
  (NoDup cards → ∀ c, c ∈ (Deck.deal cards n).1 → c ∉ (Deck.deal cards n).2).
Proof.
  unfold Deck.deal. simpl. split; [apply take_drop|]. split; [apply length_take|].
  split; [by rewrite take_take_drop, drop_drop|].
  intros Hnd. rewrite <- (take_drop n cards) in Hnd.
  by apply NoDup_app in Hnd as (_ & Hdisj & _).
Qed.

Lemma deal_takes_from_the_front_witness :
  (Deck.deal Deck.build 5).1 ++ (Deck.deal Deck.build 5).2 = Deck.build ∧
  ∀ c, c ∈ (Deck.deal Deck.build 5).1 → c ∉ (Deck.deal Deck.build 5).2.
Proof.
  destruct (deal_takes_from_the_front Deck.build 5 0) as (Hall & _ & _ & Hdisj).
  split; [exact Hall|].
  apply Hdisj. apply (bool_decide_unpack (NoDup Deck.build)). vm_compute. exact I.
Defined.

End DeckFacts.

(* ====================================================================== *)
(** * More on the hand evaluator                                           *)
(* ====================================================================== *)

Section MoreEvaluator.

Import HandEvaluator.

Lemma binomial_zero_r (n : nat) : binomial n 0 = 1%nat.
Proof. by destruct n. Qed.

Lemma length_combine {A} (size : nat) (rest combo : list A) :
  (length combo ≤ size)%nat →
  length (combine size rest combo) = binomial (length rest) (size - length combo).
Proof.
  revert combo. induction rest as [|x rest IH]; intros combo Hle; simpl.
  - destruct (Nat.eqb_spec (length combo) size) as [Heq|Hne].
    + by rewrite Heq, Nat.sub_diag.
    + destruct (size - length combo)%nat eqn:Hd; [lia|done].
  - destruct (Nat.eqb_spec (length combo) size) as [Heq|Hne].
    + rewrite Heq, Nat.sub_diag. done.
    + rewrite length_app, !IH by (rewrite ?length_app; simpl; lia).
      rewrite length_app. simpl.
      destruct (size - length combo)%nat as [|d] eqn:Hd; [lia|].
      replace (size - (length combo + 1))%nat with d by lia. done.
Qed.

Lemma NoDup_combine {A} (size : nat) (rest combo : list A) :
  NoDup rest → NoDup (combine size rest combo).
Proof.
  intros Hnd. revert combo. induction Hnd as [|x rest Hx Hnd IH]; intros combo; simpl.
  - destruct (length combo =? size)%nat; [apply NoDup_singleton|constructor].
  - destruct (Nat.eqb_spec (length combo) size) as [Heq|Hne]; [apply NoDup_singleton|].
    apply NoDup_app. split; [apply IH|]. split; [|apply IH].
    intros c Hc1 Hc2.
    destruct (decide (length combo ≤ size)%nat) as [Hle|Hgt].
    + apply elem_of_combine in Hc1 as (s1 & _ & -> & _); [|rewrite length_app; simpl; lia].
      apply elem_of_combine in Hc2 as (s2 & Hs2 & Heq & _); [|done].
      rewrite <- app_assoc in Heq. apply app_inv_head in Heq. simpl in Heq. subst s2.
      apply Hx. eapply elem_of_sublist; [|exact Hs2]. apply list_elem_of_here.
    + clear -Hc2 Hgt. revert combo Hgt Hc2. induction rest as [|y rest IHr]; intros combo Hgt; simpl.
      * destruct (Nat.eqb_spec (length combo) size); [lia|]. by intros ?%elem_of_nil.
      * destruct (Nat.eqb_spec (length combo) size); [lia|].
        intros [H|H]%elem_of_app; [|by eapply IHr].
        eapply (IHr (combo ++ [y])); [rewrite length_app; simpl; lia|done].
Qed.

(** X3. [getCombinations arr size] lists every way of keeping [size]
    elements of [arr] in their order, once each position-wise: there are
    "length arr choose size" of them, a list is among them exactly when it is
    a sub-list of [arr] of length [size], and when [arr] has no duplicates no
    combination is listed twice. *)
Theorem getCombinations_counts_subsets {A} (arr : list A) (size : nat) :
  length (getCombinations arr size) = binomial (length arr) size ∧
  (∀ c, c ∈ getCombinations arr size ↔ c `sublist_of` arr ∧ length c = size) ∧
  (NoDup arr → NoDup (getCombinations arr size)).
Proof.
  split; [|split].
  - unfold getCombinations. rewrite length_combine by (simpl; lia).
    simpl. by rewrite Nat.sub_0_r.
  - intros c. apply elem_of_getCombinations.
  - apply NoDup_combine.
Qed.

Lemma getCombinations_counts_subsets_witness :
  length (getCombinations sevenCards 5) = 21%nat ∧ NoDup (getCombinations sevenCards 5).
Proof.
  destruct (getCombinations_counts_subsets sevenCards 5) as (Hlen & _ & Hnd).
  split; [exact Hlen|]. apply Hnd.
  apply (bool_decide_unpack (NoDup sevenCards)). vm_compute. exact I.
Defined.

Lemma evaluateHand_returns (cards : list Card.t) :
  (5 ≤ length cards)%nat → ∃ h, evaluateHand cards = Some (Some h).
Proof.
  intros Hlen. unfold evaluateHand, findBest5CardHand.
  destruct (Nat.ltb_spec (length cards) 5) as [?|_]; [lia|].
  assert (Hloop : (length cards = 6 ∨ length cards = 7)%nat →
                  ∃ h, bestHandLoop (getCombinations cards 5) None = Some (Some h)).
  { intros H67.
    assert (Hall : Forall (λ combo : list Card.t, combo ≠ []) (getCombinations cards 5)).
    { apply Forall_forall. intros c [_ Hc]%elem_of_getCombinations. by destruct c. }
    destruct (bestHandLoop_spec _ None Hall) as ([h|] & Hres & _ & _ & Hnone);
      [by exists h|].
    destruct (Hnone eq_refl) as [_ Hempty].
    assert (Hin : take 5 cards ∈ getCombinations cards 5).
    { apply elem_of_getCombinations. split; [apply sublist_take|].
      rewrite length_take. lia. }
    rewrite Hempty in Hin. by apply elem_of_nil in Hin. }
  destruct (Nat.eqb_spec (length cards) 7) as [H7|_]; [apply Hloop; lia|].
  destruct (Nat.eqb_spec (length cards) 6) as [H6|_]; [apply Hloop; lia|].
  destruct (evaluate5Cards_is_Some cards) as [h Hh]; [intros ->; simpl in Hlen; lia|].
  exists h. by rewrite Hh.
Qed.

(** X4. [evaluateHand] throws exactly when it is given fewer than five
    cards; with five or more it always returns a hand, never [null]. *)
Theorem evaluateHand_throws_iff (cards : list Card.t) :
  (evaluateHand cards = None ↔ (length cards < 5)%nat) ∧
  ((5 ≤ length cards)%nat → ∃ h, evaluateHand cards = Some (Some h)).
Proof.
  split; [|apply evaluateHand_returns]. split.
  - intros Hnone. destruct (decide (length cards < 5)%nat) as [|Hge]; [done|].
    destruct (evaluateHand_returns cards) as [h Hh]; [lia|]. congruence.
  - intros Hlt. unfold evaluateHand.
    by destruct (Nat.ltb_spec (length cards) 5) as [_|?]; [|lia].
Qed.

Lemma evaluateHand_throws_iff_witness : ∃ h, evaluateHand sevenCards = Some (Some h).
Proof.
  destruct (evaluateHand_throws_iff sevenCards) as [_ Hsome].
  apply Hsome. simpl. lia.
Defined.

(** Insertion by a comparator that is total and transitive keeps the list
    sorted. *)
Lemma insertBy_sorted {A} (cmp : A → A → Z) (x : A) (l : list A) :
  (∀ a b, cmp a b <= 0 ∨ cmp b a <= 0) →
  (∀ a b c, cmp a b <= 0 → cmp b c <= 0 → cmp a c <= 0) →
  StronglySorted (λ a b, cmp a b <= 0) l →
  StronglySorted (λ a b, cmp a b <= 0) (insertBy cmp x l).
Proof.
  intros Htotal Htrans. induction 1 as [|y l Hs IH Hall]; simpl; [repeat constructor|].
  destruct (Z.leb_spec (cmp x y) 0) as [Hle|Hgt].
  - constructor; [by constructor|]. constructor; [done|].
    eapply Forall_impl; [exact Hall|]. simpl. intros z Hz. by eapply Htrans.
  - constructor; [done|]. rewrite insertBy_perm. constructor; [|done].
    destruct (Htotal x y); [lia|done].
Qed.

Lemma sortBy_sorted {A} (cmp : A → A → Z) (l : list A) :
  (∀ a b, cmp a b <= 0 ∨ cmp b a <= 0) →
  (∀ a b c, cmp a b <= 0 → cmp b c <= 0 → cmp a c <= 0) →
  StronglySorted (λ a b, cmp a b <= 0) (sortBy cmp l).
Proof.
  intros Htotal Htrans. unfold sortBy. induction l as [|x l IH]; simpl; [constructor|].
  by apply insertBy_sorted.
Qed.

(** The groups built by [pushGroup] are never empty and hold cards already
    seen. *)
Lemma pushGroup_groups (card : Card.t) (groups : list (Z * list Card.t)) (seen : list Card.t) :
  Forall (λ kg, kg.2 ≠ [] ∧ kg.2 ⊆ seen) groups →
  Forall (λ kg, kg.2 ≠ [] ∧ kg.2 ⊆ card :: seen) (pushGroup card groups).
Proof.
  assert (Hweak : ∀ gs : list (Z * list Card.t),
            Forall (λ kg, kg.2 ≠ [] ∧ kg.2 ⊆ seen) gs →
            Forall (λ kg, kg.2 ≠ [] ∧ kg.2 ⊆ card :: seen) gs).
  { intros gs Hgs. eapply Forall_impl; [exact Hgs|]. intros kg [? Hsub]. split; [done|].
    by apply list_subseteq_cons. }
  induction 1 as [|[k g] rest [Hne Hsub] Hall IH]; simpl.
  - constructor; [|constructor]. split; [done|]. simpl. by apply list_subseteq_skip, list_subseteq_nil.
  - simpl in *. repeat case_bool_decide.
    + constructor; [|by apply Hweak]. simpl. split; [by destruct g|].
      intros c [Hc|Hc%list_elem_of_singleton]%elem_of_app.
      * apply list_elem_of_further. by apply Hsub.
      * subst. apply list_elem_of_here.
    + constructor; [|constructor; [|by apply Hweak]]; simpl.
      * split; [done|]. by apply list_subseteq_skip, list_subseteq_nil.
      * split; [done|]. by apply list_subseteq_cons.
    + constructor; [|done]. simpl. split; [done|]. by apply list_subseteq_cons.
Qed.

Lemma groupByRank_groups (cards : list Card.t) :
  Forall (λ g, g ≠ [] ∧ g ⊆ cards) (groupByRank cards).
Proof.
  unfold groupByRank. rewrite sortBy_perm.
  assert (Hgen : ∀ (cs seen : list Card.t) (groups : list (Z * list Card.t)),
            Forall (λ kg, kg.2 ≠ [] ∧ kg.2 ⊆ seen) groups →
            Forall (λ kg, kg.2 ≠ [] ∧ kg.2 ⊆ reverse cs ++ seen)
                   (foldl (λ groups card, pushGroup card groups) groups cs)).
  { induction cs as [|c cs IH]; intros seen groups Hall; simpl; [done|].
    rewrite reverse_cons, <- app_assoc. simpl. apply IH. by apply pushGroup_groups. }
  specialize (Hgen cards [] [] (Forall_nil_2 _)). rewrite app_nil_r in Hgen.
  apply Forall_fmap. eapply Forall_impl; [exact Hgen|]. simpl.
  intros kg [? Hsub]. split; [done|]. intros c Hc. apply Hsub in Hc.
  exact (proj1 (elem_of_reverse c cards) Hc).
Qed.

Lemma groupValue_from_cards (groups : list (list Card.t)) (cards : list Card.t) (i : nat) :
  Forall (λ g, g ≠ [] ∧ g ⊆ cards) groups → (i < length groups)%nat →
  ∃ c, c ∈ cards ∧ groupValue groups i = Card.value c.
Proof.
  intros Hall Hi. destruct (lookup_lt_is_Some_2 groups i Hi) as [g Hg].
  destruct (Forall_lookup_1 _ _ _ _ Hall Hg) as [Hne Hsub].
  unfold groupValue, firstValue. rewrite Hg. simpl.
  destruct g as [|c g]; [done|]. exists c. split; [|done]. apply Hsub, list_elem_of_here.
Qed.

Lemma checkStraight_from_cards (cards : list Card.t) (v : Z) :
  checkStraight cards = Some v → ∃ c, c ∈ cards ∧ v = Card.value c.
Proof.
  unfold checkStraight.
  set (values := sortBy (λ a b, b - a) (Card.value <$> cards)).
  assert (Hin : ∀ i x, values !! i = Some x → ∃ c, c ∈ cards ∧ x = Card.value c).
  { intros i x Hx. apply list_elem_of_lookup_2 in Hx. unfold values in Hx.
    rewrite sortBy_perm in Hx. apply list_elem_of_fmap in Hx as (c & -> & Hc). by exists c. }
  destruct (isStraightLoop values); [by apply Hin|].
  case_bool_decide as Hw; [|done]. intros [= <-].
  destruct Hw as (_ & H5 & _). by eapply Hin.
Qed.

Lemma truthy_Some (sv : option Z) : truthy sv = true → ∃ v, sv = Some v.
Proof. destruct sv; [eauto|done]. Qed.

Lemma evaluate5Cards_shape (cards : list Card.t) :
  cards ≠ [] →
  ∃ h, evaluate5Cards cards = Some h ∧
    Hand.cards h ≡ₚ cards ∧
    StronglySorted (λ a b, Card.value b - Card.value a <= 0) (Hand.cards h) ∧
    1 <= Hand.ranking h <= 10 ∧
    Hand.values h ≠ [] ∧
    Forall (λ v, ∃ c, c ∈ cards ∧ v = Card.value c) (Hand.values h).
Proof.
  intros Hne. unfold evaluate5Cards.
  pose proof (sortBy_perm (λ a b, Card.value b - Card.value a) cards) as Hperm.
  pose proof (sortBy_sorted (λ a b : Card.t, Card.value b - Card.value a) cards
                ltac:(intros; lia) ltac:(intros; lia)) as Hsorted.
  remember (sortBy (λ a b, Card.value b - Card.value a) cards) as sorted eqn:Hdef.
  clear Hdef.
  assert (Hin : ∀ c, c ∈ sorted → c ∈ cards) by (intros c; by rewrite Hperm).
  pose proof (groupByRank_groups sorted) as Hgroups.
  assert (Hsv : ∀ v, checkStraight sorted = Some v → ∃ c, c ∈ cards ∧ v = Card.value c).
  { intros v (c & Hc & ->)%checkStraight_from_cards. exists c. split; [by apply Hin|done]. }
  assert (Hgv : ∀ i, (i < length (groupByRank sorted))%nat →
                     ∃ c, c ∈ cards ∧ groupValue (groupByRank sorted) i = Card.value c).
  { intros i Hi. destruct (groupValue_from_cards _ sorted i Hgroups Hi) as (c & Hc & ->).
    exists c. split; [by apply Hin|done]. }
  assert (Hvals : Forall (λ v, ∃ c, c ∈ cards ∧ v = Card.value c) (Card.value <$> sorted)).
  { apply Forall_fmap, Forall_forall. intros c Hc. exists c. split; [by apply Hin|done]. }
  assert (Hvne : Card.value <$> sorted ≠ []).
  { intros Hnil%fmap_nil_inv. apply Hne. apply Permutation_nil. by rewrite <- Hperm, Hnil. }
  assert (Hflush : ∃ b, checkFlush sorted = Some b).
  { destruct sorted; [done|]. simpl. eauto. }
  destruct Hflush as [isFlush ->]. cbn [mbind option_bind].
  eexists. split; [reflexivity|].
  generalize dependent (checkStraight sorted). intros sv Hsv.
  generalize dependent (groupByRank sorted). intros groups Hgroups Hgv.
  repeat match goal with
         | |- context [if ?b then _ else _] => destruct b eqn:?
         end; simpl;
    repeat match goal with
           | H : _ && _ = true |- _ => apply andb_true_iff in H as [? ?]
           end;
    repeat match goal with
           | H : bool_decide _ = true |- _ => apply bool_decide_eq_true in H
           end;
    (split; [done|]); (split; [done|]); (split; [unfold HAND_RANKINGS.ROYAL_FLUSH,
       HAND_RANKINGS.STRAIGHT_FLUSH, HAND_RANKINGS.FOUR_OF_A_KIND, HAND_RANKINGS.FULL_HOUSE,
       HAND_RANKINGS.FLUSH, HAND_RANKINGS.STRAIGHT, HAND_RANKINGS.THREE_OF_A_KIND,
       HAND_RANKINGS.TWO_PAIR, HAND_RANKINGS.PAIR, HAND_RANKINGS.HIGH_CARD; lia|]);
    (split; [done|]);
    try done;
    repeat (apply Forall_cons; split; [|]); try apply Forall_nil_2;
    try (apply Hgv; lia);
    try (by apply Hsv).
  all: match goal with H : truthy ?x = true |- _ => apply truthy_Some in H as [v ->] end.
  all: simpl; by apply Hsv.
Qed.

(** X5. Whatever (non-empty) cards [evaluate5Cards] is given, the hand it
    returns holds exactly those cards, sorted from the highest value down;
    its ranking is one of the ten of [HAND_RANKINGS]; and its list of values
    is not empty and holds only values of the cards given. *)
Theorem evaluate5Cards_result_shape (cards : list Card.t) :
  cards ≠ [] →
  ∃ h, evaluate5Cards cards = Some h ∧
    Hand.cards h ≡ₚ cards ∧
    StronglySorted (λ a b, Card.value b - Card.value a <= 0) (Hand.cards h) ∧
    1 <= Hand.ranking h <= 10 ∧
    Hand.values h ≠ [] ∧
    Forall (λ v, ∃ c, c ∈ cards ∧ v = Card.value c) (Hand.values h).
Proof. apply evaluate5Cards_shape. Qed.

Lemma evaluate5Cards_result_shape_witness :
  ∃ h, evaluate5Cards (take 5 sevenCards) = Some h ∧
    Hand.cards h ≡ₚ take 5 sevenCards ∧
    StronglySorted (λ a b, Card.value b - Card.value a <= 0) (Hand.cards h) ∧
    1 <= Hand.ranking h <= 10 ∧
    Hand.values h ≠ [] ∧
    Forall (λ v, ∃ c, c ∈ take 5 sevenCards ∧ v = Card.value c) (Hand.values h).
Proof. apply (evaluate5Cards_result_shape (take 5 sevenCards)). discriminate. Defined.

End MoreEvaluator.

(* ====================================================================== *)
(** * The order of the cards does not matter                               *)
(* ====================================================================== *)

Section OrderOfCards.

Import HandEvaluator.

(** ** Sorting commutes with projections the comparator factors through *)

Lemma insertBy_fmap {A B} (f : A → B) (cmpA : A → A → Z) (cmpB : B → B → Z)
    (x : A) (l : list A) :
  (∀ a b, cmpA a b = cmpB (f a) (f b)) →
  f <$> insertBy cmpA x l = insertBy cmpB (f x) (f <$> l).
Proof.
  intros Hcmp. induction l as [|y l IH]; [done|].
  cbn [insertBy fmap list_fmap]. rewrite <- Hcmp.
  destruct (cmpA x y <=? 0); [done|]. cbn [fmap list_fmap]. f_equal. apply IH.
Qed.

Lemma sortBy_fmap {A B} (f : A → B) (cmpA : A → A → Z) (cmpB : B → B → Z) (l : list A) :
  (∀ a b, cmpA a b = cmpB (f a) (f b)) →
  f <$> sortBy cmpA l = sortBy cmpB (f <$> l).
Proof.
  intros Hcmp. unfold sortBy. induction l as [|x l IH]; [done|].
  cbn [foldr fmap list_fmap]. rewrite (insertBy_fmap f cmpA cmpB) by done.
  f_equal. apply IH.
Qed.

(** A comparator that is total, transitive and separates different elements
    sorts every permutation of a list to the same list. *)
Lemma sortBy_unique {A} (cmp : A → A → Z) (l1 l2 : list A) :
  (∀ a b, cmp a b <= 0 ∨ cmp b a <= 0) →
  (∀ a b c, cmp a b <= 0 → cmp b c <= 0 → cmp a c <= 0) →
  (∀ a b, cmp a b <= 0 → cmp b a <= 0 → a = b) →
  l1 ≡ₚ l2 → sortBy cmp l1 = sortBy cmp l2.
Proof.
  intros Htotal Htrans Hanti Hperm.
  assert (AntiSymm (=) (λ a b, cmp a b <= 0)) by (intros a b; apply Hanti).
  apply (StronglySorted_unique (λ a b, cmp a b <= 0)).
  - by apply sortBy_sorted.
  - by apply sortBy_sorted.
  - by rewrite !sortBy_perm.
Qed.

Lemma sortBy_desc_unique (l1 l2 : list Z) :
  l1 ≡ₚ l2 → sortBy (λ a b, b - a) l1 = sortBy (λ a b, b - a) l2.
Proof. apply sortBy_unique; intros; lia. Qed.

(** ** The three ingredients of a five-card evaluation *)

Lemma sorted_values_perm (cards1 cards2 : list Card.t) :
  cards1 ≡ₚ cards2 →
  Card.value <$> sortBy (λ a b, Card.value b - Card.value a) cards1
  = Card.value <$> sortBy (λ a b, Card.value b - Card.value a) cards2.
Proof.
  intros Hperm. rewrite !(sortBy_fmap Card.value _ (λ a b, b - a)) by done.
  apply sortBy_desc_unique. by rewrite Hperm.
Qed.

Lemma checkStraight_perm (cards1 cards2 : list Card.t) :
  cards1 ≡ₚ cards2 → checkStraight cards1 = checkStraight cards2.
Proof.
  intros Hperm. unfold checkStraight.
  by rewrite (sortBy_desc_unique (Card.value <$> cards1) (Card.value <$> cards2))
    by by rewrite Hperm.
Qed.

Lemma checkFlush_true (cards : list Card.t) :
  checkFlush cards = Some true ↔
  cards ≠ [] ∧ ∀ c c', c ∈ cards → c' ∈ cards → Card.suit c = Card.suit c'.
Proof.
  destruct cards as [|c0 cards]; [split; [done|by intros [? _]]|].
  unfold checkFlush. split.
  - intros Hall. apply (inj Some) in Hall. split; [done|]. intros c c' Hc Hc'.
    pose proof (proj1 (List.forallb_forall _ _) Hall) as Hin.
    pose proof (Hin c (proj1 (list_elem_of_In _ _) Hc)) as Hc1.
    pose proof (Hin c' (proj1 (list_elem_of_In _ _) Hc')) as Hc2.
    apply bool_decide_eq_true in Hc1, Hc2. congruence.
  - intros [_ Hall]. f_equal. apply List.forallb_forall. intros c Hc%list_elem_of_In.
    apply bool_decide_eq_true. apply Hall; [done|apply list_elem_of_here].
Qed.

Lemma checkFlush_perm (cards1 cards2 : list Card.t) :
  cards1 ≡ₚ cards2 → checkFlush cards1 = checkFlush cards2.
Proof.
  intros Hperm.
  assert (Hiff : checkFlush cards1 = Some true ↔ checkFlush cards2 = Some true).
  { rewrite !checkFlush_true. split; intros [Hne Hall]; split.
    - intros ->. by apply Permutation_nil_r in Hperm.
    - intros c c'. rewrite <- !Hperm. apply Hall.
    - intros ->. by apply Permutation_nil_l in Hperm.
    - intros c c'. rewrite !Hperm. apply Hall. }
  destruct cards1 as [|a l1], cards2 as [|b l2];
    [done|by apply Permutation_nil_l in Hperm|by apply Permutation_nil_r in Hperm|].
  destruct (checkFlush (a :: l1)) as [[]|] eqn:H1, (checkFlush (b :: l2)) as [[]|] eqn:H2;
    try done; try (by apply Hiff in H1 || by apply Hiff in H2);
    try (destruct Hiff as [Hf _]; by specialize (Hf eq_refl));
    try (destruct Hiff as [_ Hf]; by specialize (Hf eq_refl)).
Qed.


(** ** Groups by rank *)

Lemma filter_none {A} (P : A → Prop) `{!∀ x, Decision (P x)} (l : list A) :
  (∀ x, x ∈ l → ¬ P x) → filter P l = [].
Proof.
  induction l as [|x l IH]; intros Hnone; [done|].
  rewrite filter_cons_False by (apply Hnone, list_elem_of_here).
  apply IH. intros y Hy. by apply Hnone, list_elem_of_further.
Qed.

Lemma elem_of_pushGroup (card : Card.t) (groups : list (Z * list Card.t)) (k : Z) (g : list Card.t) :
  StronglySorted Z.lt (groups.*1) →
  (k, g) ∈ pushGroup card groups →
  (k ≠ Card.value card ∧ (k, g) ∈ groups) ∨
  (k = Card.value card ∧
   ((∃ g0, (k, g0) ∈ groups ∧ g = g0 ++ [card]) ∨ (k ∉ fst <$> groups) ∧ g = [card])).
Proof.
  induction groups as [|[k0 g0] rest IH]; intros Hs Hin.
  - apply list_elem_of_singleton in Hin as [= -> ->]. right. split; [done|]. right.
    split; [apply not_elem_of_nil|done].
  - rewrite fmap_cons in Hs. apply StronglySorted_inv in Hs as [Hs Hall]. simpl in Hall.
    assert (Hrest : ∀ k' g', (k', g') ∈ rest → k0 < k').
    { intros k' g' Hkg. rewrite Forall_forall in Hall. apply Hall.
      apply list_elem_of_fmap. by exists (k', g'). }
    simpl in Hin. repeat case_bool_decide.
    + apply elem_of_cons in Hin as [[= -> ->]|Hin].
      * right. split; [done|]. left. exists g0. split; [apply list_elem_of_here|done].
      * left. specialize (Hrest _ _ Hin). split; [lia|by apply list_elem_of_further].
    + apply elem_of_cons in Hin as [[= -> ->]|Hin].
      * right. split; [done|]. right. split; [|done].
        intros [[k' g'] [Hk Hkg]]%list_elem_of_fmap. simpl in Hk.
        apply elem_of_cons in Hkg as [[= -> ->]|Hkg]; [lia|].
        specialize (Hrest _ _ Hkg). lia.
      * left. split; [|done].
        apply elem_of_cons in Hin as [[= -> ->]|Hkg]; [lia|].
        specialize (Hrest _ _ Hkg). lia.
    + apply elem_of_cons in Hin as [[= -> ->]|Hin].
      * left. split; [done|apply list_elem_of_here].
      * destruct (IH Hs Hin) as [[Hne Hkg]|[-> [(g1 & Hkg & ->)|[Hnot ->]]]].
        -- left. split; [done|by apply list_elem_of_further].
        -- right. split; [done|]. left. exists g1. split; [by apply list_elem_of_further|done].
        -- right. split; [done|]. right. split; [|done].
           rewrite fmap_cons. simpl. intros [?|?]%elem_of_cons; [lia|done].
Qed.

Lemma pushGroup_keys (card : Card.t) (groups : list (Z * list Card.t)) (k : Z) :
  k ∈ (pushGroup card groups).*1 ↔ k = Card.value card ∨ k ∈ groups.*1.
Proof.
  induction groups as [|[k0 g0] rest IH]; simpl.
  - rewrite list_elem_of_singleton. split; [by left|]. intros [?|?%elem_of_nil]; done.
  - repeat case_bool_decide; rewrite ?fmap_cons; simpl; rewrite ?elem_of_cons.
    + subst k0. tauto.
    + tauto.
    + rewrite IH. tauto.
Qed.

Lemma pushGroup_sorted (card : Card.t) (groups : list (Z * list Card.t)) :
  StronglySorted Z.lt (groups.*1) → StronglySorted Z.lt ((pushGroup card groups).*1).
Proof.
  induction groups as [|[k0 g0] rest IH]; intros Hs; simpl.
  - repeat constructor.
  - rewrite fmap_cons in Hs. simpl in Hs.
    pose proof Hs as Hs0. apply StronglySorted_inv in Hs as [Hs Hall].
    repeat case_bool_decide; rewrite ?fmap_cons; simpl.
    + done.
    + constructor; [done|]. constructor; [done|].
      eapply Forall_impl; [exact Hall|]. simpl. intros; lia.
    + constructor; [by apply IH|]. apply Forall_forall. intros k [->|Hk]%pushGroup_keys; [lia|].
      rewrite Forall_forall in Hall. by apply Hall.
Qed.

(** After the cards [seen] have been pushed, the groups are keyed by the
    values seen, in ascending order, and the group of a value holds the cards
    of that value in the order they were seen. *)
Lemma groups_after (cards : list Card.t) :
  let groups := foldl (λ groups card, pushGroup card groups) [] cards in
  StronglySorted Z.lt (groups.*1) ∧
  (∀ k, k ∈ groups.*1 ↔ k ∈ Card.value <$> cards) ∧
  (∀ k g, (k, g) ∈ groups → g = filter (λ c, Card.value c = k) cards ∧ g ≠ []).
Proof.
  assert (Hgen : ∀ (cs seen : list Card.t) (groups : list (Z * list Card.t)),
    StronglySorted Z.lt (groups.*1) ∧
    (∀ k, k ∈ groups.*1 ↔ k ∈ Card.value <$> seen) ∧
    (∀ k g, (k, g) ∈ groups → g = filter (λ c, Card.value c = k) seen ∧ g ≠ []) →
    let groups' := foldl (λ groups card, pushGroup card groups) groups cs in
    StronglySorted Z.lt (groups'.*1) ∧
    (∀ k, k ∈ groups'.*1 ↔ k ∈ Card.value <$> (seen ++ cs)) ∧
    (∀ k g, (k, g) ∈ groups' → g = filter (λ c, Card.value c = k) (seen ++ cs) ∧ g ≠ [])).
  { induction cs as [|c cs IH]; intros seen groups (Hs & Hkeys & Hcontent).
    - simpl. by rewrite app_nil_r.
    - simpl. replace (seen ++ c :: cs) with ((seen ++ [c]) ++ cs) by (by rewrite <- app_assoc).
      apply IH. split; [by apply pushGroup_sorted|]. split.
      + intros k. rewrite pushGroup_keys, Hkeys, fmap_app, elem_of_app, fmap_cons.
        rewrite list_elem_of_singleton. tauto.
      + intros k g Hkg. rewrite filter_app.
        destruct (elem_of_pushGroup _ _ _ _ Hs Hkg) as [[Hne Hin]|[-> [(g1 & Hin & ->)|[Hnot ->]]]].
        * destruct (Hcontent _ _ Hin) as [-> Hnn]. split; [|done].
          rewrite filter_cons_False by done. by rewrite filter_nil, app_nil_r.
        * destruct (Hcontent _ _ Hin) as [-> Hnn]. split; [|by destruct (filter _ seen)].
          by rewrite filter_cons_True, filter_nil.
        * split; [|done]. rewrite filter_cons_True, filter_nil by done.
          rewrite (filter_none _ seen); [done|].
          intros c0 Hc0 Heq. apply Hnot, Hkeys, list_elem_of_fmap. by exists c0. }
  intros groups. destruct (Hgen cards [] []) as (Hs & Hkeys & Hcontent).
  { split; [constructor|]. split; [done|]. by intros k g ?%elem_of_nil. }
  done.
Qed.

Lemma filter_length_perm (k : Z) (cards1 cards2 : list Card.t) :
  cards1 ≡ₚ cards2 →
  length (filter (λ c, Card.value c = k) cards1) = length (filter (λ c, Card.value c = k) cards2).
Proof. intros Hperm. by rewrite Hperm. Qed.

(** What the classification reads off a group: its size and the value of its
    first card. *)
Lemma groupByRank_perm (cards1 cards2 : list Card.t) :
  cards1 ≡ₚ cards2 →
  (λ g, (length g, firstValue g)) <$> groupByRank cards1
  = (λ g, (length g, firstValue g)) <$> groupByRank cards2.
Proof.
  intros Hperm. unfold groupByRank.
  rewrite !(sortBy_fmap (λ g : list Card.t, (length g, firstValue g)) _
             (λ a b : nat * Z, if bool_decide (b.1 ≠ a.1)
                               then Z.of_nat b.1 - Z.of_nat a.1 else b.2 - a.2)) by done.
  f_equal.
  destruct (groups_after cards1) as (Hs1 & Hk1 & Hc1).
  destruct (groups_after cards2) as (Hs2 & Hk2 & Hc2).
  set (groups1 := foldl (λ groups card, pushGroup card groups) [] cards1) in *.
  set (groups2 := foldl (λ groups card, pushGroup card groups) [] cards2) in *.
  assert (Hview : ∀ cards (groups : list (Z * list Card.t)),
    (∀ k g, (k, g) ∈ groups → g = filter (λ c, Card.value c = k) cards ∧ g ≠ []) →
    (λ g, (length g, firstValue g)) <$> groups.*2
    = (λ k, (length (filter (λ c, Card.value c = k) cards), k)) <$> groups.*1).
  { intros cards groups Hc. rewrite <- !list_fmap_compose.
    apply list_fmap_ext. intros i [k g] Hi. simpl.
    destruct (Hc k g) as [Hg Hne]; [by eapply list_elem_of_lookup_2|].
    f_equal; [by rewrite Hg at 1|].
    destruct g as [|c g]; [done|]. unfold firstValue. simpl.
    assert (Hin : c ∈ filter (λ c, Card.value c = k) cards)
      by (rewrite <- Hg; apply list_elem_of_here).
    by apply list_elem_of_filter in Hin as [? _]. }
  rewrite (Hview cards1), (Hview cards2) by done.
  assert (Hkeys : groups1.*1 = groups2.*1).
  { assert (AntiSymm (=) Z.lt) by (intros a b; lia).
    assert (Hnd : ∀ l, StronglySorted Z.lt l → NoDup l).
    { induction 1 as [|x l Hl IH Hall]; constructor; [|done].
      intros Hx. rewrite Forall_forall in Hall. specialize (Hall _ Hx). lia. }
    apply (StronglySorted_unique Z.lt); [done..|].
    apply NoDup_Permutation; [by apply Hnd..|].
    intros k. rewrite Hk1, Hk2. by rewrite Hperm. }
  rewrite Hkeys. apply list_fmap_ext. intros i k _. simpl. f_equal.
  by apply filter_length_perm.
Qed.



Lemma groups_read_through_view (groups1 groups2 : list (list Card.t)) :
  (λ g, (length g, firstValue g)) <$> groups1 = (λ g, (length g, firstValue g)) <$> groups2 →
  length groups1 = length groups2 ∧
  (∀ i, groupLength groups1 i = groupLength groups2 i) ∧
  (∀ i, groupValue groups1 i = groupValue groups2 i).
Proof.
  intros Hview. split; [|split].
  - by rewrite <- (length_fmap (λ g, (length g, firstValue g)) groups1), Hview, length_fmap.
  - intros i. unfold groupLength.
    assert (Hi : ((λ g, (length g, firstValue g)) <$> groups1) !! i
                 = ((λ g, (length g, firstValue g)) <$> groups2) !! i) by by rewrite Hview.
    rewrite !list_lookup_fmap in Hi.
    destruct (groups1 !! i), (groups2 !! i); simpl in *; congruence.
  - intros i. unfold groupValue.
    assert (Hi : ((λ g, (length g, firstValue g)) <$> groups1) !! i
                 = ((λ g, (length g, firstValue g)) <$> groups2) !! i) by by rewrite Hview.
    rewrite !list_lookup_fmap in Hi.
    destruct (groups1 !! i), (groups2 !! i); simpl in *; congruence.
Qed.

Lemma compareHands_reads (a a' b b' : Hand.t) :
  Hand.ranking a = Hand.ranking a' → Hand.values a = Hand.values a' →
  Hand.ranking b = Hand.ranking b' → Hand.values b = Hand.values b' →
  compareHands a b = compareHands a' b'.
Proof. intros Hr Hv Hr' Hv'. unfold compareHands. by rewrite Hr, Hv, Hr', Hv'. Qed.

Lemma evaluate5Cards_perm (cards1 cards2 : list Card.t) :
  cards1 ≡ₚ cards2 →
  (λ h, (Hand.ranking h, Hand.name h, Hand.values h)) <$> evaluate5Cards cards1
  = (λ h, (Hand.ranking h, Hand.name h, Hand.values h)) <$> evaluate5Cards cards2.
Proof.
  intros Hperm. unfold evaluate5Cards.
  assert (Hsorted : sortBy (λ a b, Card.value b - Card.value a) cards1
                    ≡ₚ sortBy (λ a b, Card.value b - Card.value a) cards2)
    by by rewrite !sortBy_perm.
  pose proof (sorted_values_perm _ _ Hperm) as Hvalues.
  revert Hsorted Hvalues.
  generalize (sortBy (λ a b, Card.value b - Card.value a) cards1).
  generalize (sortBy (λ a b, Card.value b - Card.value a) cards2).
  intros sorted2 sorted1 Hsorted Hvalues.
  rewrite (checkFlush_perm _ _ Hsorted), (checkStraight_perm _ _ Hsorted), Hvalues.
  destruct (groups_read_through_view _ _ (groupByRank_perm _ _ Hsorted)) as (Hlen & Hgl & Hgv).
  revert Hlen Hgl Hgv.
  generalize (groupByRank sorted1). generalize (groupByRank sorted2).
  intros groups2 groups1 Hlen Hgl Hgv. rewrite Hlen, !Hgl, !Hgv.
  destruct (checkFlush sorted2) as [isFlush|]; [|done]. cbn [mbind option_bind fmap option_fmap option_map].
  f_equal.
  repeat match goal with
         | |- context [if ?b then _ else _] => destruct b
         end; reflexivity.
Qed.

(** X6. What [evaluate5Cards] reports about a hand (its ranking, its name and
    its list of values) does not depend on the order in which the cards are
    given: two arrangements of the same cards get the same three, and only the
    [cards] field can differ. *)
Theorem evaluate5Cards_order_independent (cards1 cards2 : list Card.t) :
  cards1 ≡ₚ cards2 →
  (λ h, (Hand.ranking h, Hand.name h, Hand.values h)) <$> evaluate5Cards cards1
  = (λ h, (Hand.ranking h, Hand.name h, Hand.values h)) <$> evaluate5Cards cards2.
Proof. apply evaluate5Cards_perm. Qed.

Lemma evaluate5Cards_order_independent_witness :
  (λ h, (Hand.ranking h, Hand.name h, Hand.values h)) <$> evaluate5Cards (take 5 sevenCards)
  = (λ h, (Hand.ranking h, Hand.name h, Hand.values h))
      <$> evaluate5Cards (reverse (take 5 sevenCards)).
Proof.
  apply (evaluate5Cards_order_independent (take 5 sevenCards) (reverse (take 5 sevenCards))).
  symmetry. apply reverse_Permutation.
Defined.

(** X7. The strength [evaluateHand] finds does not depend on the order of the
    cards either: given two arrangements of the same cards it throws on both
    (fewer than five cards) or returns two hands that [compareHands] reports
    as equal and that have the same ranking, although for six and seven cards
    the subsets are tried in a different order. *)
Theorem evaluateHand_order_independent (cards1 cards2 : list Card.t) :
  cards1 ≡ₚ cards2 →
  match evaluateHand cards1, evaluateHand cards2 with
  | Some (Some h1), Some (Some h2) =>
      compareHands h1 h2 = 0 ∧ Hand.ranking h1 = Hand.ranking h2
  | None, None => (length cards1 < 5)%nat
  | _, _ => False
  end.
Proof.
  intros Hperm.
  assert (Hzero : ∀ h1 h2, compareHands h1 h2 = 0 →
                           compareHands h1 h2 = 0 ∧ Hand.ranking h1 = Hand.ranking h2).
  { intros h1 h2 H0. split; [done|]. by apply compareHands_zero_iff in H0 as [? _]. }
  assert (Hfive : ∀ c1 c2 h1 h2, c1 ≡ₚ c2 → evaluate5Cards c1 = Some h1 →
                    evaluate5Cards c2 = Some h2 →
                    Hand.ranking h1 = Hand.ranking h2 ∧ Hand.values h1 = Hand.values h2).
  { intros c1 c2 h1 h2 Hp H1 H2. pose proof (evaluate5Cards_perm _ _ Hp) as Heq.
    rewrite H1, H2 in Heq. simpl in Heq. by injection Heq as -> _ ->. }
  pose proof (Permutation_length Hperm) as Hlen.
  unfold evaluateHand, findBest5CardHand. rewrite <- Hlen.
  destruct (Nat.ltb_spec (length cards1) 5) as [Hlt|Hge]; [done|].
  assert (Hloop : ∀ ca cb ha hb, ca ≡ₚ cb →
            bestHandLoop (getCombinations ca 5) None = Some (Some ha) →
            bestHandLoop (getCombinations cb 5) None = Some (Some hb) →
            compareHands ha hb >= 0).
  { intros ca cb ha hb Hp Ha Hb.
    assert (Hall : ∀ cs : list Card.t, Forall (λ combo : list Card.t, combo ≠ []) (getCombinations cs 5)).
    { intros cs. apply Forall_forall. intros c [_ Hc]%elem_of_getCombinations. by destruct c. }
    destruct (bestHandLoop_spec _ None (Hall ca)) as (ra & Hra & _ & Hsa & _).
    destruct (bestHandLoop_spec _ None (Hall cb)) as (rb & Hrb & _ & Hsb & _).
    rewrite Ha in Hra. rewrite Hb in Hrb. simplify_eq.
    destruct (Hsa ha eq_refl) as (_ & _ & Hmax).
    destruct (Hsb hb eq_refl) as ([?|(combo & Hcombo & Hev)] & _ & _); [done|].
    apply elem_of_getCombinations in Hcombo as [Hsub Hl5].
    destruct (sublist_Permutation combo cb ca Hsub) as (combo' & Hp' & Hsub'); [done|].
    destruct (Hmax combo') as (h' & Hh' & Hcmp).
    { apply elem_of_getCombinations. split; [done|]. by rewrite <- Hp'. }
    destruct (Hfive _ _ _ _ Hp' Hev Hh') as [Hr Hv].
    by rewrite (compareHands_reads ha ha hb h'). }
  assert (Hboth : (length cards1 = 6 ∨ length cards1 = 7)%nat →
    match bestHandLoop (getCombinations cards1 5) None,
          bestHandLoop (getCombinations cards2 5) None with
    | Some (Some h1), Some (Some h2) =>
        compareHands h1 h2 = 0 ∧ Hand.ranking h1 = Hand.ranking h2
    | None, None => (length cards1 < 5)%nat
    | _, _ => False
    end).
  { intros H67.
    destruct (evaluateHand_returns cards1) as [h1 H1]; [lia|].
    destruct (evaluateHand_returns cards2) as [h2 H2]; [lia|].
    unfold evaluateHand, findBest5CardHand in H1, H2. rewrite <- Hlen in H2.
    destruct (Nat.ltb_spec (length cards1) 5) as [?|_]; [lia|].
    assert (H1' : bestHandLoop (getCombinations cards1 5) None = Some (Some h1))
      by (destruct H67 as [H6|H7]; [by rewrite H6 in H1|by rewrite H7 in H1]).
    assert (H2' : bestHandLoop (getCombinations cards2 5) None = Some (Some h2))
      by (destruct H67 as [H6|H7]; [by rewrite H6 in H2|by rewrite H7 in H2]).
    rewrite H1', H2'. apply Hzero.
    pose proof (Hloop _ _ _ _ Hperm H1' H2') as Hab.
    pose proof (Hloop _ _ _ _ (symmetry Hperm) H2' H1') as Hba.
    rewrite (compareHands_antisym h1 h2) in Hba. lia. }
  destruct (Nat.eqb_spec (length cards1) 7) as [H7|_]; [apply Hboth; lia|].
  destruct (Nat.eqb_spec (length cards1) 6) as [H6|_]; [apply Hboth; lia|].
  destruct (evaluate5Cards_is_Some cards1) as [h1 H1]; [intros ->; simpl in Hge; lia|].
  destruct (evaluate5Cards_is_Some cards2) as [h2 H2];
    [intros ->; rewrite Hlen in Hge; simpl in Hge; lia|].
  rewrite H1, H2. simpl. apply Hzero.
  destruct (Hfive _ _ _ _ Hperm H1 H2) as [Hr Hv].
  rewrite (compareHands_reads h1 h1 h2 h1) by done. apply compareHands_refl.
Qed.

Lemma evaluateHand_order_independent_witness :
  match evaluateHand sevenCards, evaluateHand (reverse sevenCards) with
  | Some (Some h1), Some (Some h2) =>
      compareHands h1 h2 = 0 ∧ Hand.ranking h1 = Hand.ranking h2
  | None, None => (length sevenCards < 5)%nat
  | _, _ => False
  end.
Proof.
  apply (evaluateHand_order_independent sevenCards (reverse sevenCards)).
  symmetry. apply reverse_Permutation.
Defined.

End OrderOfCards.

(* ====================================================================== *)
(** * More on the pots                                                     *)
(* ====================================================================== *)

Section MorePots.

Import PotManager.

(** ** The pots that [createPots] builds *)

Lemma betLevels_zero_first (bets : gmap Z Z) :
  (∀ k v, bets !! k = Some v → 0 ≤ v) → (∃ k, bets !! k = Some 0) →
  ∃ rest, betLevels bets = 0 :: rest.
Proof.
  intros Hnn Hzero. destruct (betLevels_spec bets) as [Hsorted Hmem].
  apply Hmem in Hzero.
  destruct (betLevels bets) as [|level0 rest]; [by apply elem_of_nil in Hzero|].
  exists rest. f_equal.
  assert (H0 : 0 ≤ level0).
  { destruct (proj1 (Hmem level0)) as [k Hk]; [apply list_elem_of_here|]. by eapply Hnn. }
  apply elem_of_cons in Hzero as [->|Hin]; [done|].
  apply StronglySorted_inv in Hsorted as [_ Hall]. rewrite Forall_forall in Hall.
  specialize (Hall 0 Hin). lia.
Qed.

Lemma addPlayer_eligible (bets : gmap Z Z) (previousLevel level : Z) (pot : Pot.t)
    (p : Player.t) :
  NoDup (Pot.eligiblePlayers pot) →
  NoDup (Pot.eligiblePlayers (addPlayer bets previousLevel level pot p)) ∧
  ∀ id, id ∈ Pot.eligiblePlayers (addPlayer bets previousLevel level pot p) ↔
        id ∈ Pot.eligiblePlayers pot ∨
        (Player.id p = id ∧ Player.folded p = false ∧ level ≤ playerBet bets p).
Proof.
  intros Hnd. unfold addPlayer, playerBet.
  destruct (Z.geb_spec (default 0 (bets !! Player.id p)) level) as [Hge|Hlt]; simpl.
  - destruct (Player.folded p) eqn:Hf; simpl.
    + split; [done|]. intros id. split; [by left|]. intros [?|(_ & ? & _)]; done.
    + case_bool_decide as Hin; simpl.
      * split; [done|]. intros id. split; [by left|]. intros [?|(<- & _ & _)]; done.
      * split.
        -- apply NoDup_app. split; [done|]. split; [|apply NoDup_singleton].
           intros x Hx ->%list_elem_of_singleton. done.
        -- intros id. rewrite elem_of_app, list_elem_of_singleton. split.
           ++ intros [?|Heq]; [by left|right]. subst id. split; [done|]. split; [done|lia].
           ++ intros [?|(<- & _ & _)]; [by left|by right].
  - split; [done|]. intros id. split; [by left|]. intros [?|(_ & _ & ?)]; [done|lia].
Qed.

Lemma potAtLevel_eligible (players : list Player.t) (bets : gmap Z Z)
    (previousLevel level : Z) :
  NoDup (Pot.eligiblePlayers (potAtLevel players bets previousLevel level)) ∧
  ∀ id, id ∈ Pot.eligiblePlayers (potAtLevel players bets previousLevel level) ↔
        ∃ p, p ∈ players ∧ Player.id p = id ∧ Player.folded p = false ∧
             level ≤ playerBet bets p.
Proof.
  unfold potAtLevel.
  assert (Hgen : ∀ (ps : list Player.t) (pot : Pot.t), NoDup (Pot.eligiblePlayers pot) →
    NoDup (Pot.eligiblePlayers (foldl (addPlayer bets previousLevel level) pot ps)) ∧
    ∀ id, id ∈ Pot.eligiblePlayers (foldl (addPlayer bets previousLevel level) pot ps) ↔
          id ∈ Pot.eligiblePlayers pot ∨
          ∃ p, p ∈ ps ∧ Player.id p = id ∧ Player.folded p = false ∧
               level ≤ playerBet bets p).
  { induction ps as [|p ps IH]; intros pot Hnd; simpl.
    - split; [done|]. intros id. split; [by left|].
      intros [?|(p & ?%elem_of_nil & _)]; done.
    - destruct (addPlayer_eligible bets previousLevel level pot p Hnd) as [Hnd' Hmem].
      destruct (IH _ Hnd') as [Hnd'' Hmem'']. split; [done|].
      intros id. rewrite Hmem'', Hmem. split.
      + intros [[?|Hp]|(q & Hq & Hrest)]; [by left|right..].
        * exists p. split; [apply list_elem_of_here|done].
        * exists q. split; [by apply list_elem_of_further|done].
      + intros [?|(q & [->|Hq]%elem_of_cons & Hrest)]; [by left; left|by left; right|].
        right. by exists q. }
  destruct (Hgen players (Pot.mk 0 []) (NoDup_nil_2)) as [Hnd Hmem]. split; [done|].
  intros id. rewrite Hmem. simpl. split; [|by right].
  intros [?%elem_of_nil|?]; done.
Qed.

Lemma potAtLevel_amount_count (players : list Player.t) (bets : gmap Z Z)
    (previousLevel level : Z) :
  Pot.amount (potAtLevel players bets previousLevel level)
  = (level - previousLevel)
    * Z.of_nat (length (filter (λ p, level ≤ playerBet bets p) players)).
Proof.
  rewrite potAtLevel_amount. induction players as [|p ps IH].
  - rewrite filter_nil. simpl. rewrite sumZ_nil. lia.
  - rewrite fmap_cons, sumZ_cons, IH, filter_cons. unfold rung.
    destruct (Z.geb_spec (playerBet bets p) level) as [Hge|Hlt].
    + rewrite decide_True by lia. simpl length. lia.
    + rewrite decide_False by lia. lia.
Qed.

Lemma potsFromLevels_acc (players : list Player.t) (bets : gmap Z Z) (levels : list Z) :
  ∀ previousLevel pots,
  potsFromLevels players bets previousLevel levels pots
  = pots ++ potsFromLevels players bets previousLevel levels [].
Proof.
  induction levels as [|level rest IH]; intros previousLevel pots; simpl.
  - by rewrite app_nil_r.
  - destruct (Pot.amount (potAtLevel players bets previousLevel level) >? 0).
    + rewrite (IH level (pots ++ _)), (IH level [_]). by rewrite <- app_assoc.
    + apply IH.
Qed.

Lemma potsFromLevels_shape (players : list Player.t) (bets : gmap Z Z) (levels : list Z) :
  ∀ previousLevel,
  StronglySorted Z.lt levels →
  Forall (λ pot, ∃ below level l1 l2,
            previousLevel :: levels = l1 ++ below :: level :: l2 ∧
            pot = potAtLevel players bets below level ∧
            0 < Pot.amount pot)
         (potsFromLevels players bets previousLevel levels []) ∧
  StronglySorted (λ a b, Pot.eligiblePlayers b ⊆ Pot.eligiblePlayers a)
                 (potsFromLevels players bets previousLevel levels []).
Proof.
  induction levels as [|level rest IH]; intros previousLevel Hsorted; simpl.
  - split; constructor.
  - apply StronglySorted_inv in Hsorted as [Hrest Hall].
    destruct (IH level Hrest) as [Hshape Hnested].
    assert (Hshape' : Forall (λ pot, ∃ below level0 l1 l2,
              previousLevel :: level :: rest = l1 ++ below :: level0 :: l2 ∧
              pot = potAtLevel players bets below level0 ∧
              0 < Pot.amount pot)
             (potsFromLevels players bets level rest [])).
    { eapply Forall_impl; [exact Hshape|]. simpl.
      intros pot (below & l & l1 & l2 & Heq & Hpot & Hpos).
      exists below, l, (previousLevel :: l1), l2. split; [|done].
      by rewrite Heq. }
    destruct (Z.gtb_spec (Pot.amount (potAtLevel players bets previousLevel level)) 0)
      as [Hpos|Hnpos]; [|done].
    rewrite potsFromLevels_acc. simpl. split.
    + constructor; [|done]. exists previousLevel, level, [], rest.
      split; [done|]. split; [done|lia].
    + constructor; [done|].
      eapply Forall_impl; [exact Hshape|]. simpl.
      intros pot (below & l & l1 & l2 & Heq & -> & _) id.
      rewrite !(proj2 (potAtLevel_eligible _ _ _ _)).
      intros (p & Hp & Hid & Hf & Hle). exists p. do 3 (split; [done|]).
      assert (Hl : l ∈ rest).
      { destruct l1 as [|x l1]; simpl in Heq.
        - injection Heq as _ ->. apply list_elem_of_here.
        - injection Heq as _ ->. apply elem_of_app. right.
          apply list_elem_of_further, list_elem_of_here. }
      rewrite Forall_forall in Hall. specialize (Hall l Hl). lia.
Qed.

(** X8. Every pot that [createPots] builds holds a positive amount and lists
    no player twice; it belongs to one bet level (a value of the
    contributions map) and the level just below it in the sorted levels (or
    zero for the lowest), its amount is the difference of the two times the
    number of players who contributed at least the level, and its eligible
    players are exactly the ids of the players who have not folded and
    contributed at least the level.  Going down the
    list of pots the eligible players can only become fewer: every player
    eligible for a later pot is eligible for each earlier one. *)
Theorem createPots_pots_well_formed (players : list Player.t) (bets : gmap Z Z) :
  Forall (λ pot,
    0 < Pot.amount pot ∧ NoDup (Pot.eligiblePlayers pot) ∧
    ∃ below level l1 l2,
      0 :: betLevels bets = l1 ++ below :: level :: l2 ∧
      (∃ k, bets !! k = Some level) ∧ below < level ∧
      Pot.amount pot
      = (level - below) * Z.of_nat (length (filter (λ p, level ≤ playerBet bets p) players)) ∧
      ∀ id, id ∈ Pot.eligiblePlayers pot ↔
            ∃ p, p ∈ players ∧ Player.id p = id ∧ Player.folded p = false ∧
                 level ≤ playerBet bets p)
    (createPots players bets) ∧
  StronglySorted (λ a b, Pot.eligiblePlayers b ⊆ Pot.eligiblePlayers a)
                 (createPots players bets).
Proof.
  unfold createPots. destruct (betLevels_spec bets) as [Hsorted Hmem].
  destruct (betLevels bets) as [|level0 rest] eqn:Hlevels; [split; constructor|].
  case_bool_decide as H0; [split; constructor|].
  destruct (potsFromLevels_shape players bets (level0 :: rest) 0 Hsorted) as [Hshape Hnested].
  split; [|done].
  eapply Forall_impl; [exact Hshape|]. simpl.
  intros pot (below & level & l1 & l2 & Heq & -> & Hpos).
  split; [done|]. split; [apply potAtLevel_eligible|].
  exists below, level, l1, l2. split; [done|]. split.
  { apply Hmem. destruct l1 as [|x l1]; simpl in Heq.
    - injection Heq as _ ->. apply list_elem_of_here.
    - injection Heq as _ ->. apply elem_of_app. right.
      apply list_elem_of_further, list_elem_of_here. }
  pose proof (potAtLevel_amount_count players bets below level) as Hamount.
  split; [nia|]. split; [done|]. apply potAtLevel_eligible.
Qed.

(** ** Who is paid *)

Lemma findWinners_subset (hands : gmap Z Hand.t) (eligible : list Player.t) :
  ∀ best winners compared result compared',
  findWinners hands eligible best winners compared = Some (result, compared') →
  ∀ p, p ∈ result → p ∈ winners ∨ p ∈ eligible.
Proof.
  induction eligible as [|q rest IH]; intros best winners compared result compared' Hrun p Hp;
    simpl in Hrun.
  - injection Hrun as <- _. by left.
  - destruct best as [best|].
    + destruct (hands !! Player.id q) as [hand|]; [|done]. cbn [mbind option_bind] in Hrun.
      destruct (HandEvaluator.compareHands hand best >? 0).
      { destruct (IH _ _ _ _ _ Hrun p Hp) as [->%list_elem_of_singleton|?];
          right; [apply list_elem_of_here|by apply list_elem_of_further]. }
      destruct (HandEvaluator.compareHands hand best =? 0).
      { destruct (IH _ _ _ _ _ Hrun p Hp) as [[?| ->%list_elem_of_singleton]%elem_of_app|?];
          [by left|right; apply list_elem_of_here|right; by apply list_elem_of_further]. }
      destruct (IH _ _ _ _ _ Hrun p Hp) as [?|?];
        [by left|right; by apply list_elem_of_further].
    + destruct (IH _ _ _ _ _ Hrun p Hp) as [->%list_elem_of_singleton|?];
        right; [apply list_elem_of_here|by apply list_elem_of_further].
Qed.

Lemma splitLoop_ops (hands : gmap Z Hand.t) (share remainder : Z) (winners : list Player.t) :
  ∀ i op, op ∈ splitLoop hands share remainder winners i →
  ∃ w, w ∈ winners ∧ Operation.playerId op = Player.id w ∧ Operation.type op = Win ∧
       Operation.hand op = hands !! Player.id w.
Proof.
  induction winners as [|w rest IH]; intros i op Hop; simpl in Hop.
  - by apply elem_of_nil in Hop.
  - apply elem_of_cons in Hop as [->|Hop].
    + exists w. split; [apply list_elem_of_here|done].
    + destruct (IH _ _ Hop) as (w' & Hw' & Hrest). exists w'.
      split; [by apply list_elem_of_further|done].
Qed.

Lemma potOperations_pays_eligible (players : list Player.t) (hands : gmap Z Hand.t)
    (pot : Pot.t) (ops : list Operation.t) (compared : nat) :
  potOperations players hands pot = Some (ops, compared) →
  Forall (λ op, ∃ p, p ∈ eligibleFor players pot ∧ Operation.playerId op = Player.id p ∧
                     match Operation.type op with
                     | Return => Operation.amount op = Pot.amount pot ∧ Operation.hand op = None
                     | Win => Operation.hand op = hands !! Player.id p
                     end) ops.
Proof.
  unfold potOperations. intros Hrun. apply Forall_forall. intros op Hop.
  destruct (eligibleFor players pot) as [|p1 [|p2 rest]] eqn:Hel.
  - injection Hrun as <- _. by apply elem_of_nil in Hop.
  - injection Hrun as <- _. apply list_elem_of_singleton in Hop as ->.
    exists p1. split; [apply list_elem_of_here|done].
  - destruct (findWinners hands (p1 :: p2 :: rest) None [] 0) as [[winners c]|] eqn:Hfind;
      [|done]. cbn [mbind option_bind] in Hrun. injection Hrun as <- _.
    destruct (splitLoop_ops _ _ _ _ _ _ Hop) as (w & Hw & Hid & Hty & Hhand).
    exists w. split.
    + destruct (findWinners_subset _ _ _ _ _ _ _ Hfind w Hw) as [?%elem_of_nil|?]; done.
    + split; [done|]. by rewrite Hty.
Qed.

Lemma distributeLoop_acc (players : list Player.t) (hands : gmap Z Hand.t) (pots : list Pot.t) :
  ∀ operations compared,
  distributeLoop players hands pots operations compared
  = (λ oc, (operations ++ oc.1, (compared + oc.2)%nat))
      <$> distributeLoop players hands pots [] 0.
Proof.
  induction pots as [|pot rest IH]; intros operations compared; simpl.
  - by rewrite app_nil_r, Nat.add_0_r.
  - destruct (potOperations players hands pot) as [[ops c]|]; [|done].
    cbn [mbind option_bind]. rewrite (IH (operations ++ ops)), (IH ([] ++ ops)).
    destruct (distributeLoop players hands rest [] 0) as [[o c']|]; [|done]. simpl.
    by rewrite <- app_assoc, Nat.add_assoc.
Qed.

Lemma distributePots_cons (players : list Player.t) (hands : gmap Z Hand.t) (pot : Pot.t)
    (pots : list Pot.t) :
  distributePots (pot :: pots) players hands
  = oc ← potOperations players hands pot;
    ops ← distributePots pots players hands;
    Some (oc.1 ++ ops).
Proof.
  unfold distributePots. simpl.
  destruct (potOperations players hands pot) as [[ops c]|]; [|done].
  cbn [mbind option_bind]. rewrite distributeLoop_acc.
  by destruct (distributeLoop players hands pots [] 0) as [[o c']|].
Qed.

(** X9. [distributePots] settles the pots one after the other and
    independently: the operations for a list of pots followed by another are
    the operations for the first list followed by those for the second, and
    it throws when it throws on either. *)
Theorem distributePots_pot_by_pot (pots1 pots2 : list Pot.t) (players : list Player.t)
    (hands : gmap Z Hand.t) :
  distributePots (pots1 ++ pots2) players hands
  = ops1 ← distributePots pots1 players hands;
    ops2 ← distributePots pots2 players hands;
    Some (ops1 ++ ops2).
Proof.
  induction pots1 as [|pot pots1 IH].
  - simpl. by destruct (distributePots pots2 players hands).
  - rewrite <- app_comm_cons, !distributePots_cons, IH.
    destruct (potOperations players hands pot) as [[ops c]|]; [|done].
    cbn [mbind option_bind].
    destruct (distributePots pots1 players hands) as [ops1|]; [|done].
    cbn [mbind option_bind].
    destruct (distributePots pots2 players hands) as [ops2|]; [|done].
    cbn [mbind option_bind]. by rewrite app_assoc.
Qed.

(** X10. Whatever [distributePots] returns, every operation pays a player
    of the [players] argument who has not folded and is listed as eligible
    for one of the pots; a return carries that pot's whole amount and no
    hand, a win carries the player's entry of the hand evaluations.  A folded
    player is never paid. *)
Theorem distributePots_pays_only_eligible (pots : list Pot.t) (players : list Player.t)
    (hands : gmap Z Hand.t) (ops : list Operation.t) :
  distributePots pots players hands = Some ops →
  Forall (λ op, ∃ pot p,
            pot ∈ pots ∧ p ∈ players ∧ Operation.playerId op = Player.id p ∧
            Player.folded p = false ∧ Player.id p ∈ Pot.eligiblePlayers pot ∧
            match Operation.type op with
            | Return => Operation.amount op = Pot.amount pot ∧ Operation.hand op = None
            | Win => Operation.hand op = hands !! Player.id p
            end) ops.
Proof.
  revert ops. induction pots as [|pot pots IH]; intros ops Hrun.
  - injection Hrun as <-. constructor.
  - rewrite distributePots_cons in Hrun.
    destruct (potOperations players hands pot) as [[ops1 c]|] eqn:Hpot; [|done].
    cbn [mbind option_bind] in Hrun.
    destruct (distributePots pots players hands) as [ops2|]; [|done].
    cbn [mbind option_bind] in Hrun. injection Hrun as <-. simpl.
    apply Forall_app. split.
    + eapply Forall_impl; [exact (potOperations_pays_eligible _ _ _ _ _ Hpot)|]. simpl.
      intros op (p & Hp & Hid & Hty). exists pot, p.
      apply list_elem_of_filter in Hp as [[Hin Hf] Hp].
      split; [apply list_elem_of_here|]. done.
    + eapply Forall_impl; [exact (IH _ eq_refl)|]. simpl.
      intros op (pot' & p & Hpot' & Hrest). exists pot', p.
      split; [by apply list_elem_of_further|done].
Qed.

Lemma distributePots_pays_only_eligible_witness :
  Forall (λ op, ∃ pot p,
            pot ∈ [Pot.mk 101 [0; 1]; Pot.mk 50 [0]] ∧ p ∈ [seatP0; seatP1] ∧
            Operation.playerId op = Player.id p ∧
            Player.folded p = false ∧ Player.id p ∈ Pot.eligiblePlayers pot ∧
            match Operation.type op with
            | Return => Operation.amount op = Pot.amount pot ∧ Operation.hand op = None
            | Win => Operation.hand op
                     = (<[0 := pairOfAcesKingKicker]> (<[1 := pairOfAcesQueenKicker]> ∅)
                          : gmap Z Hand.t) !! Player.id p
            end)
         [Operation.mk 0 101 Win (Some pairOfAcesKingKicker); Operation.mk 0 50 Return None].
Proof.
  apply (distributePots_pays_only_eligible [Pot.mk 101 [0; 1]; Pot.mk 50 [0]]
           [seatP0; seatP1] (<[0 := pairOfAcesKingKicker]> (<[1 := pairOfAcesQueenKicker]> ∅))).
  vm_compute. reflexivity.
Defined.


(** ** When [distributePots] throws *)

Lemma findWinners_None_iff (hands : gmap Z Hand.t) (eligible : list Player.t) :
  ∀ best winners compared,
  findWinners hands eligible best winners compared = None ↔
  (is_Some best ∧ ∃ q, q ∈ eligible ∧ hands !! Player.id q = None) ∨
  (∃ l1 p l2 q, eligible = l1 ++ p :: l2 ∧ is_Some (hands !! Player.id p) ∧
                q ∈ l2 ∧ hands !! Player.id q = None).
Proof.
  induction eligible as [|q0 rest IH]; intros best winners compared.
  - simpl. split; [done|].
    intros [(_ & q & ?%elem_of_nil & _)|(l1 & p & l2 & q & Heq & _)]; [done|].
    by destruct l1.
  - assert (Hlift : ∀ b w c,
      findWinners hands rest (Some b) w c = None ↔
      (∃ q, q ∈ rest ∧ hands !! Player.id q = None)).
    { intros b w c. rewrite IH. split.
      - intros [(_ & Hq)|(l1 & p & l2 & q & -> & _ & Hq & Hnone)]; [done|].
        exists q. split; [|done]. apply elem_of_app. right. by apply list_elem_of_further.
      - intros Hq. left. split; [by eexists|done]. }
    simpl. destruct best as [best|].
    + destruct (hands !! Player.id q0) as [hand|] eqn:Hq0; cbn [mbind option_bind].
      * assert (Hgoal : (∃ q, q ∈ rest ∧ hands !! Player.id q = None) ↔
          (is_Some (Some best) ∧ ∃ q, q ∈ q0 :: rest ∧ hands !! Player.id q = None) ∨
          (∃ l1 p l2 q, q0 :: rest = l1 ++ p :: l2 ∧ is_Some (hands !! Player.id p) ∧
                        q ∈ l2 ∧ hands !! Player.id q = None)).
        { split.
          - intros (q & Hq & Hnone). left. split; [by eexists|]. exists q.
            split; [by apply list_elem_of_further|done].
          - intros [(_ & q & [->|Hq]%elem_of_cons & Hnone)|(l1 & p & l2 & q & Heq & Hp & Hq & Hnone)].
            + congruence.
            + by exists q.
            + exists q. split; [|done]. destruct l1 as [|x l1]; simpl in Heq.
              * by injection Heq as _ ->.
              * injection Heq as _ ->. apply elem_of_app. right.
                by apply list_elem_of_further. }
        destruct (HandEvaluator.compareHands hand best >? 0); [by rewrite Hlift|].
        destruct (HandEvaluator.compareHands hand best =? 0); by rewrite Hlift.
      * split; [|done]. intros _. left. split; [by eexists|]. exists q0.
        split; [apply list_elem_of_here|done].
    + rewrite IH. split.
      * intros [(Hsome & q & Hq & Hnone)|(l1 & p & l2 & q & -> & Hp & Hq & Hnone)]; right.
        -- by exists [], q0, rest, q.
        -- by exists (q0 :: l1), p, l2, q.
      * intros [([? ?] & _)|(l1 & p & l2 & q & Heq & Hp & Hq & Hnone)]; [done|].
        destruct l1 as [|x l1]; simpl in Heq.
        -- injection Heq as -> ->. left. split; [done|]. by exists q.
        -- injection Heq as _ ->. right. by exists l1, p, l2, q.
Qed.

Lemma potOperations_None_iff (players : list Player.t) (hands : gmap Z Hand.t) (pot : Pot.t) :
  potOperations players hands pot = None ↔
  ∃ l1 p l2 q, eligibleFor players pot = l1 ++ p :: l2 ∧ is_Some (hands !! Player.id p) ∧
               q ∈ l2 ∧ hands !! Player.id q = None.
Proof.
  unfold potOperations.
  destruct (eligibleFor players pot) as [|p1 [|p2 rest]] eqn:Hel.
  - split; [done|]. intros (l1 & ? & ? & ? & Heq & _). by destruct l1.
  - split; [done|]. intros (l1 & ? & ? & q & Heq & _ & Hq & _).
    destruct l1 as [|? l1]; simpl in Heq.
    + injection Heq as _ <-. by apply elem_of_nil in Hq.
    + injection Heq as _ Heq. by destruct l1.
  - pose proof (findWinners_None_iff hands (p1 :: p2 :: rest) None [] 0) as Hiff.
    destruct (findWinners hands (p1 :: p2 :: rest) None [] 0) as [[w c]|] eqn:Hfind;
      cbn [mbind option_bind].
    + split; [done|]. intros Hdec.
      assert (Hnone : Some (w, c) = None) by (apply Hiff; by right). done.
    + split; [|done]. intros _. by destruct (proj1 Hiff eq_refl) as [([? ?] & _)|?].
Qed.

(** X11. [distributePots] throws exactly when, for some pot, among the
    players left eligible (in the order of the [players] argument) one
    without a hand evaluation comes after one with an evaluation: then
    [compareHands] is called on [undefined].  In particular it never throws
    for pots with fewer than two such players, nor when no eligible player
    has an evaluation. *)
Theorem distributePots_throws_iff (pots : list Pot.t) (players : list Player.t)
    (hands : gmap Z Hand.t) :
  distributePots pots players hands = None ↔
  ∃ pot l1 p l2 q,
    pot ∈ pots ∧ eligibleFor players pot = l1 ++ p :: l2 ∧
    is_Some (hands !! Player.id p) ∧ q ∈ l2 ∧ hands !! Player.id q = None.
Proof.
  induction pots as [|pot pots IH].
  - split; [done|]. intros (? & ? & ? & ? & ? & ?%elem_of_nil & _). done.
  - rewrite distributePots_cons.
    destruct (potOperations players hands pot) as [[ops c]|] eqn:Hpot; cbn [mbind option_bind].
    + destruct (distributePots pots players hands) as [ops2|] eqn:Hrest; cbn [mbind option_bind].
      * split; [done|]. intros (pot' & l1 & p & l2 & q & [->|Hin]%elem_of_cons & Hdec).
        -- assert (Hnone : potOperations players hands pot = None)
             by (apply potOperations_None_iff; by exists l1, p, l2, q).
           congruence.
        -- assert (Hnone : Some ops2 = None)
             by (apply IH; by exists pot', l1, p, l2, q).
           done.
      * split; [|done]. intros _.
        destruct (proj1 IH eq_refl) as (pot' & l1 & p & l2 & q & Hin & Hdec).
        exists pot', l1, p, l2, q. split; [by apply list_elem_of_further|done].
    + split; [|done]. intros _.
      apply potOperations_None_iff in Hpot as (l1 & p & l2 & q & Hdec).
      exists pot, l1, p, l2, q. split; [apply list_elem_of_here|done].
Qed.

Lemma createPots_zero (players : list Player.t) (bets : gmap Z Z) :
  (∀ k v, bets !! k = Some v → 0 ≤ v) → (∃ k, bets !! k = Some 0) →
  createPots players bets = [].
Proof.
  intros Hnn Hzero. unfold createPots.
  destruct (betLevels_zero_first bets Hnn Hzero) as [rest ->].
  by rewrite bool_decide_eq_true_2.
Qed.

(** X12. As soon as one entry of the contributions map is zero (and none is
    negative), [createPots] returns before building anything: no pot exists
    afterwards, whatever the other entries are. *)
Theorem createPots_none_when_an_entry_is_zero (players : list Player.t) (bets : gmap Z Z) :
  (∀ k v, bets !! k = Some v → 0 ≤ v) → (∃ k, bets !! k = Some 0) →
  createPots players bets = [].
Proof. apply createPots_zero. Qed.

Lemma createPots_none_when_an_entry_is_zero_witness :
  createPots [seatP0; seatP1; foldedThird] (<[0 := 10]> (<[1 := 10]> (<[2 := 0]> ∅))) = [].
Proof.
  apply createPots_none_when_an_entry_is_zero.
  - intros k v Hk.
    repeat (apply lookup_insert_Some in Hk as [[_ <-]|[_ Hk]]; [lia|]).
    by rewrite lookup_empty in Hk.
  - exists 2. vm_compute. reflexivity.
Defined.

(** X13. When the players have distinct ids, every entry of the
    contributions map belongs to one of them and every entry is positive, the
    pots that [createPots] builds hold exactly the chips contributed: the pot
    amounts sum to the sum of the contributions, folded players' chips
    included. *)
Theorem createPots_keeps_positive_contributions (players : list Player.t) (bets : gmap Z Z) :
  NoDup (Player.id <$> players) →
  (∀ k, is_Some (bets !! k) → k ∈ Player.id <$> players) →
  (∀ k v, bets !! k = Some v → 0 < v) →
  getTotalPot (createPots players bets) = sumContributions bets.
Proof. apply createPots_conserves_positive. Qed.

Lemma createPots_keeps_positive_contributions_witness :
  getTotalPot (createPots [seatP0; seatP1] (<[0 := 100]> (<[1 := 50]> ∅)))
  = sumContributions (<[0 := 100]> (<[1 := 50]> ∅)).
Proof.
  apply createPots_keeps_positive_contributions.
  - apply (bool_decide_unpack (NoDup (Player.id <$> [seatP0; seatP1]))). vm_compute. exact I.
  - intros k [v Hk].
    apply lookup_insert_Some in Hk as [[<- _]|[_ Hk]]; [apply list_elem_of_here|].
    apply lookup_insert_Some in Hk as [[<- _]|[_ Hk]];
      [apply list_elem_of_further, list_elem_of_here|].
    by rewrite lookup_empty in Hk.
  - intros k v Hk.
    repeat (apply lookup_insert_Some in Hk as [[_ <-]|[_ Hk]]; [lia|]).
    by rewrite lookup_empty in Hk.
Defined.

End MorePots.

(* ====================================================================== *)
(** * Wagers, positions and the end of a betting round                     *)
(* ====================================================================== *)

Section MorePlayers.

(** ** Wagers *)

(** X14. A wager of a non-negative amount from a non-negative stack takes
    the smaller of the amount and the stack: the stack never goes below zero,
    the chips leave the stack for [currentBet] and [totalBet], the player is
    marked all-in exactly when they already were or the amount covers the
    stack, and a player who could not pay the whole amount is left with no
    chips and can act no more. *)
Theorem bet_never_exceeds_stack (p : Player.t) (amount : Z) :
  0 ≤ amount → 0 ≤ Player.stack p →
  let p' := (Player.bet p amount).1 in
  let actualBet := (Player.bet p amount).2 in
  actualBet = Z.min amount (Player.stack p) ∧
  0 ≤ actualBet ≤ amount ∧
  0 ≤ Player.stack p' ∧
  Player.stack p' = Player.stack p - actualBet ∧
  Player.currentBet p' = Player.currentBet p + actualBet ∧
  Player.totalBet p' = Player.totalBet p + actualBet ∧
  (Player.allIn p' = true ↔ Player.allIn p = true ∨ Player.stack p ≤ amount) ∧
  (actualBet < amount → Player.stack p' = 0 ∧ Player.canAct p' = false).
Proof.
  intros Hamount Hstack. simpl.
  split; [done|]. split; [lia|]. split; [lia|]. split; [done|]. split; [done|].
  split; [done|]. split.
  - case_bool_decide; [|split; [by left|intros [?|?]; [done|lia]]].
    split; [intros _; right; lia|done].
  - intros Hlt. split; [lia|]. unfold Player.canAct. simpl.
    rewrite (bool_decide_eq_false_2 (0 < _)) by lia. by rewrite andb_false_r.
Qed.

Lemma bet_never_exceeds_stack_witness :
  (Player.bet (Player.new 0 "You" 1000 true) 1500).2 = 1000 ∧
  Player.stack (Player.bet (Player.new 0 "You" 1000 true) 1500).1 = 0 ∧
  Player.canAct (Player.bet (Player.new 0 "You" 1000 true) 1500).1 = false.
Proof.
  destruct (bet_never_exceeds_stack (Player.new 0 "You" 1000 true) 1500)
    as (Hactual & _ & _ & _ & _ & _ & _ & Hshort); [simpl; lia..|].
  split; [exact Hactual|]. apply Hshort. simpl. lia.
Defined.

(** X15. Wagering [a] and then [b] (both non-negative, from a non-negative
    stack) leaves the player exactly as one wager of [a + b] does, and the two
    amounts actually paid add up to the amount the single wager pays. *)
Theorem bet_in_two_instalments (p : Player.t) (a b : Z) :
  0 ≤ a → 0 ≤ b → 0 ≤ Player.stack p →
  (Player.bet (Player.bet p a).1 b).1 = (Player.bet p (a + b)).1 ∧
  (Player.bet p a).2 + (Player.bet (Player.bet p a).1 b).2 = (Player.bet p (a + b)).2.
Proof.
  intros Ha Hb Hs. unfold Player.bet. simpl. split; [|lia].
  f_equal; try lia.
  repeat case_bool_decide; try done; lia.
Qed.

Lemma bet_in_two_instalments_witness :
  (Player.bet (Player.bet (Player.new 0 "You" 1000 true) 300).1 900).1
  = (Player.bet (Player.new 0 "You" 1000 true) (300 + 900)).1 ∧
  (Player.bet (Player.new 0 "You" 1000 true) 300).2
  + (Player.bet (Player.bet (Player.new 0 "You" 1000 true) 300).1 900).2
  = (Player.bet (Player.new 0 "You" 1000 true) (300 + 900)).2.
Proof. apply (bet_in_two_instalments (Player.new 0 "You" 1000 true) 300 900); simpl; lia. Defined.

End MorePlayers.

Section MoreEngine.

Import TexasHoldemGame.

Lemma positionFromDealer_distance (seatIndex dealerIndex numPlayers : nat) :
  (seatIndex < numPlayers)%nat → (dealerIndex < numPlayers)%nat →
  positionFromDealer (Z.of_nat seatIndex) (Z.of_nat dealerIndex) (Z.of_nat numPlayers)
  = let distance := ((seatIndex + numPlayers - dealerIndex) `mod` numPlayers)%nat in
    if (distance <=? 2)%nat then early else if (distance <=? 4)%nat then middle else late.
Proof.
  intros Hs Hd. unfold positionFromDealer.
  rewrite bool_decide_eq_false_2 by lia.
  rewrite Z.rem_mod_nonneg by lia.
  replace (Z.of_nat seatIndex - Z.of_nat dealerIndex + Z.of_nat numPlayers)
    with (Z.of_nat (seatIndex + numPlayers - dealerIndex)) by lia.
  rewrite <- Nat2Z.inj_mod. simpl.
  set (distance := ((seatIndex + numPlayers - dealerIndex) `mod` numPlayers)%nat).
  destruct (Z.leb_spec (Z.of_nat distance) 2), (Nat.leb_spec distance 2); try lia; [done|].
  destruct (Z.leb_spec (Z.of_nat distance) 4), (Nat.leb_spec distance 4); try lia; done.
Qed.

(** X16. For a seat at the table, [getPlayerPosition] of the engine and
    [getPosition] of the bots' decision engine give the same label, decided
    by the number of seats from the dealer round to the player: up to two
    seats ['early'], three or four ['middle'], more ['late'].  So the dealer
    and both blinds are always ['early'], and so is everybody at a table of
    three or fewer. *)
Theorem positions_count_seats_after_dealer (g : t) (playerIndex : nat) :
  (playerIndex < length (players g))%nat → (dealerIndex g < length (players g))%nat →
  let n := length (players g) in
  let distance := ((playerIndex + n - dealerIndex g) `mod` n)%nat in
  let position := if (distance <=? 2)%nat then early
                  else if (distance <=? 4)%nat then middle else late in
  getPlayerPosition g (Z.of_nat playerIndex) = position ∧
  BotDecisionEngine.getPosition (Z.of_nat playerIndex) (Z.of_nat (dealerIndex g)) (Z.of_nat n)
  = position ∧
  (playerIndex = dealerIndex g ∨ playerIndex = seatMod g (dealerIndex g + 1)
   ∨ playerIndex = seatMod g (dealerIndex g + 2) ∨ (n ≤ 3)%nat → position = early).
Proof.
  intros Hp Hd n distance position.
  split; [by apply positionFromDealer_distance|].
  split; [by apply positionFromDealer_distance|].
  assert (Hdist : (distance < n)%nat) by (apply Nat.mod_upper_bound; lia).
  assert (Hgoal : (distance ≤ 2)%nat → position = early).
  { intros Hle. unfold position. by destruct (Nat.leb_spec distance 2); [|lia]. }
  intros Hcase. apply Hgoal. unfold seatMod in Hcase. fold n in Hcase. unfold distance.
  destruct Hcase as [->|[->|[->|Hn]]].
  - replace (dealerIndex g + n - dealerIndex g)%nat with n by lia.
    rewrite Nat.Div0.mod_same. lia.
  - destruct (decide (dealerIndex g + 1 < n)%nat) as [Hlt|Hge].
    + rewrite (Nat.mod_small (dealerIndex g + 1)) by done.
      replace (dealerIndex g + 1 + n - dealerIndex g)%nat with (1 + 1 * n)%nat by lia.
      rewrite Nat.Div0.mod_add. pose proof (Nat.Div0.mod_le 1 n). lia.
    + assert (dealerIndex g + 1 = n)%nat as -> by lia. rewrite Nat.Div0.mod_same. simpl.
      pose proof (Nat.mod_upper_bound (n - dealerIndex g) n). 
      replace (n - dealerIndex g)%nat with 1%nat by lia. pose proof (Nat.Div0.mod_le 1 n). lia.
  - pose proof (Nat.mod_upper_bound (dealerIndex g + 2) n ltac:(lia)) as Hm.
    pose proof (Nat.Div0.div_mod (dealerIndex g + 2) n) as Hdm.
    set (r := ((dealerIndex g + 2) `mod` n)%nat) in *.
    set (q := ((dealerIndex g + 2) `div` n)%nat) in *.
    assert (Hq : (q ≤ 1 ∨ n ≤ 2)%nat) by nia.
    destruct (decide (n ≤ 2)%nat) as [Hsmall|Hbig]; [lia|].
    assert (q = 0 ∨ q = 1)%nat as [Hq0|Hq1] by lia.
    + replace (r + n - dealerIndex g)%nat with (2 + 1 * n)%nat by nia.
      rewrite Nat.Div0.mod_add. pose proof (Nat.Div0.mod_le 2 n). lia.
    + replace (r + n - dealerIndex g)%nat with 2%nat by nia.
      pose proof (Nat.Div0.mod_le 2 n). lia.
  - lia.
Qed.

Lemma positions_count_seats_after_dealer_witness :
  getPlayerPosition flopDealt 4 = middle ∧
  BotDecisionEngine.getPosition 4 1 6 = middle.
Proof.
  destruct (positions_count_seats_after_dealer flopDealt 4) as (Hengine & Hbot & _);
    [vm_compute; lia..|].
  split; [exact Hengine|exact Hbot].
Defined.

(** ** When a betting round is complete *)

Lemma isBettingRoundComplete_spec (g : t) :
  isBettingRoundComplete g = true ↔
  ∀ p, p ∈ players g → Player.canAct p = true →
       playersActedThisRound g !! Player.id p = Some true ∧
       ∀ b, currentBets g !! Player.id p = Some b → currentBet g ≤ b.
Proof.
  assert (Hread : ∀ p, (hasActed g p = true ∧ belowCurrentBet g p = false) ↔
            (playersActedThisRound g !! Player.id p = Some true ∧
             ∀ b, currentBets g !! Player.id p = Some b → currentBet g ≤ b)).
  { intros p. unfold hasActed, belowCurrentBet. split.
    - intros [Ha Hb]. split.
      + by destruct (playersActedThisRound g !! Player.id p) as [[]|].
      + intros b Hbb. rewrite Hbb in Hb. lia.
    - intros [Ha Hb]. rewrite Ha. split; [done|].
      destruct (currentBets g !! Player.id p) as [b|]; [|done].
      specialize (Hb b eq_refl). lia. }
  split.
  - intros Hc p Hp Hact. apply Hread. by apply isBettingRoundComplete_sound.
  - intros Hall. destruct (isBettingRoundComplete g) eqn:Hc; [done|].
    unfold isBettingRoundComplete in Hc. case_bool_decide; [done|].
    match type of Hc with context [if existsb ?f ?l then false else _] =>
      destruct (existsb f l) eqn:H1 end.
    { apply existsb_exists in H1 as (p & Hp%list_elem_of_In & [Hact Hna]%andb_true_iff).
      destruct (proj2 (Hread p) (Hall p Hp Hact)) as [Hacted _].
      rewrite Hacted in Hna. done. }
    match type of Hc with context [if existsb ?f ?l then false else _] =>
      destruct (existsb f l) eqn:H2 end; [|done].
    apply existsb_exists in H2 as (p & Hp%list_elem_of_In & [Hact Hb]%andb_true_iff).
    destruct (proj2 (Hread p) (Hall p Hp Hact)) as [_ Hbelow]. congruence.
Qed.

(** X17. [isBettingRoundComplete] answers yes exactly when every player who
    can still act has acted in this round and has a contribution that is not
    below the table-high bet (a player without an entry in the contributions
    map counts as having matched it). *)
Theorem isBettingRoundComplete_iff (g : t) :
  isBettingRoundComplete g = true ↔
  ∀ p, p ∈ players g → Player.canAct p = true →
       playersActedThisRound g !! Player.id p = Some true ∧
       ∀ b, currentBets g !! Player.id p = Some b → currentBet g ≤ b.
Proof. apply isBettingRoundComplete_spec. Qed.

End MoreEngine.

(* ====================================================================== *)
(** * The start of a betting round                                         *)
(* ====================================================================== *)

Section RoundStart.

Import TexasHoldemGame.

#[local] Arguments validateGameState : simpl never.
#[local] Arguments processNextAction : simpl never.

Lemma firstToAct_nobody (players : list Player.t) :
  Forall (λ p, Player.canAct p = false) players →
  ∀ fuel i, firstToAct players i fuel = None.
Proof.
  intros Hnone. induction fuel as [|fuel IH]; intros i; simpl; [done|].
  destruct (players !! i) as [p|] eqn:Hp; [|done]. cbn [mbind option_bind].
  rewrite Forall_forall in Hnone.
  rewrite (Hnone p) by by eapply list_elem_of_lookup_2. simpl. apply IH.
Qed.

Lemma firstToAct_finds (players : list Player.t) :
  ∀ fuel i,
  (i < length players)%nat →
  (∃ k p, (k < fuel)%nat ∧ players !! ((i + k) `mod` length players)%nat = Some p ∧
          Player.canAct p = true) →
  ∃ k p, (k < fuel)%nat ∧
    firstToAct players i fuel = Some ((i + k) `mod` length players)%nat ∧
    players !! ((i + k) `mod` length players)%nat = Some p ∧ Player.canAct p = true ∧
    ∀ k' q, (k' < k)%nat → players !! ((i + k') `mod` length players)%nat = Some q →
            Player.canAct q = false.
Proof.
  induction fuel as [|fuel IH]; intros i Hi (k & p & Hk & Hp & Hact); [lia|].
  simpl. destruct (lookup_lt_is_Some_2 players i Hi) as [p0 Hp0]. rewrite Hp0.
  cbn [mbind option_bind].
  destruct (Player.canAct p0) eqn:Hact0; simpl.
  - exists 0%nat, p0. rewrite Nat.add_0_r, Nat.mod_small by done.
    split; [lia|]. do 3 (split; [done|]). intros; lia.
  - destruct k as [|k].
    { rewrite Nat.add_0_r, Nat.mod_small in Hp by done. congruence. }
    assert (Hshift : ∀ j, (((i + 1) `mod` length players + j) `mod` length players
                           = (i + S j) `mod` length players)%nat).
    { intros j. rewrite Nat.Div0.add_mod_idemp_l. f_equal. lia. }
    destruct (IH ((i + 1) `mod` length players)%nat) as (k2 & p2 & Hk2 & Hrun & Hp2 & Hact2 & Hfirst).
    { apply Nat.mod_upper_bound. lia. }
    { exists k, p. split; [lia|]. by rewrite Hshift. }
    exists (S k2), p2. rewrite Hshift in Hrun, Hp2.
    split; [lia|]. do 3 (split; [done|]).
    intros k' q Hk' Hq. destruct k' as [|k'].
    + rewrite Nat.add_0_r, Nat.mod_small in Hq by done. congruence.
    + apply (Hfirst k' q); [lia|]. by rewrite Hshift.
Qed.

Lemma firstToAct_somebody (players : list Player.t) (i : nat) :
  (i < length players)%nat →
  (∃ p, p ∈ players ∧ Player.canAct p = true) →
  ∃ k p, (k < length players)%nat ∧
    firstToAct players i (length players) = Some ((i + k) `mod` length players)%nat ∧
    players !! ((i + k) `mod` length players)%nat = Some p ∧ Player.canAct p = true ∧
    ∀ k' q, (k' < k)%nat → players !! ((i + k') `mod` length players)%nat = Some q →
            Player.canAct q = false.
Proof.
  intros Hi (p & Hp & Hact). apply firstToAct_finds; [done|].
  apply list_elem_of_lookup_1 in Hp as [j Hj].
  pose proof (lookup_lt_Some _ _ _ Hj) as Hlt.
  exists ((j + length players - i) `mod` length players)%nat, p.
  split; [apply Nat.mod_upper_bound; lia|]. split; [|done].
  rewrite Nat.Div0.add_mod_idemp_r.
  replace (i + (j + length players - i))%nat with (j + 1 * length players)%nat by lia.
  by rewrite Nat.Div0.mod_add, Nat.mod_small.
Qed.

(** X18. When no player at the table can act (everybody has folded or is
    all-in), the [while] loop of [startBettingRound] that looks for the first
    player to act never finds one: whatever seat it starts from and however
    many iterations it is given the search has not ended, so
    [startBettingRound] does not return.  This is the state the engine is in
    after everybody has moved all-in before the flop. *)
Theorem startBettingRound_hangs_when_nobody_can_act (g : t) :
  players g ≠ [] → Forall (λ p, Player.canAct p = false) (players g) →
  startBettingRound g = None ∧
  ∀ start iterations, firstToAct (players g) start iterations = None.
Proof.
  intros Hne Hnone. split; [|intros start iterations; by apply firstToAct_nobody].
  unfold startBettingRound.
  simpl. destruct (bool_decide (state g = PRE_FLOP)); simpl;
    by rewrite firstToAct_nobody.
Qed.

Lemma startBettingRound_hangs_when_nobody_can_act_witness :
  timer allInBeforeFlop = Some StartBettingRound ∧
  startBettingRound allInBeforeFlop = None ∧
  ∀ start iterations, firstToAct (players allInBeforeFlop) start iterations = None.
Proof.
  split; [vm_compute; reflexivity|].
  apply (startBettingRound_hangs_when_nobody_can_act allInBeforeFlop).
  - vm_compute. discriminate.
  - apply (bool_decide_unpack (Forall (λ p, Player.canAct p = false) (players allInBeforeFlop))).
    vm_compute. exact I.
Defined.

(** X19. When somebody can act, [startBettingRound] returns what
    [processNextAction] returns from the state in which every has-acted flag
    is cleared, the table-high bet is cleared unless the round is the
    pre-flop one, and the player to act is the first one who can act, going
    round the table from the third seat after the dealer before the flop and
    from the first seat after the dealer later. *)
Theorem startBettingRound_starts_at_first_able_seat (g : t) :
  (∃ p, p ∈ players g ∧ Player.canAct p = true) →
  let n := length (players g) in
  let start := seatMod g (dealerIndex g + (if bool_decide (state g = PRE_FLOP) then 3 else 1)) in
  ∃ k p, (k < n)%nat ∧
    players g !! ((start + k) `mod` n)%nat = Some p ∧ Player.canAct p = true ∧
    (∀ k' q, (k' < k)%nat → players g !! ((start + k') `mod` n)%nat = Some q →
             Player.canAct q = false) ∧
    startBettingRound g = processNextAction (roundOpenedAt g ((start + k) `mod` n)%nat).
Proof.
  intros Hsome n start.
  assert (Hn : (0 < n)%nat).
  { destruct Hsome as (p & Hp & _). unfold n. destruct (players g); [by apply elem_of_nil in Hp|].
    simpl. lia. }
  assert (Hstart : (start < n)%nat) by (apply Nat.mod_upper_bound; lia).
  destruct (firstToAct_somebody (players g) start Hstart Hsome)
    as (k & p & Hk & Hrun & Hp & Hact & Hfirst).
  exists k, p. do 4 (split; [done|]).
  unfold startBettingRound, roundOpenedAt. unfold start in Hrun. unfold seatMod in *.
  simpl. case_bool_decide as Hpre; simpl in *; rewrite Hrun; done.
Qed.

Lemma startBettingRound_starts_at_first_able_seat_witness :
  let n := length (players flopDealt) in
  let start := seatMod flopDealt (dealerIndex flopDealt
                 + (if bool_decide (state flopDealt = PRE_FLOP) then 3 else 1)) in
  ∃ k p, (k < n)%nat ∧
    players flopDealt !! ((start + k) `mod` n)%nat = Some p ∧ Player.canAct p = true ∧
    (∀ k' q, (k' < k)%nat → players flopDealt !! ((start + k') `mod` n)%nat = Some q →
             Player.canAct q = false) ∧
    startBettingRound flopDealt
    = processNextAction (roundOpenedAt flopDealt ((start + k) `mod` n)%nat).
Proof.
  apply (startBettingRound_starts_at_first_able_seat flopDealt).
  exists (seatOf flopDealt 0). split; [|vm_compute; reflexivity].
  apply (list_elem_of_lookup_2 _ 0%nat). vm_compute. reflexivity.
Defined.

End RoundStart.

(* ====================================================================== *)
(** * The human player's turn                                              *)
(* ====================================================================== *)

Section HumanTurn.

Import TexasHoldemGame.

#[local] Arguments validateGameState : simpl never.

Lemma applyAction_waiting (g g1 : t) (seat : nat) (player : Player.t) (action : PlayerAction)
    (amount : Z) :
  applyAction g seat player action amount = Some g1 →
  waitingForHumanAction g1 = waitingForHumanAction g.
Proof.
  unfold applyAction. intros Happly. destruct action.
  1, 2: by injection Happly as <-.
  all: destruct (currentBets g !! Player.id player) as [c|];
       cbn [mbind option_bind] in Happly; [|done].
  all: simpl in Happly.
  4: destruct (_ >? _).
  all: by injection Happly as <-.
Qed.

Lemma processPlayerAction_waiting (g g' : t) (seat : nat) (action : PlayerAction) (amount : Z) :
  processPlayerAction g seat action amount = Some g' →
  waitingForHumanAction g' = waitingForHumanAction g.
Proof.
  unfold processPlayerAction. intros Hrun.
  destruct (players g !! seat) as [player|]; cbn [mbind option_bind] in Hrun; [|done].
  destruct (applyAction _ seat player action amount) as [g1|] eqn:Happly;
    cbn [mbind option_bind] in Hrun; [|done].
  injection Hrun as <-. destruct (finish_fields g1) as (_ & _ & _ & _ & ->).
  by rewrite (applyAction_waiting _ _ _ _ _ _ Happly).
Qed.

Lemma human_step_not_waiting (g : t) (s : Step) :
  (∀ shuffled, s ≠ NewHand shuffled) → (∀ input, s ≠ Fire input) →
  waitingForHumanAction g = false → step g s = Some g.
Proof.
  intros Hnew Hfire Hw. destruct s; simpl; try done.
  - by destruct (Hnew shuffled).
  - by destruct (Hfire input).
  - unfold humanFold. by rewrite Hw.
  - unfold humanCheck. by rewrite Hw.
  - unfold humanCall. by rewrite Hw.
  - unfold humanBet. by rewrite Hw.
  - unfold humanRaise. by rewrite Hw.
  - unfold humanAllIn. by rewrite Hw.
Qed.

Lemma humanAllIn_clears (g g' : t) :
  humanAllIn g = Some g' → g' = g ∨ waitingForHumanAction g' = false.
Proof.
  unfold humanAllIn. destruct (waitingForHumanAction g); simpl; [|intros [= <-]; by left].
  destruct (players g !! 0%nat) as [human|]; cbn [mbind option_bind]; [|done].
  intros Hrun%processPlayerAction_waiting. by right.
Qed.

Lemma human_step_clears (g g' : t) (s : Step) :
  (∀ shuffled, s ≠ NewHand shuffled) → (∀ input, s ≠ Fire input) →
  step g s = Some g' → g' = g ∨ waitingForHumanAction g' = false.
Proof.
  intros Hnew Hfire. destruct s; simpl.
  - by destruct (Hnew shuffled).
  - by destruct (Hfire input).
  - unfold humanFold. destruct (waitingForHumanAction g); simpl; [|intros [= <-]; by left].
    destruct (players g !! 0%nat) as [human|]; cbn [mbind option_bind]; [|done].
    intros Hrun%processPlayerAction_waiting. by right.
  - unfold humanCheck. destruct (waitingForHumanAction g); simpl; [|intros [= <-]; by left].
    destruct (players g !! 0%nat) as [human|]; cbn [mbind option_bind]; [|done].
    destruct (match currentBets g !! Player.id human with
              | Some c => currentBet g - c >? 0 | None => false end);
      [intros [= <-]; by left|].
    intros Hrun%processPlayerAction_waiting. by right.
  - unfold humanCall. destruct (waitingForHumanAction g) eqn:Hw; simpl; [|intros [= <-]; by left].
    destruct (players g !! 0%nat) as [human|]; cbn [mbind option_bind]; [|done].
    destruct (currentBets g !! Player.id human) as [c|]; cbn [mbind option_bind]; [|done].
    destruct (_ >=? _); [apply humanAllIn_clears|].
    intros Hrun%processPlayerAction_waiting. by right.
  - unfold humanBet. destruct (waitingForHumanAction g) eqn:Hw; simpl; [|intros [= <-]; by left].
    destruct (players g !! 0%nat) as [human|]; cbn [mbind option_bind]; [|done].
    destruct (_ >=? _); [apply humanAllIn_clears|].
    intros Hrun%processPlayerAction_waiting. by right.
  - unfold humanRaise. destruct (waitingForHumanAction g) eqn:Hw; simpl; [|intros [= <-]; by left].
    destruct (players g !! 0%nat) as [human|]; cbn [mbind option_bind]; [|done].
    destruct (_ >=? _); [apply humanAllIn_clears|].
    intros Hrun%processPlayerAction_waiting. by right.
  - apply humanAllIn_clears.
Qed.

(** X20. The human entry points ([humanFold], [humanCheck], [humanCall],
    [humanBet], [humanRaise], [humanAllIn]) do nothing at all unless the
    engine is waiting for the human; and one that is carried out either
    changes nothing (a check refused because a bet is to be called) or clears
    the waiting flag, after which any further human entry point does nothing:
    one turn takes one action. *)
Theorem human_acts_once_per_turn (g g' : t) (s s' : Step) :
  (∀ shuffled, s ≠ NewHand shuffled ∧ s' ≠ NewHand shuffled) →
  (∀ input, s ≠ Fire input ∧ s' ≠ Fire input) →
  (waitingForHumanAction g = false → step g s = Some g) ∧
  (step g s = Some g' →
   g' = g ∨ (waitingForHumanAction g' = false ∧ step g' s' = Some g')).
Proof.
  intros Hnew Hfire. split.
  - apply human_step_not_waiting; [intros x; apply Hnew|intros x; apply Hfire].
  - intros Hstep.
    destruct (human_step_clears g g' s) as [->|Hw];
      [intros x; apply Hnew|intros x; apply Hfire|done|by left|].
    right. split; [done|].
    apply human_step_not_waiting; [intros x; apply Hnew|intros x; apply Hfire|done].
Qed.

Lemma human_acts_once_per_turn_witness :
  (waitingForHumanAction humanToActState = false →
   step humanToActState HumanCall = Some humanToActState) ∧
  (step humanToActState HumanCall
   = Some (default initial (step humanToActState HumanCall)) →
   default initial (step humanToActState HumanCall) = humanToActState ∨
   (waitingForHumanAction (default initial (step humanToActState HumanCall)) = false ∧
    step (default initial (step humanToActState HumanCall)) (HumanRaise 50)
    = Some (default initial (step humanToActState HumanCall)))).
Proof.
  apply (human_acts_once_per_turn humanToActState
           (default initial (step humanToActState HumanCall)) HumanCall (HumanRaise 50)).
  - intros shuffled. split; discriminate.
  - intros input. split; discriminate.
Defined.

End HumanTurn.

(* ====================================================================== *)
(** * Where the chips go when a round or a hand ends                       *)
(* ====================================================================== *)

Section Accounting.

Import TexasHoldemGame.

#[local] Arguments validateGameState : simpl never.

Lemma getCurrentPotSize_eq (g : t) :
  getCurrentPotSize g = PotManager.getTotalPot (pots g) + sumContributions (currentBets g).
Proof. unfold getCurrentPotSize, sumContributions. apply foldl_add_acc. Qed.

Lemma applyAction_returns (g : t) (seat : nat) (player : Player.t) (action : PlayerAction)
    (amount : Z) :
  is_Some (currentBets g !! Player.id player) →
  is_Some (applyAction g seat player action amount).
Proof.
  intros [c Hc]. unfold applyAction. rewrite Hc. destruct action; simpl; try done.
  by destruct (_ >? _).
Qed.

(** X21. Whatever a seated player does (fold, check, call, bet, raise or
    all-in, with any amount), [processPlayerAction] returns and moves chips
    only between that player's stack and the current bets: the total that
    [validateGameState] recomputes is unchanged, and so is the sum of the
    stacks and [getCurrentPotSize]. *)
Theorem processPlayerAction_keeps_chip_total (g : t) (seat : nat) (player : Player.t)
    (action : PlayerAction) (amount : Z) :
  players g !! seat = Some player →
  is_Some (currentBets g !! Player.id player) →
  ∃ g', processPlayerAction g seat action amount = Some g' ∧
    chipTotal g' = chipTotal g ∧
    sumZ (Player.stack <$> players g') + getCurrentPotSize g'
    = sumZ (Player.stack <$> players g) + getCurrentPotSize g.
Proof.
  intros Hseat Hc.
  destruct (processPlayerAction g seat action amount) as [g'|] eqn:Hrun.
  - exists g'. split; [done|].
    pose proof (processPlayerAction_chipTotal _ _ _ _ _ Hrun) as Htotal.
    split; [done|]. rewrite !getCurrentPotSize_eq. unfold chipTotal, sumContributions in *. lia.
  - unfold processPlayerAction in Hrun. rewrite Hseat in Hrun. cbn [mbind option_bind] in Hrun.
    destruct (applyAction_returns
                (set_playersActedThisRound g (<[Player.id player := true]> (playersActedThisRound g)))
                seat player action amount Hc) as [g1 Hg1].
    by rewrite Hg1 in Hrun.
Qed.

Lemma processPlayerAction_keeps_chip_total_witness :
  ∃ g', processPlayerAction humanToActState 0 RAISE 50 = Some g' ∧
    chipTotal g' = chipTotal humanToActState ∧
    sumZ (Player.stack <$> players g') + getCurrentPotSize g'
    = sumZ (Player.stack <$> players humanToActState) + getCurrentPotSize humanToActState.
Proof.
  apply (processPlayerAction_keeps_chip_total humanToActState 0 (seatOf humanToActState 0)).
  - vm_compute. reflexivity.
  - vm_compute. eexists. reflexivity.
Defined.

(** ** Closing a betting round *)

Lemma zeroed_bets (bets : gmap Z Z) (players : list Player.t) :
  let bets' := foldl (λ bets player, <[Player.id player := 0]> bets) bets players in
  ∀ k, bets' !! k = if bool_decide (k ∈ Player.id <$> players) then Some 0 else bets !! k.
Proof.
  revert bets. induction players as [|p ps IH]; intros bets bets' k; [done|].
  unfold bets'. cbn [foldl]. rewrite IH, fmap_cons.
  destruct (decide (k = Player.id p)) as [->|Hne].
  - rewrite (bool_decide_eq_true_2 (_ ∈ _ :: _)) by apply list_elem_of_here.
    case_bool_decide; [done|]. by rewrite lookup_insert_eq.
  - rewrite lookup_insert_ne by done.
    case_bool_decide as Hin.
    + by rewrite bool_decide_eq_true_2 by by apply list_elem_of_further.
    + rewrite bool_decide_eq_false_2; [done|].
      intros [?|?]%elem_of_cons; done.
Qed.

Lemma sumContributions_zero (bets : gmap Z Z) :
  (∀ k v, bets !! k = Some v → v = 0) → sumContributions bets = 0.
Proof.
  intros Hzero. unfold sumContributions, objectValues.
  assert (Hall : Forall (λ v, v = 0) (map_to_list bets).*2).
  { apply Forall_fmap, Forall_forall. intros [k v] Hkv%elem_of_map_to_list. simpl.
    by eapply Hzero. }
  induction Hall as [|v l -> _ IH]; [done|]. rewrite sumZ_cons. lia.
Qed.

(** X22. Closing a betting round before the river (distinct player ids, a
    contributions map over those ids, no negative entry) always succeeds,
    replaces the pots by those that [createPots] builds from the current
    bets alone and clears the bets.  The pots held before are dropped: when
    every contribution is positive the chip total falls by exactly what the
    earlier pots held, and when some contribution is zero no pot is left and
    the total falls by the earlier pots and by all the current bets. *)
Theorem completeBettingRound_forgets_earlier_pots (g : t) :
  state g = PRE_FLOP ∨ state g = FLOP ∨ state g = TURN →
  NoDup (Player.id <$> players g) →
  (∀ k, is_Some (currentBets g !! k) → k ∈ Player.id <$> players g) →
  (∀ k v, currentBets g !! k = Some v → 0 ≤ v) →
  ∃ g', completeBettingRound g = Some g' ∧
    players g' = players g ∧
    pots g' = PotManager.createPots (players g) (currentBets g) ∧
    sumContributions (currentBets g') = 0 ∧
    events g' = events g ++ [BettingRoundComplete (PotManager.getTotalPot (pots g'))] ∧
    ((∀ k v, currentBets g !! k = Some v → 0 < v) →
     chipTotal g' = chipTotal g - PotManager.getTotalPot (pots g)) ∧
    ((∃ k, currentBets g !! k = Some 0) →
     pots g' = [] ∧
     chipTotal g' = chipTotal g - PotManager.getTotalPot (pots g)
                    - sumContributions (currentBets g)).
Proof.
  intros Hstate Hnd Hkeys Hnn.
  set (bets' := foldl (λ bets player, <[Player.id player := 0]> bets) (currentBets g) (players g)).
  assert (Hzero : sumContributions bets' = 0).
  { apply sumContributions_zero. intros k v. unfold bets'. rewrite zeroed_bets.
    case_bool_decide as Hin; [congruence|]. intros Hk. destruct Hin. apply Hkeys. by eexists. }
  assert (Hgen : ∃ g', completeBettingRound g = Some g' ∧
    players g' = players g ∧
    pots g' = PotManager.createPots (players g) (currentBets g) ∧
    currentBets g' = bets' ∧
    events g' = events g ++ [BettingRoundComplete (PotManager.getTotalPot (pots g'))]).
  { unfold completeBettingRound, progressGameState. simpl.
    destruct Hstate as [-> | [-> | ->]]; eexists; (split; [reflexivity|]); done. }
  destruct Hgen as (g' & Hrun & Hplayers & Hpots & Hbets & Hevents).
  exists g'. split; [done|]. split; [done|]. split; [done|].
  split; [by rewrite Hbets|]. split; [done|].
  unfold chipTotal. rewrite Hplayers, Hpots, Hbets.
  fold (sumContributions bets'). fold (sumContributions (currentBets g)). rewrite Hzero.
  split.
  - intros Hpos. rewrite (createPots_conserves_positive _ _ Hnd Hkeys Hpos). lia.
  - intros Hz. rewrite (createPots_zero _ _ Hnn Hz). split; [done|].
    unfold PotManager.getTotalPot at 1. simpl. lia.
Qed.

Lemma completeBettingRound_forgets_earlier_pots_witness :
  ∃ g', completeBettingRound beforeRoundClosesState = Some g' ∧
    players g' = players beforeRoundClosesState ∧
    pots g' = PotManager.createPots (players beforeRoundClosesState)
                                    (currentBets beforeRoundClosesState) ∧
    sumContributions (currentBets g') = 0 ∧
    events g' = events beforeRoundClosesState
                ++ [BettingRoundComplete (PotManager.getTotalPot (pots g'))] ∧
    ((∀ k v, currentBets beforeRoundClosesState !! k = Some v → 0 < v) →
     chipTotal g' = chipTotal beforeRoundClosesState
                    - PotManager.getTotalPot (pots beforeRoundClosesState)) ∧
    ((∃ k, currentBets beforeRoundClosesState !! k = Some 0) →
     pots g' = [] ∧
     chipTotal g' = chipTotal beforeRoundClosesState
                    - PotManager.getTotalPot (pots beforeRoundClosesState)
                    - sumContributions (currentBets beforeRoundClosesState)).
Proof.
  apply (completeBettingRound_forgets_earlier_pots beforeRoundClosesState).
  - left. vm_compute. reflexivity.
  - apply (bool_decide_unpack (NoDup (Player.id <$> players beforeRoundClosesState))).
    vm_compute. exact I.
  - intros k [v Hk].
    apply (map_Forall_lookup_1 (λ k _, k ∈ Player.id <$> players beforeRoundClosesState)
             (currentBets beforeRoundClosesState) k v); [|done].
    apply (bool_decide_unpack
             (map_Forall (λ k _, k ∈ Player.id <$> players beforeRoundClosesState) (currentBets beforeRoundClosesState))).
    vm_compute. exact I.
  - apply (bool_decide_unpack
             (map_Forall (λ _ v, 0 ≤ v) (currentBets beforeRoundClosesState))).
    vm_compute. exact I.
Defined.

(** ** The showdown *)

Lemma evaluateAll_returns (communityCards : list Card.t) (activePlayers : list Player.t) :
  Forall (λ p, (5 ≤ length (Player.holeCards p ++ communityCards))%nat) activePlayers →
  ∀ hands, is_Some (evaluateAll communityCards activePlayers hands).
Proof.
  induction 1 as [|p ps Hp _ IH]; intros hands; simpl; [done|].
  destruct (evaluateHand_returns _ Hp) as [h ->]. cbn [mbind option_bind]. apply IH.
Qed.

Lemma validate_stacks (g : t) :
  Player.stack <$> players (validateGameState g) = Player.stack <$> players g.
Proof.
  rewrite validate_players, <- list_fmap_compose. apply list_fmap_ext.
  intros i p _. simpl. by destruct (_ && _).
Qed.

(** X23. When the betting round on the river is closed (some player seated,
    no negative contribution), the current bets are cleared before
    [showdown] rebuilds the pots from them, so the showdown holds no pot and
    pays nothing: every stack is what it was before the round was closed.  It
    succeeds whenever every player who has not folded holds at least five
    cards together with the board. *)
Theorem river_showdown_pays_nobody (g : t) :
  state g = RIVER → players g ≠ [] →
  (∀ k v, currentBets g !! k = Some v → 0 ≤ v) →
  (∀ g', completeBettingRound g = Some g' →
     state g' = SHOWDOWN ∧ pots g' = [] ∧ timer g' = Some CompleteHand ∧
     Player.stack <$> players g' = Player.stack <$> players g) ∧
  (Forall (λ p, Player.folded p = false →
                (5 ≤ length (Player.holeCards p ++ communityCards g))%nat) (players g) →
   is_Some (completeBettingRound g)).
Proof.
  intros Hstate Hne Hnn.
  set (bets' := foldl (λ bets player, <[Player.id player := 0]> bets) (currentBets g) (players g)).
  assert (Hpots : PotManager.createPots (players g) bets' = []).
  { apply createPots_zero.
    - intros k v. unfold bets'. rewrite zeroed_bets. case_bool_decide; [|apply Hnn].
      intros [= <-]. done.
    - destruct (players g) as [|p ps] eqn:Hps; [done|]. exists (Player.id p).
      unfold bets'. rewrite zeroed_bets, bool_decide_eq_true_2; [done|].
      rewrite fmap_cons. apply list_elem_of_here. }
  assert (Hrun : completeBettingRound g
    = hands ← evaluateAll (communityCards g)
                 (filter (λ p, Player.folded p = false) (players g)) ∅;
      Some (set_timer
              (validateGameState
                 (set_players
                    (set_pots
                       (set_state
                          (set_currentBet
                             (set_currentBets
                                (emit (set_pots g (PotManager.createPots (players g) (currentBets g)))
                                   (BettingRoundComplete
                                      (PotManager.getTotalPot
                                         (PotManager.createPots (players g) (currentBets g)))))
                                bets') 0) SHOWDOWN) []) (players g)))
              (Some CompleteHand))).
  { unfold completeBettingRound, progressGameState. simpl. rewrite Hstate.
    unfold showdown. simpl. fold bets'. rewrite Hpots.
    destruct (evaluateAll _ _ _) as [hands|]; [|done]. cbn [mbind option_bind].
    unfold PotManager.distributePots. simpl. done. }
  split.
  - intros g'. rewrite Hrun.
    destruct (evaluateAll _ _ _) as [hands|]; [|done]. cbn [mbind option_bind].
    intros [= <-].
    split; [by unfold validateGameState; destruct (bool_decide _)|].
    split; [by unfold validateGameState; destruct (bool_decide _)|].
    split; [done|]. unfold set_timer at 1. cbn [players]. by rewrite validate_stacks.
  - intros Hcards. rewrite Hrun.
    destruct (evaluateAll_returns (communityCards g)
                (filter (λ p, Player.folded p = false) (players g))) with (hands := (∅ : gmap Z Hand.t))
      as [hands ->]; [|done].
    apply Forall_forall. intros p [Hf Hp]%list_elem_of_filter.
    rewrite Forall_forall in Hcards. by apply Hcards.
Qed.

Lemma river_showdown_pays_nobody_witness :
  (∀ g', completeBettingRound beforeRiverCloses = Some g' →
     state g' = SHOWDOWN ∧ pots g' = [] ∧ timer g' = Some CompleteHand ∧
     Player.stack <$> players g' = Player.stack <$> players beforeRiverCloses) ∧
  (Forall (λ p, Player.folded p = false →
                (5 ≤ length (Player.holeCards p ++ communityCards beforeRiverCloses))%nat)
          (players beforeRiverCloses) →
   is_Some (completeBettingRound beforeRiverCloses)).
Proof.
  apply (river_showdown_pays_nobody beforeRiverCloses).
  - vm_compute. reflexivity.
  - vm_compute. discriminate.
  - apply (bool_decide_unpack (map_Forall (λ _ v, 0 ≤ v) (currentBets beforeRiverCloses))).
    vm_compute. exact I.
Defined.

(** ** A single player left *)

Lemma findNotFolded_spec (players : list Player.t) :
  (∃ p, p ∈ players ∧ Player.folded p = false) →
  ∃ seat winner, findNotFolded players = Some seat ∧ players !! seat = Some winner ∧
    Player.folded winner = false ∧
    ∀ i q, (i < seat)%nat → players !! i = Some q → Player.folded q = true.
Proof.
  induction players as [|p ps IH]; intros (w & Hw & Hf); [by apply elem_of_nil in Hw|].
  simpl. destruct (Player.folded p) eqn:Hp.
  - apply elem_of_cons in Hw as [->|Hw]; [congruence|].
    destruct IH as (seat & winner & -> & Hseat & Hwf & Hfirst); [by exists w|].
    exists (S seat), winner. split; [done|]. split; [done|]. split; [done|].
    intros [|i] q Hi Hq; simpl in Hq; [congruence|]. apply (Hfirst i); [lia|done].
  - exists 0%nat, p. split; [done|]. split; [done|]. split; [done|]. intros; lia.
Qed.

Lemma win_nothing (p : Player.t) : Player.win p 0 = p.
Proof. destruct p. unfold Player.win. simpl. f_equal. lia. Qed.

(** X24. When the hand ends because a single player is left (distinct
    ids, a contributions map over those ids, no negative entry),
    [handleSinglePlayerWin] pays the first player in seat order who has not
    folded, and pays the pots rebuilt from the current bets, not the pots
    held before: all the current bets when each of them is positive, and
    nothing at all when one of them is zero, in which case every stack is
    left as it was. *)
Theorem handleSinglePlayerWin_pays_current_bets_only (g : t) :
  (∃ p, p ∈ players g ∧ Player.folded p = false) →
  NoDup (Player.id <$> players g) →
  (∀ k, is_Some (currentBets g !! k) → k ∈ Player.id <$> players g) →
  (∀ k v, currentBets g !! k = Some v → 0 ≤ v) →
  ∃ g' seat winner pot,
    handleSinglePlayerWin g = Some g' ∧
    players g !! seat = Some winner ∧ Player.folded winner = false ∧
    (∀ i q, (i < seat)%nat → players g !! i = Some q → Player.folded q = true) ∧
    players g' = <[seat := Player.win winner pot]> (players g) ∧
    events g' = events g ++ [SinglePlayerWin (Player.id winner) pot] ∧
    timer g' = Some CompleteHand ∧
    ((∀ k v, currentBets g !! k = Some v → 0 < v) → pot = sumContributions (currentBets g)) ∧
    ((∃ k, currentBets g !! k = Some 0) → pot = 0 ∧ players g' = players g).
Proof.
  intros Hsome Hnd Hkeys Hnn.
  destruct (findNotFolded_spec _ Hsome) as (seat & winner & Hfind & Hseat & Hf & Hfirst).
  unfold handleSinglePlayerWin. rewrite Hfind. cbn [mbind option_bind]. rewrite Hseat.
  cbn [mbind option_bind].
  eexists _, seat, winner, _. split; [reflexivity|]. simpl.
  do 6 (split; [done|]). split.
  - intros Hpos. by apply createPots_conserves_positive.
  - intros Hz. rewrite (createPots_zero _ _ Hnn Hz). split; [done|].
    change (PotManager.getTotalPot []) with 0. rewrite win_nothing.
    by apply list_insert_id.
Qed.

Lemma handleSinglePlayerWin_pays_current_bets_only_witness :
  ∃ g' seat winner pot,
    handleSinglePlayerWin foldedToBigBlind = Some g' ∧
    players foldedToBigBlind !! seat = Some winner ∧ Player.folded winner = false ∧
    (∀ i q, (i < seat)%nat → players foldedToBigBlind !! i = Some q →
            Player.folded q = true) ∧
    players g' = <[seat := Player.win winner pot]> (players foldedToBigBlind) ∧
    events g' = events foldedToBigBlind ++ [SinglePlayerWin (Player.id winner) pot] ∧
    timer g' = Some CompleteHand ∧
    ((∀ k v, currentBets foldedToBigBlind !! k = Some v → 0 < v) →
     pot = sumContributions (currentBets foldedToBigBlind)) ∧
    ((∃ k, currentBets foldedToBigBlind !! k = Some 0) →
     pot = 0 ∧ players g' = players foldedToBigBlind).
Proof.
  apply (handleSinglePlayerWin_pays_current_bets_only foldedToBigBlind).
  - exists (seatOf foldedToBigBlind 3). split; [|vm_compute; reflexivity].
    apply (list_elem_of_lookup_2 _ 3%nat). vm_compute. reflexivity.
  - apply (bool_decide_unpack (NoDup (Player.id <$> players foldedToBigBlind))).
    vm_compute. exact I.
  - intros k [v Hk].
    apply (map_Forall_lookup_1 (λ k _, k ∈ Player.id <$> players foldedToBigBlind)
             (currentBets foldedToBigBlind) k v); [|done].
    apply (bool_decide_unpack
             (map_Forall (λ k _, k ∈ Player.id <$> players foldedToBigBlind) (currentBets foldedToBigBlind))).
    vm_compute. exact I.
  - apply (bool_decide_unpack (map_Forall (λ _ v, 0 ≤ v) (currentBets foldedToBigBlind))).
    vm_compute. exact I.
Defined.

End Accounting.

(* ====================================================================== *)
(** * The cards                                                            *)
(* ====================================================================== *)

Section Cards.

Import TexasHoldemGame.

#[local] Arguments validateGameState : simpl never.
#[local] Arguments holeCardsOf : simpl never.
#[local] Arguments cardsHeld : simpl never.

Lemma holeCardsOf_cons (p : Player.t) (ps : list Player.t) :
  holeCardsOf (p :: ps) = Player.holeCards p ++ holeCardsOf ps.
Proof. done. Qed.

Lemma holeCardsOf_insert (players : list Player.t) (seat : nat) (p p' : Player.t) :
  players !! seat = Some p → Player.holeCards p' = Player.holeCards p →
  holeCardsOf (<[seat := p']> players) = holeCardsOf players.
Proof.
  revert seat. induction players as [|q ps IH]; intros seat Hseat Hcards; [done|].
  destruct seat as [|seat]; simpl in *.
  - injection Hseat as ->. by rewrite !holeCardsOf_cons, Hcards.
  - rewrite !holeCardsOf_cons. f_equal. by apply IH.
Qed.

Lemma holeCardsOf_fmap (f : Player.t → Player.t) (players : list Player.t) :
  (∀ p, Player.holeCards (f p) = Player.holeCards p) →
  holeCardsOf (f <$> players) = holeCardsOf players.
Proof.
  intros Hf. induction players as [|p ps IH]; [done|].
  rewrite fmap_cons, !holeCardsOf_cons, Hf. by f_equal.
Qed.

Lemma holeCardsOf_none (players : list Player.t) :
  Forall (λ p, Player.holeCards p = []) players → holeCardsOf players = [].
Proof.
  induction 1 as [|p ps Hp _ IH]; [done|]. by rewrite holeCardsOf_cons, Hp, IH.
Qed.

Lemma dealHoles_cards (players : list Player.t) (deck : list Card.t) :
  holeCardsOf (dealHoles players deck).1 ++ (dealHoles players deck).2 = deck.
Proof.
  revert deck. induction players as [|p ps IH]; intros deck; [done|].
  simpl. specialize (IH (drop 2 deck)).
  destruct (dealHoles ps (drop 2 deck)) as [ps' deck']. simpl in *.
  rewrite holeCardsOf_cons. simpl. rewrite <- app_assoc, IH. apply take_drop.
Qed.

Lemma submseteq_NoDup (l1 l2 : list Card.t) : l1 ⊆+ l2 → NoDup l2 → NoDup l1.
Proof.
  intros [k Hk]%submseteq_Permutation Hnd. rewrite Hk in Hnd.
  by apply NoDup_app in Hnd as [? _].
Qed.

(** *** Functions that move no card *)

Lemma cardsHeld_validate (g : t) : cardsHeld (validateGameState g) = cardsHeld g.
Proof.
  unfold cardsHeld. rewrite validate_players.
  rewrite holeCardsOf_fmap by (intros p; by destruct (_ && _)).
  unfold validateGameState. by destruct (bool_decide _).
Qed.

Lemma cardsHeld_applyAction (g g1 : t) (seat : nat) (player : Player.t)
    (action : PlayerAction) (amount : Z) :
  players g !! seat = Some player →
  applyAction g seat player action amount = Some g1 → cardsHeld g1 = cardsHeld g.
Proof.
  intros Hseat. unfold applyAction. intros Happly. destruct action.
  1, 2: injection Happly as <-; unfold cardsHeld; simpl;
        by rewrite (holeCardsOf_insert _ _ player).
  all: destruct (currentBets g !! Player.id player) as [c|];
       cbn [mbind option_bind] in Happly; [|done].
  all: simpl in Happly.
  4: destruct (_ >? _).
  all: injection Happly as <-; unfold cardsHeld; simpl;
       by rewrite (holeCardsOf_insert _ _ player).
Qed.

Lemma cardsHeld_processPlayerAction (g g' : t) (seat : nat) (action : PlayerAction)
    (amount : Z) :
  processPlayerAction g seat action amount = Some g' → cardsHeld g' = cardsHeld g.
Proof.
  unfold processPlayerAction. intros Hrun.
  destruct (players g !! seat) as [player|] eqn:Hseat; cbn [mbind option_bind] in Hrun;
    [|done].
  destruct (applyAction _ seat player action amount) as [g1|] eqn:Happly;
    cbn [mbind option_bind] in Hrun; [|done].
  injection Hrun as <-.
  transitivity (cardsHeld (validateGameState g1)); [done|].
  rewrite cardsHeld_validate.
  by rewrite (cardsHeld_applyAction (set_playersActedThisRound g _) _ _ _ _ _ Hseat Happly).
Qed.

Lemma cardsHeld_humanAllIn (g g' : t) : humanAllIn g = Some g' → cardsHeld g' = cardsHeld g.
Proof.
  unfold humanAllIn. destruct (waitingForHumanAction g); simpl; [|by intros [= <-]].
  destruct (players g !! 0%nat) as [human|]; cbn [mbind option_bind]; [|done].
  by intros ->%cardsHeld_processPlayerAction.
Qed.

Lemma cardsHeld_applyResults (results : list Operation.t) :
  ∀ players players', applyResults players results = Some players' →
  holeCardsOf players' = holeCardsOf players.
Proof.
  induction results as [|r rest IH]; intros players players'; simpl; [by intros [= <-]|].
  destruct (findSeat players (Operation.playerId r)) as [seat|]; cbn [mbind option_bind];
    [|done].
  destruct (players !! seat) as [p|] eqn:Hp; cbn [mbind option_bind]; [|done].
  intros ->%IH. by apply (holeCardsOf_insert _ _ p).
Qed.

Lemma cardsHeld_showdown (g g' : t) : showdown g = Some g' → cardsHeld g' = cardsHeld g.
Proof.
  unfold showdown. simpl.
  destruct (evaluateAll _ _ _) as [hands|]; cbn [mbind option_bind]; [|done].
  destruct (PotManager.distributePots _ _ _) as [results|]; cbn [mbind option_bind]; [|done].
  destruct (applyResults _ _) as [players'|] eqn:Hres; cbn [mbind option_bind]; [|done].
  intros [= <-]. transitivity (cardsHeld (validateGameState
    (set_players (set_pots (set_state g SHOWDOWN)
                    (PotManager.createPots (players g) (currentBets g))) players'))); [done|].
  rewrite cardsHeld_validate. unfold cardsHeld. simpl.
  by rewrite (cardsHeld_applyResults _ _ _ Hres).
Qed.

Lemma cardsHeld_handleSinglePlayerWin (g g' : t) :
  handleSinglePlayerWin g = Some g' → cardsHeld g' = cardsHeld g.
Proof.
  unfold handleSinglePlayerWin.
  destruct (findNotFolded (players g)) as [seat|]; cbn [mbind option_bind]; [|done].
  destruct (players g !! seat) as [winner|] eqn:Hw; cbn [mbind option_bind]; [|done].
  intros [= <-]. unfold cardsHeld. simpl. by rewrite (holeCardsOf_insert _ _ winner).
Qed.

(** *** Dealing *)

Lemma cardsHeld_dealFlop (g : t) : cardsHeld (dealFlop g) ⊆+ cardsHeld g.
Proof.
  unfold cardsHeld, dealFlop. simpl. apply submseteq_skips_l.
  rewrite take_drop. apply submseteq_inserts_l, sublist_submseteq, sublist_drop.
Qed.

Lemma cardsHeld_dealTurn (g : t) : cardsHeld (dealTurn g) ⊆+ cardsHeld g.
Proof.
  unfold cardsHeld, dealTurn. simpl. apply submseteq_skips_l.
  rewrite <- app_assoc, take_drop. apply submseteq_skips_l, sublist_submseteq, sublist_drop.
Qed.

Lemma cardsHeld_dealRiver (g : t) : cardsHeld (dealRiver g) ⊆+ cardsHeld g.
Proof.
  unfold cardsHeld, dealRiver. simpl. apply submseteq_skips_l.
  rewrite <- app_assoc, take_drop. apply submseteq_skips_l, sublist_submseteq, sublist_drop.
Qed.

Lemma cardsHeld_dealHoleCards (g : t) :
  cardsHeld (dealHoleCards g) ≡ₚ communityCards g ++ deck g.
Proof.
  unfold cardsHeld, dealHoleCards.
  pose proof (dealHoles_cards (players g) (deck g)) as Hcards.
  destruct (dealHoles (players g) (deck g)) as [players' deck']. simpl in *.
  rewrite <- Hcards, !(assoc_L (++)). f_equiv. apply Permutation_app_comm.
Qed.

Lemma cardsHeld_progressGameState (g g' : t) :
  progressGameState g = Some g' → cardsHeld g' ⊆+ cardsHeld g.
Proof.
  unfold progressGameState. destruct (state g).
  1, 6, 7: by intros [= <-].
  - intros [= <-]. apply cardsHeld_dealFlop.
  - intros [= <-]. apply cardsHeld_dealTurn.
  - intros [= <-]. apply cardsHeld_dealRiver.
  - by intros ->%cardsHeld_showdown.
Qed.

Lemma cardsHeld_completeBettingRound (g g' : t) :
  completeBettingRound g = Some g' → cardsHeld g' ⊆+ cardsHeld g.
Proof. unfold completeBettingRound. by intros ?%cardsHeld_progressGameState. Qed.

Lemma cardsHeld_processNextAction (g g' : t) :
  processNextAction g = Some g' → cardsHeld g' ⊆+ cardsHeld g.
Proof.
  unfold processNextAction.
  case_bool_decide; [apply cardsHeld_completeBettingRound|].
  destruct (_ && _); [by intros ->%cardsHeld_handleSinglePlayerWin|].
  destruct (isBettingRoundComplete g); [apply cardsHeld_completeBettingRound|].
  destruct (players g !! currentPlayerIndex g) as [p|]; cbn [mbind option_bind]; [|done].
  destruct (negb (Player.canAct p)); [by intros [= <-]|].
  destruct (Player.isHuman p); simpl; by intros [= <-].
Qed.

Lemma cardsHeld_startBettingRound (g g' : t) :
  startBettingRound g = Some g' → cardsHeld g' ⊆+ cardsHeld g.
Proof.
  unfold startBettingRound. simpl.
  destruct (firstToAct _ _ _) as [i|]; cbn [mbind option_bind]; [|done].
  intros Hrun%cardsHeld_processNextAction.
  by destruct (bool_decide (state g = PRE_FLOP)).
Qed.

Lemma cardsHeld_postBlinds (g g' : t) : postBlinds g = Some g' → cardsHeld g' = cardsHeld g.
Proof.
  unfold postBlinds.
  destruct (players g !! seatMod g (dealerIndex g + 1)) as [sb|] eqn:Hsb;
    cbn [mbind option_bind]; [|done].
  simpl.
  destruct (<[seatMod g (dealerIndex g + 1) := _]> (players g) !! _) as [bb|] eqn:Hbb;
    cbn [mbind option_bind]; [|done].
  intros [= <-]. unfold cardsHeld. simpl.
  rewrite (holeCardsOf_insert _ _ bb) by done.
  by rewrite (holeCardsOf_insert _ _ sb).
Qed.

Lemma cardsHeld_startNewHand (g g' : t) (shuffled : list Card.t) :
  startNewHand g shuffled = Some g' → cardsHeld g' ⊆+ shuffled.
Proof.
  unfold startNewHand. simpl.
  set (seated := filter (λ p, 0 < Player.stack p) (Player.reset <$> players g)).
  assert (Hnone : holeCardsOf seated = []).
  { apply holeCardsOf_none, Forall_forall. intros p [_ Hp]%list_elem_of_filter.
    by apply list_elem_of_fmap in Hp as (q & -> & _). }
  case_bool_decide.
  { intros [= <-]. unfold cardsHeld. simpl. fold seated. by rewrite Hnone. }
  destruct (postBlinds _) as [g1|] eqn:Hblinds; cbn [mbind option_bind]; [|done].
  intros Hrun%cardsHeld_startBettingRound.
  etrans; [exact Hrun|]. clear Hrun.
  apply cardsHeld_postBlinds in Hblinds.
  unfold cardsHeld in Hblinds at 2. simpl in Hblinds. fold seated in Hblinds.
  rewrite Hnone in Hblinds. simpl in Hblinds.
  transitivity (cardsHeld (dealHoleCards g1)).
  { unfold cardsHeld, dealHoleCards. by destruct (dealHoles _ _). }
  rewrite cardsHeld_dealHoleCards.
  assert (Hparts : communityCards g1 ++ deck g1 ⊆+ cardsHeld g1)
    by (unfold cardsHeld; apply submseteq_inserts_l; done).
  by rewrite Hparts, Hblinds.
Qed.

Lemma cardsHeld_step (g g' : t) (s : Step) :
  step g s = Some g' →
  cardsHeld g' ⊆+ cardsHeld g ∨
  ∃ shuffled, (s = NewHand shuffled ∨ s = Fire (Shuffled shuffled)) ∧
              cardsHeld g' ⊆+ shuffled.
Proof.
  destruct s; simpl.
  - intros Hrun%cardsHeld_startNewHand. right. exists shuffled. split; [by left|done].
  - unfold fire. destruct (timer g) as [cb|]; [|intros [= <-]; by left].
    destruct cb.
    + intros Hrun%cardsHeld_processNextAction. by left.
    + destruct input; try done. intros ->%cardsHeld_processPlayerAction. by left.
    + intros Hrun%cardsHeld_startBettingRound. by left.
    + intros [= <-]. by left.
    + destruct input; try done.
      intros Hrun%cardsHeld_startNewHand. right. exists cards. split; [by right|done].
  - unfold humanFold. destruct (waitingForHumanAction g); simpl; [|intros [= <-]; by left].
    destruct (players g !! 0%nat) as [human|]; cbn [mbind option_bind]; [|done].
    intros ->%cardsHeld_processPlayerAction. by left.
  - unfold humanCheck. destruct (waitingForHumanAction g); simpl; [|intros [= <-]; by left].
    destruct (players g !! 0%nat) as [human|]; cbn [mbind option_bind]; [|done].
    destruct (match currentBets g !! Player.id human with
              | Some c => currentBet g - c >? 0 | None => false end);
      [intros [= <-]; by left|].
    intros ->%cardsHeld_processPlayerAction. by left.
  - unfold humanCall. destruct (waitingForHumanAction g) eqn:Hw; simpl; [|intros [= <-]; by left].
    destruct (players g !! 0%nat) as [human|]; cbn [mbind option_bind]; [|done].
    destruct (currentBets g !! Player.id human) as [c|]; cbn [mbind option_bind]; [|done].
    destruct (_ >=? _); [intros ->%cardsHeld_humanAllIn; by left|].
    intros ->%cardsHeld_processPlayerAction. by left.
  - unfold humanBet. destruct (waitingForHumanAction g) eqn:Hw; simpl; [|intros [= <-]; by left].
    destruct (players g !! 0%nat) as [human|]; cbn [mbind option_bind]; [|done].
    destruct (_ >=? _); [intros ->%cardsHeld_humanAllIn; by left|].
    intros ->%cardsHeld_processPlayerAction. by left.
  - unfold humanRaise. destruct (waitingForHumanAction g) eqn:Hw; simpl; [|intros [= <-]; by left].
    destruct (players g !! 0%nat) as [human|]; cbn [mbind option_bind]; [|done].
    destruct (_ >=? _); [intros ->%cardsHeld_humanAllIn; by left|].
    intros ->%cardsHeld_processPlayerAction. by left.
  - intros ->%cardsHeld_humanAllIn. by left.
Qed.

(** X25. However the engine is driven (timers firing with any bot decisions,
    the human entry points, new hands), no card is ever held twice: if the
    hole cards, the board and the rest of the deck hold no duplicate, and
    every deck handed to a new hand holds none, then they hold none after any
    sequence of steps that the engine carries out. *)
Theorem no_card_is_held_twice (steps : list Step) (g g' : t) :
  run g steps = Some g' →
  NoDup (cardsHeld g) →
  Forall (λ s, match s with
               | NewHand shuffled | Fire (Shuffled shuffled) => NoDup shuffled
               | _ => True
               end) steps →
  NoDup (cardsHeld g').
Proof.
  revert g. induction steps as [|s steps IH]; intros g Hrun Hnd Hdecks; simpl in Hrun.
  - by injection Hrun as <-.
  - destruct (step g s) as [g1|] eqn:Hstep; cbn [mbind option_bind] in Hrun; [|done].
    apply Forall_cons in Hdecks as [Hs Hdecks].
    apply (IH g1 Hrun); [|done].
    destruct (cardsHeld_step _ _ _ Hstep) as [Hsub|(shuffled & Heq & Hsub)].
    + by eapply submseteq_NoDup.
    + eapply submseteq_NoDup; [exact Hsub|]. by destruct Heq as [-> | ->].
Qed.

Lemma no_card_is_held_twice_witness :
  NoDup (cardsHeld (default initial (run initial handToShowdown))).
Proof.
  apply (no_card_is_held_twice handToShowdown initial).
  - vm_compute. reflexivity.
  - vm_compute. constructor.
  - unfold handToShowdown, preflopWithOneFold, checkedAround, bot, human. simpl.
    apply Forall_cons. split.
    { apply (bool_decide_unpack (NoDup freshDeck)). vm_compute. exact I. }
    repeat (apply Forall_cons; split; [exact I|]). apply Forall_nil_2.
Defined.




End Cards.

(* ====================================================================== *)
(** * What the engine checks and what it does not                          *)
(* ====================================================================== *)

Section Unchecked.

Import TexasHoldemGame.

#[local] Arguments validateGameState : simpl never.

Lemma validate_seat (g : t) (seat : nat) (p : Player.t) :
  players g !! seat = Some p →
  ∃ p', players (validateGameState g) !! seat = Some p' ∧
    Player.id p' = Player.id p ∧ Player.stack p' = Player.stack p ∧
    Player.folded p' = Player.folded p ∧ Player.canAct p' = Player.canAct p ∧
    Player.holeCards p' = Player.holeCards p.
Proof.
  intros Hp. rewrite validate_players, list_lookup_fmap, Hp. simpl.
  eexists. split; [done|].
  destruct (bool_decide (Player.stack p = 0) && negb (Player.allIn p) && negb (Player.folded p))
    eqn:Hfix; [|done].
  do 3 (split; [done|]). split; [|done].
  apply andb_true_iff in Hfix as [[Hs%bool_decide_eq_true _]%andb_true_iff _].
  unfold Player.canAct. simpl. rewrite Hs.
  by rewrite !andb_false_r.
Qed.

(** X27. [validateGameState] only reports: it emits [integrityError] with
    the recomputed total exactly when that total is not 6000, and its
    correction of the all-in flag changes no stack, does not change who can
    act, leaves the chip total and the answer of [isBettingRoundComplete] as
    they are, and leaves every player who has no chips and has not folded
    marked all-in. *)
Theorem validateGameState_only_reports (g : t) :
  events (validateGameState g)
  = events g ++ (if bool_decide (chipTotal g = EXPECTED_TOTAL) then []
                 else [IntegrityError (chipTotal g)]) ∧
  chipTotal (validateGameState g) = chipTotal g ∧
  Player.stack <$> players (validateGameState g) = Player.stack <$> players g ∧
  Player.canAct <$> players (validateGameState g) = Player.canAct <$> players g ∧
  isBettingRoundComplete (validateGameState g) = isBettingRoundComplete g ∧
  Forall (λ p, Player.stack p = 0 → Player.folded p = false → Player.allIn p = true)
         (players (validateGameState g)).
Proof.
  assert (HcanAct : Player.canAct <$> players (validateGameState g) = Player.canAct <$> players g).
  { rewrite validate_players, <- list_fmap_compose. apply list_fmap_ext. intros i p Hp. simpl.
    destruct (bool_decide (Player.stack p = 0) && negb (Player.allIn p)
              && negb (Player.folded p)) eqn:Hfix; [|done].
    apply andb_true_iff in Hfix as [[Hs%bool_decide_eq_true _]%andb_true_iff _].
    unfold Player.canAct. simpl. rewrite Hs. by rewrite !andb_false_r. }
  split.
  { unfold validateGameState. case_bool_decide as Hne.
    - rewrite bool_decide_eq_false_2 by done. done.
    - rewrite bool_decide_eq_true_2; [by rewrite app_nil_r|].
      by destruct (decide (chipTotal g = EXPECTED_TOTAL)). }
  split; [apply chipTotal_validate|].
  split.
  { rewrite validate_players, <- list_fmap_compose. apply list_fmap_ext.
    intros i p _. simpl. by destruct (_ && _). }
  split; [done|]. split.
  - destruct (validate_fields g) as (Hbets & Hbet & Hacted & _).
    assert (Hiff : isBettingRoundComplete (validateGameState g) = true
                   ↔ isBettingRoundComplete g = true).
    { rewrite !isBettingRoundComplete_spec, Hbets, Hbet, Hacted. split.
      - intros Hall p Hp Hact.
        apply list_elem_of_lookup_1 in Hp as [i Hi].
        destruct (validate_seat g i p Hi) as (p' & Hp' & Hid & _ & _ & Hc & _).
        rewrite <- Hid. apply Hall; [by eapply list_elem_of_lookup_2|congruence].
      - intros Hall p' Hp' Hact.
        apply list_elem_of_lookup_1 in Hp' as [i Hi].
        assert (is_Some (players g !! i)) as [p Hp].
        { apply lookup_lt_is_Some. destruct (validate_fields g) as (_ & _ & _ & <-).
          by eapply lookup_lt_Some. }
        destruct (validate_seat g i p Hp) as (p'' & Hp'' & Hid & _ & _ & Hc & _).
        assert (p'' = p') as -> by congruence.
        rewrite Hid. apply Hall; [by eapply list_elem_of_lookup_2|congruence]. }
    destruct (isBettingRoundComplete (validateGameState g)), (isBettingRoundComplete g);
      try done; [by destruct Hiff as [-> _]|by destruct Hiff as [_ ->]].
  - rewrite validate_players. apply Forall_fmap, Forall_forall. intros p _. simpl.
    destruct (bool_decide (Player.stack p = 0)) eqn:Hs; simpl; [|].
    + destruct (Player.allIn p) eqn:Ha, (Player.folded p) eqn:Hf; simpl; try done.
      all: rewrite ?Ha, ?Hf; congruence.
    + intros Hz. apply bool_decide_eq_false in Hs. done.
Qed.

(** ** Amounts the engine does not check *)

Lemma applyAction_wager (g : t) (seat : nat) (player : Player.t) (c amount : Z)
    (action : PlayerAction) :
  action = BET ∨ action = RAISE →
  currentBets g !! Player.id player = Some c →
  amount ≤ Player.stack player →
  ∃ g1 player',
    applyAction g seat player action amount = Some g1 ∧
    players g1 = <[seat := player']> (players g) ∧
    Player.stack player' = Player.stack player - amount ∧
    currentBets g1 = <[Player.id player := c + amount]> (currentBets g) ∧
    currentBet g1 = c + amount.
Proof.
  intros Haction Hc Hle. unfold applyAction. rewrite Hc.
  destruct Haction as [-> | ->]; simpl; rewrite Z.min_l by lia;
    (eexists _, _; split; [reflexivity|]); simpl; done.
Qed.

(** X28. [humanBet] and [humanRaise] check the amount against the stack
    only: while the engine waits for the human, any amount below the stack is
    carried out as it is, whether or not it reaches the table-high bet or the
    minimum raise, and even when it is zero or negative.  The stack falls by
    the amount (so it grows for a negative one), the human's contribution
    rises by it and becomes the table-high bet. *)
Theorem human_wager_is_not_checked (g : t) (human : Player.t) (c amount : Z)
    (entry : t → Z → option t) :
  entry = humanBet ∨ entry = humanRaise →
  waitingForHumanAction g = true →
  players g !! 0%nat = Some human →
  currentBets g !! Player.id human = Some c →
  amount < Player.stack human →
  ∃ g' human',
    entry g amount = Some g' ∧
    players g' !! 0%nat = Some human' ∧
    Player.stack human' = Player.stack human - amount ∧
    currentBets g' = <[Player.id human := c + amount]> (currentBets g) ∧
    currentBet g' = c + amount ∧
    chipTotal g' = chipTotal g.
Proof.
  intros Hentry Hw Hhuman Hc Hlt.
  pose proof (lookup_lt_Some _ _ _ Hhuman) as Hlen.
  assert (Hrun : ∃ action, (action = BET ∨ action = RAISE) ∧
            entry g amount = processPlayerAction (set_waitingForHumanAction g false) 0 action amount).
  { destruct Hentry as [-> | ->]; [exists BET|exists RAISE]; (split; [auto|]);
      unfold humanBet, humanRaise; rewrite Hw, Hhuman; cbn [mbind option_bind negb];
      (destruct (Z.geb_spec amount (Player.stack human)) as [?|_]; [lia|]); done. }
  destruct Hrun as (action & Haction & ->).
  destruct (applyAction_wager
              (set_playersActedThisRound (set_waitingForHumanAction g false)
                 (<[Player.id human := true]> (playersActedThisRound g)))
              0 human c amount action Haction Hc ltac:(lia))
    as (g1 & human1 & Happly & Hplayers & Hstack & Hbets & Hbet).
  assert (Hproc : processPlayerAction (set_waitingForHumanAction g false) 0 action amount
                  = Some (moveToNextPlayer (validateGameState g1))).
  { unfold processPlayerAction.
    change (players (set_waitingForHumanAction g false)) with (players g). rewrite Hhuman.
    cbn [mbind option_bind].
    change (playersActedThisRound (set_waitingForHumanAction g false))
      with (playersActedThisRound g).
    rewrite Happly. done. }
  pose proof (processPlayerAction_chipTotal _ _ _ _ _ Hproc) as Htotal.
  rewrite Hproc.
  destruct (validate_seat g1 0 human1) as (p' & Hp' & _ & Hs & _).
  { rewrite Hplayers. by apply list_lookup_insert_eq. }
  destruct (finish_fields g1) as (Hb & Hcb & _ & Hps & _).
  exists (moveToNextPlayer (validateGameState g1)), p'.
  split; [done|]. split; [by rewrite Hps|]. split; [by rewrite Hs|].
  split; [by rewrite Hb|]. split; [by rewrite Hcb|]. exact Htotal.
Qed.

Lemma human_wager_is_not_checked_witness :
  ∃ g' human',
    humanBet humanToActState (-50) = Some g' ∧
    players g' !! 0%nat = Some human' ∧
    Player.stack human' = Player.stack (seatOf humanToActState 0) - -50 ∧
    currentBets g' = <[Player.id (seatOf humanToActState 0) := 0 + -50]>
                       (currentBets humanToActState) ∧
    currentBet g' = 0 + -50 ∧
    chipTotal g' = chipTotal humanToActState.
Proof.
  apply (human_wager_is_not_checked humanToActState (seatOf humanToActState 0) 0 (-50)
           humanBet).
  - by left.
  - vm_compute. reflexivity.
  - vm_compute. reflexivity.
  - vm_compute. reflexivity.
  - vm_compute. reflexivity.
Defined.

(** ** Who is asked to act *)

Lemma completeBettingRound_asks_nobody (g g' : t) :
  timer g = None → completeBettingRound g = Some g' →
  (∀ seat, timer g' ≠ Some (ProcessBotAction seat)) ∧
  waitingForHumanAction g' = waitingForHumanAction g.
Proof.
  intros Htimer. unfold completeBettingRound, progressGameState. simpl.
  destruct (state g); try (intros [= <-]; simpl; split; [intros seat; congruence|done]).
  unfold showdown. simpl.
  destruct (evaluateAll _ _ _) as [hands|]; cbn [mbind option_bind]; [|done].
  destruct (PotManager.distributePots _ _ _) as [results|]; cbn [mbind option_bind]; [|done].
  destruct (applyResults _ _) as [players'|]; cbn [mbind option_bind]; [|done].
  intros [= <-]. split; [done|].
  unfold set_timer. simpl. by destruct (bool_decide _).
Qed.

(** X29. [processNextAction] (run with no timer pending and the engine not
    waiting for the human) asks a player to act only when the round is not
    complete and the player in turn can act: a bot's decision is scheduled
    only for the seat in turn, held by a bot that can act, and the engine starts
    waiting for the human only when the seat in turn is held by a human who
    can act; nothing else is changed in either case. *)
Theorem processNextAction_asks_only_who_can_act (g g' : t) :
  timer g = None → waitingForHumanAction g = false →
  processNextAction g = Some g' →
  (∀ seat, timer g' = Some (ProcessBotAction seat) →
     seat = currentPlayerIndex g ∧
     ∃ p, players g !! seat = Some p ∧ Player.isHuman p = false ∧ Player.canAct p = true ∧
          isBettingRoundComplete g = false ∧ g' = set_timer g (Some (ProcessBotAction seat))) ∧
  (waitingForHumanAction g' = true →
     ∃ p, players g !! currentPlayerIndex g = Some p ∧ Player.isHuman p = true ∧
          Player.canAct p = true ∧ isBettingRoundComplete g = false ∧
          g' = set_waitingForHumanAction g true).
Proof.
  intros Htimer Hw. unfold processNextAction.
  assert (Hclose : completeBettingRound g = Some g' →
    (∀ seat, timer g' = Some (ProcessBotAction seat) →
       seat = currentPlayerIndex g ∧
       ∃ p, players g !! seat = Some p ∧ Player.isHuman p = false ∧ Player.canAct p = true ∧
            isBettingRoundComplete g = false ∧ g' = set_timer g (Some (ProcessBotAction seat))) ∧
    (waitingForHumanAction g' = true →
       ∃ p, players g !! currentPlayerIndex g = Some p ∧ Player.isHuman p = true ∧
            Player.canAct p = true ∧ isBettingRoundComplete g = false ∧
            g' = set_waitingForHumanAction g true)).
  { intros [Hno Hsame]%completeBettingRound_asks_nobody; [|done]. split.
    - intros seat Hseat. by destruct (Hno seat).
    - rewrite Hsame, Hw. done. }
  case_bool_decide; [done|].
  destruct (_ && _).
  { unfold handleSinglePlayerWin.
    destruct (findNotFolded (players g)) as [seat|]; cbn [mbind option_bind]; [|done].
    destruct (players g !! seat) as [winner|]; cbn [mbind option_bind]; [|done].
    intros [= <-]. simpl. split; [done|]. by rewrite Hw. }
  destruct (isBettingRoundComplete g) eqn:Hcomplete; [done|].
  destruct (players g !! currentPlayerIndex g) as [p|] eqn:Hp; cbn [mbind option_bind]; [|done].
  destruct (Player.canAct p) eqn:Hact; simpl.
  2: { intros [= <-]. simpl. split; [done|]. by rewrite Hw. }
  destruct (Player.isHuman p) eqn:Hhuman; simpl; intros [= <-]; simpl.
  - rewrite Htimer. split; [done|]. intros _. by exists p.
  - split.
    + intros seat [= <-]. split; [done|]. by exists p.
    + by rewrite Hw.
Qed.

Lemma processNextAction_asks_only_who_can_act_witness :
  (∀ seat, timer (default initial (processNextAction afterFirstFold))
           = Some (ProcessBotAction seat) →
     seat = currentPlayerIndex afterFirstFold ∧
     ∃ p, players afterFirstFold !! seat = Some p ∧ Player.isHuman p = false ∧
          Player.canAct p = true ∧ isBettingRoundComplete afterFirstFold = false ∧
          default initial (processNextAction afterFirstFold)
          = set_timer afterFirstFold (Some (ProcessBotAction seat))) ∧
  (waitingForHumanAction (default initial (processNextAction afterFirstFold)) = true →
     ∃ p, players afterFirstFold !! currentPlayerIndex afterFirstFold = Some p ∧
          Player.isHuman p = true ∧ Player.canAct p = true ∧
          isBettingRoundComplete afterFirstFold = false ∧
          default initial (processNextAction afterFirstFold)
          = set_waitingForHumanAction afterFirstFold true).
Proof.
  apply (processNextAction_asks_only_who_can_act afterFirstFold
           (default initial (processNextAction afterFirstFold))).
  - vm_compute. reflexivity.
  - vm_compute. reflexivity.
  - vm_compute. reflexivity.
Defined.

End Unchecked.

(* ====================================================================== *)
(** * Describing a hand                                                    *)
(* ====================================================================== *)

Section Description.

Import HandEvaluator.

Lemma rankLabel_of_card (c : Card.t) : rankLabel (Some (Card.value c)) = rankText (Card.rank c).
Proof. destruct c as [s []]; reflexivity. Qed.

Lemma evaluate5Cards_second_value (cards : list Card.t) (h : Hand.t) :
  evaluate5Cards cards = Some h →
  Hand.ranking h = HAND_RANKINGS.FULL_HOUSE ∨ Hand.ranking h = HAND_RANKINGS.TWO_PAIR →
  (2 ≤ length (Hand.values h))%nat.
Proof.
  unfold evaluate5Cards.
  destruct (checkFlush _) as [isFlush|]; cbn [mbind option_bind]; [|done].
  intros [= <-].
  repeat match goal with
         | |- context [if ?b then _ else _] => destruct b
         end; simpl; intros [Hr|Hr]; try discriminate; lia.
Qed.

Lemma evaluateHand_is_a_five_card_hand (cards : list Card.t) (h : Hand.t) :
  evaluateHand cards = Some (Some h) →
  ∃ combo, combo ≠ [] ∧ combo ⊆ cards ∧ evaluate5Cards combo = Some h.
Proof.
  unfold evaluateHand, findBest5CardHand.
  destruct (Nat.ltb_spec (length cards) 5) as [?|Hge]; [done|].
  assert (Hloop : bestHandLoop (getCombinations cards 5) None = Some (Some h) →
                  ∃ combo, combo ≠ [] ∧ combo ⊆ cards ∧ evaluate5Cards combo = Some h).
  { intros Hrun.
    assert (Hall : Forall (λ combo : list Card.t, combo ≠ []) (getCombinations cards 5)).
    { apply Forall_forall. intros c [_ Hc]%elem_of_getCombinations. by destruct c. }
    destruct (bestHandLoop_spec _ None Hall) as (r & Hr & _ & Hsome & _).
    rewrite Hrun in Hr. injection Hr as <-.
    destruct (Hsome h eq_refl) as ([?|(combo & Hcombo & Hev)] & _); [done|].
    exists combo. apply elem_of_getCombinations in Hcombo as [Hsub Hlen].
    split; [by destruct combo|]. split; [|done].
    intros c Hc. by eapply elem_of_sublist. }
  destruct (length cards =? 7)%nat; [done|].
  destruct (length cards =? 6)%nat; [done|].
  destruct (evaluate5Cards cards) as [h'|] eqn:Hev; [|done]. simpl. intros [= <-].
  exists cards. split; [intros ->; simpl in Hge; lia|]. done.
Qed.

(** X30. For every hand that [evaluateHand] returns, [getHandDescription]
    never falls through to ["Unknown hand"], and every rank it names is the
    rank of one of the cards that were evaluated: the look-up in [RANKS] for
    the first value, and for the second value of a full house or of two
    pair, is never [undefined]. *)
Theorem getHandDescription_names_ranks_held (cards : list Card.t) (h : Hand.t) :
  evaluateHand cards = Some (Some h) →
  getHandDescription h ≠ "Unknown hand" ∧
  (∃ c, c ∈ cards ∧ rankLabel (Hand.values h !! 0%nat) = rankText (Card.rank c)) ∧
  (Hand.ranking h = HAND_RANKINGS.FULL_HOUSE ∨ Hand.ranking h = HAND_RANKINGS.TWO_PAIR →
   ∃ c, c ∈ cards ∧ rankLabel (Hand.values h !! 1%nat) = rankText (Card.rank c)).
Proof.
  intros (combo & Hne & Hsub & Hev)%evaluateHand_is_a_five_card_hand.
  destruct (evaluate5Cards_shape combo Hne) as (h' & Hev' & _ & _ & Hrank & Hvne & Hvals).
  assert (h' = h) as -> by congruence.
  assert (Hlabel : ∀ i v, Hand.values h !! i = Some v →
            ∃ c, c ∈ cards ∧ rankLabel (Hand.values h !! i) = rankText (Card.rank c)).
  { intros i v Hv. rewrite Forall_forall in Hvals.
    destruct (Hvals v) as (c & Hc & ->); [by eapply list_elem_of_lookup_2|].
    exists c. split; [by apply Hsub|]. rewrite Hv. apply rankLabel_of_card. }
  assert (Hfirst : ∃ v, Hand.values h !! 0%nat = Some v).
  { destruct (Hand.values h) as [|v vs]; [done|]. by exists v. }
  destruct Hfirst as [v0 Hv0].
  destruct (Hlabel 0%nat v0 Hv0) as (c & Hin & Hc).
  split; [|split].
  - 
    unfold getHandDescription. cbv zeta. rewrite Hc.
    assert (Hcases : Hand.ranking h = 1 ∨ Hand.ranking h = 2 ∨ Hand.ranking h = 3 ∨
                     Hand.ranking h = 4 ∨ Hand.ranking h = 5 ∨ Hand.ranking h = 6 ∨
                     Hand.ranking h = 7 ∨ Hand.ranking h = 8 ∨ Hand.ranking h = 9 ∨
                     Hand.ranking h = 10) by lia.
    destruct Hcases as [Hr|[Hr|[Hr|[Hr|[Hr|[Hr|[Hr|[Hr|[Hr|Hr]]]]]]]]]; rewrite Hr;
      repeat (first [rewrite bool_decide_eq_true_2 by reflexivity
                    |rewrite bool_decide_eq_false_2 by discriminate]);
      try discriminate.
    destruct (Card.rank c); discriminate.
  - by exists c.
  - intros Hr. pose proof (evaluate5Cards_second_value _ _ Hev Hr) as Hlen.
    destruct (lookup_lt_is_Some_2 (Hand.values h) 1 ltac:(lia)) as [v Hv].
    by apply (Hlabel 1%nat v).
Qed.

Lemma getHandDescription_names_ranks_held_witness :
  getHandDescription (default aceHigh (default None (evaluateHand sevenCards)))
  ≠ "Unknown hand" ∧
  (∃ c, c ∈ sevenCards ∧
        rankLabel (Hand.values (default aceHigh (default None (evaluateHand sevenCards)))
                     !! 0%nat)
        = rankText (Card.rank c)) ∧
  (Hand.ranking (default aceHigh (default None (evaluateHand sevenCards)))
   = HAND_RANKINGS.FULL_HOUSE
   ∨ Hand.ranking (default aceHigh (default None (evaluateHand sevenCards)))
     = HAND_RANKINGS.TWO_PAIR →
   ∃ c, c ∈ sevenCards ∧
        rankLabel (Hand.values (default aceHigh (default None (evaluateHand sevenCards)))
                     !! 1%nat)
        = rankText (Card.rank c)).
Proof.
  apply (getHandDescription_names_ranks_held sevenCards).
  vm_compute. reflexivity.
Defined.

End Description.
